(** * react-native-html-renderer: parser, style resolver, plugin registry, cache

    A shallow embedding of the TypeScript sources
    ([src/parser/parser.ts], [src/parser/types.ts],
    [src/styles/styleParser.ts], [src/styles/styleResolver.ts],
    [src/styles/defaultStyles.ts], [src/plugins/pluginTypes.ts],
    [src/plugins/pluginRegistry.ts], the [ContentCache] class of
    [src/renderer/NodeRenderer.tsx] and the chunker of
    [src/performance/VirtualizedContent.tsx]) together with the properties
    the specification states about them and further properties the code
    itself shows.

    Conventions of the embedding:
    - a JavaScript string is a [string]; its characters are the code units
      0..255, and the character classes of the language ([\s], [\d],
      [toLowerCase]) are written out on that range;
    - a JavaScript [Map] is an insertion-ordered association list with unique
      keys ([JsMap]); a plain object used as a dictionary is given by its
      own enumerable properties (a [gmap] or a lookup table), none of them
      named [__proto__]; a lookup [obj[key]] finds the own property or else
      the member of [Object.prototype] of that name ([Property]);
    - numbers are any implementation of the primitives the code uses
      ([JsNumber]); priorities, sizes and times are integers;
    - an object reference is a natural number ([Ref]); two nodes are the same
      object exactly when their references are equal.  A tree of nodes is a
      tree of records that carry their reference: assigning to a field of an
      object keeps its reference, an object literal takes a fresh one;
    - [Date.now()] is an explicit argument;
    - callbacks supplied by the user act on an opaque [World]; the [setup]
      and [cleanup] callbacks of a plugin can also reach the registry that
      calls them, so they act on the registry's state as well;
    - a plugin, once built, is a value: its fields are not assigned later;
    - the texts an engine chooses (the message of a [TypeError], the source
      text of a native function) are V8's;
    - a call that can throw returns a [Completion]. *)

From Stdlib Require Import ZArith QArith Lia Ascii Sorted.
From stdpp Require Import gmap strings list fin_maps sorting.

Local Open Scope Z_scope.

(* ===================================================================== *)
(** * Part I: the model                                                    *)
(* ===================================================================== *)

(** ** JavaScript [Map]: insertion-ordered, unique keys *)

Module JsMap.
Section JsMap.
Context {V : Type}.

Definition t := list (string * V).

Fixpoint get (k : string) (m : t) : option V :=
  match m with
  | [] => None
  | (k', v) :: m' => if String.eqb k k' then Some v else get k m'
  end.

Definition has (k : string) (m : t) : bool :=
  match get k m with Some _ => true | None => false end.

(** [Map.prototype.set]: an existing key keeps its position. *)
Fixpoint set (k : string) (v : V) (m : t) : t :=
  match m with
  | [] => [(k, v)]
  | (k', v') :: m' =>
      if String.eqb k k' then (k, v) :: m' else (k', v') :: set k v m'
  end.

Fixpoint delete (k : string) (m : t) : t :=
  match m with
  | [] => []
  | (k', v') :: m' =>
      if String.eqb k k' then m' else (k', v') :: delete k m'
  end.

Definition keys (m : t) : list string := map fst m.
Definition values (m : t) : list V := map snd m.
Definition size (m : t) : Z := Z.of_nat (length m).
End JsMap.
Arguments t : clear implicits.
End JsMap.

(** ** [ContentCache] (src/renderer/NodeRenderer.tsx) *)

Module ContentCache.
Section ContentCache.
Context {T : Type}.

Record Entry := { value : T; timestamp : Z }.

Record t := {
  cache : JsMap.t Entry;
  maxSize : Z;
  maxAge : Z;
}.

(** [new ContentCache(maxSize, maxAgeMs)] *)
Definition create (maxSize maxAgeMs : Z) : t :=
  {| cache := []; maxSize := maxSize; maxAge := maxAgeMs |}.

Definition with_cache (c : t) (m : JsMap.t Entry) : t :=
  {| cache := m; maxSize := maxSize c; maxAge := maxAge c |}.

(** [get(key)], [now] being the value of [Date.now()]. *)
Definition get (key : string) (now : Z) (c : t) : option T * t :=
  match JsMap.get key (cache c) with
  | None => (None, c)
  | Some entry =>
      if now - timestamp entry >? maxAge c
      then (None, with_cache c (JsMap.delete key (cache c)))
      else (Some (value entry),
            with_cache c (JsMap.set key entry (JsMap.delete key (cache c))))
  end.

(** [if (oldestKey)]: a key is truthy when it is defined and not [""]. *)
Definition truthy_key (k : option string) : bool :=
  match k with
  | None => false
  | Some "" => false
  | Some _ => true
  end.

(** [set(key, value)] *)
Definition set (key : string) (v : T) (now : Z) (c : t) : t :=
  let m :=
    if JsMap.size (cache c) >=? maxSize c then
      let oldestKey := head (JsMap.keys (cache c)) in
      if truthy_key oldestKey
      then JsMap.delete (default "" oldestKey) (cache c)
      else cache c
    else cache c in
  with_cache c (JsMap.set key {| value := v; timestamp := now |} m).

Definition has (key : string) (c : t) : bool := JsMap.has key (cache c).
Definition clear (c : t) : t := with_cache c [].
Definition size (c : t) : Z := JsMap.size (cache c).
End ContentCache.
Arguments t : clear implicits.
Arguments Entry : clear implicits.
End ContentCache.

(** ** Calls that can throw *)

(** How a call ends: normally with a value, or by throwing. *)
Inductive Completion (A : Type) : Type :=
| Normal (a : A)
| Thrown (msg : string).
Arguments Normal {A} a.
Arguments Thrown {A} msg.

(** ** Plain objects used as dictionaries *)

(** The names of the members of [Object.prototype]. *)
Definition OBJECT_PROTOTYPE : list string :=
  ["constructor"; "__defineGetter__"; "__defineSetter__"; "hasOwnProperty";
   "__lookupGetter__"; "__lookupSetter__"; "isPrototypeOf";
   "propertyIsEnumerable"; "toString"; "valueOf"; "__proto__";
   "toLocaleString"].

(** What [obj[key]] finds on a plain object: an own property, a member of
    [Object.prototype] (a function, or for [__proto__] the prototype
    itself; truthy, and without enumerable properties), or [undefined]. *)
Inductive Property (A : Type) : Type :=
| Own (a : A)
| Inherited (member : string)
| Absent.
Arguments Own {A} a.
Arguments Inherited {A} member.
Arguments Absent {A}.

Definition is_member (key : string) : bool :=
  existsb (String.eqb key) OBJECT_PROTOTYPE.

Definition property_of {A} (own : option A) (key : string) : Property A :=
  match own with
  | Some a => Own a
  | None => if is_member key then Inherited key else Absent
  end.

(** [obj[key]] *)
Definition get_property {A} (obj : gmap string A) (key : string) : Property A :=
  property_of (obj !! key) key.

(** [key in obj] *)
Definition has_property {A} (obj : gmap string A) (key : string) : bool :=
  match get_property obj key with
  | Absent => false
  | _ => true
  end.

(** [String(member)]: the source text of a native function, and
    ["[object Object]"] for the prototype itself. *)
Definition member_text (member : string) : string :=
  if String.eqb member "__proto__" then "[object Object]"
  else "function "
       +:+ (if String.eqb member "constructor" then "Object" else member)
       +:+ "() { [native code] }".

(** ** Plugin registry (src/plugins/pluginTypes.ts, pluginRegistry.ts)

    All of the registry but [clear()], whose loop runs over the live [Map]
    of plugins while the cleanup callbacks it calls can add to it and
    remove from it. *)

(** The double quote character, for error messages. *)
Definition dquote : string := String (ascii_of_nat 34) EmptyString.

Module PluginRegistry.
Section PluginRegistry.
(** [Renderer] and [Style] stand for React renderers and style objects,
    [NodeRef] for references to AST nodes, [World] for everything user
    callbacks can touch besides the registry. *)
Context {Renderer Style NodeRef World : Type} `{EqDecision NodeRef}.

(** A [setup]/[cleanup] callback is a closure, known by its reference. *)
Definition CallbackRef : Type := nat.

(** [NodeTransform = (node, parent?) => HtmlNode | null] *)
Definition NodeTransform : Type :=
  NodeRef -> option NodeRef -> World -> World * option NodeRef.

Definition StyleModifier : Type := Style -> Style.

Record HtmlPlugin := {
  name : string;
  priority : option Z;
  tagRenderers : option (gmap string Renderer);
  nodeTransforms : option (list NodeTransform);
  styleModifiers : option (gmap string StyleModifier);
  setup : option CallbackRef;
  cleanup : option CallbackRef;
}.

Record PluginRegistryState := {
  plugins : JsMap.t HtmlPlugin;
  renderers : gmap string Renderer;
  transforms : list NodeTransform;
  modifiers : gmap string StyleModifier;   (* [state.styleModifiers] *)
}.

Record TransformResult := {
  node : option NodeRef;
  transformed : bool;
}.

(** How a callback ends.  It runs while the registry is in some state and
    can change it, through the registry's own methods or through the live
    [Map] that [getState()] hands out; it changes the world, and returns
    or throws. *)
Inductive Outcome : Type :=
| Returns (st : PluginRegistryState) (w : World)
| Throws (msg : string) (st : PluginRegistryState) (w : World).

(** What calling each closure does. *)
Definition Behaviour : Type :=
  CallbackRef -> PluginRegistryState -> World -> Outcome.

Definition empty_state : PluginRegistryState :=
  {| plugins := []; renderers := ∅; transforms := []; modifiers := ∅ |}.

(** [a.priority ?? 100] *)
Definition prio (p : HtmlPlugin) : Z := default 100 (priority p).

(** [Array.prototype.sort((a, b) => prio a - prio b)]: a stable sort. *)
Fixpoint insert_by_prio (p : HtmlPlugin) (l : list HtmlPlugin) :=
  match l with
  | [] => [p]
  | q :: l' =>
      if prio p <=? prio q then p :: q :: l' else q :: insert_by_prio p l'
  end.

Fixpoint sort_by_prio (l : list HtmlPlugin) : list HtmlPlugin :=
  match l with
  | [] => []
  | p :: l' => insert_by_prio p (sort_by_prio l')
  end.

Definition sortedPlugins (st : PluginRegistryState) : list HtmlPlugin :=
  sort_by_prio (JsMap.values (plugins st)).

(** [Object.assign(target, source)]: the source's keys win. *)
Definition assign {A} (target : gmap string A) (source : option (gmap string A))
  : gmap string A :=
  match source with
  | Some src => src ∪ target
  | None => target
  end.

Definition rebuildState (st : PluginRegistryState) : PluginRegistryState :=
  let sorted := sortedPlugins st in
  {| plugins := plugins st;
     renderers := fold_left (fun acc p => assign acc (tagRenderers p)) sorted ∅;
     transforms :=
       fold_left (fun acc p =>
                    match nodeTransforms p with
                    | Some ts => acc ++ ts
                    | None => acc
                    end) sorted [];
     modifiers := fold_left (fun acc p => assign acc (styleModifiers p)) sorted ∅ |}.

Definition with_plugins (st : PluginRegistryState) (m : JsMap.t HtmlPlugin) :=
  {| plugins := m; renderers := renderers st;
     transforms := transforms st; modifiers := modifiers st |}.

Definition already_registered (n : string) : string :=
  "Plugin " +:+ dquote +:+ n +:+ dquote +:+ " is already registered".

Section Calls.
Variable behaviour : Behaviour.

(** [plugin.setup?.()] and [plugin.cleanup?.()] *)
Definition call (cb : option CallbackRef) (st : PluginRegistryState) (w : World)
  : Outcome :=
  match cb with
  | None => Returns st w
  | Some f => behaviour f st w
  end.

(** [register(plugin, { replace })]: the name is looked up before [setup]
    runs, the plugin is stored in the [Map] as [setup] left it. *)
Definition register (plugin : HtmlPlugin) (replace : bool)
    (st : PluginRegistryState) (w : World)
  : Completion unit * PluginRegistryState * World :=
  if JsMap.has (name plugin) (plugins st) && negb replace then
    (Thrown (already_registered (name plugin)), st, w)
  else
    match call (setup plugin) st w with
    | Throws msg st' w' => (Thrown msg, st', w')
    | Returns st' w' =>
        let st1 := with_plugins st' (JsMap.set (name plugin) plugin (plugins st')) in
        (Normal tt, rebuildState st1, w')
    end.

(** [unregister(name)] *)
Definition unregister (n : string) (st : PluginRegistryState) (w : World)
  : Completion bool * PluginRegistryState * World :=
  match JsMap.get n (plugins st) with
  | None => (Normal false, st, w)
  | Some plugin =>
      match call (cleanup plugin) st w with
      | Throws msg st' w' => (Thrown msg, st', w')
      | Returns st' w' =>
          let st1 := with_plugins st' (JsMap.delete n (plugins st')) in
          (Normal true, rebuildState st1, w')
      end
  end.
End Calls.

Definition get (n : string) (st : PluginRegistryState) : option HtmlPlugin :=
  JsMap.get n (plugins st).
Definition has (n : string) (st : PluginRegistryState) : bool :=
  JsMap.has n (plugins st).
Definition getNames (st : PluginRegistryState) : list string :=
  JsMap.keys (plugins st).
Definition getRenderers (st : PluginRegistryState) : gmap string Renderer :=
  renderers st.
(** [state.renderers[tagName]] *)
Definition getRenderer (tagName : string) (st : PluginRegistryState)
  : Property Renderer := get_property (renderers st) tagName.
(** [tagName in state.renderers] *)
Definition hasRenderer (tagName : string) (st : PluginRegistryState) : bool :=
  has_property (renderers st) tagName.
Definition getTransforms (st : PluginRegistryState) : list NodeTransform :=
  transforms st.

(** The loop of [applyTransforms]: [if (!current) break], call, compare
    the result with [current] by reference. *)
Fixpoint applyTransforms_loop (ts : list NodeTransform)
    (parent : option NodeRef) (current : option NodeRef) (flag : bool)
    (w : World) : World * TransformResult :=
  match ts with
  | [] => (w, {| node := current; transformed := flag |})
  | transform :: ts' =>
      match current with
      | None => (w, {| node := current; transformed := flag |})
      | Some cur =>
          let '(w', result) := transform cur parent w in
          if decide (result = Some cur)
          then applyTransforms_loop ts' parent current flag w'
          else applyTransforms_loop ts' parent result true w'
      end
  end.

Definition applyTransforms (nd : NodeRef) (parent : option NodeRef)
    (st : PluginRegistryState) (w : World) : World * TransformResult :=
  applyTransforms_loop (transforms st) parent (Some nd) false w.

Definition getStyleModifier (tagName : string) (st : PluginRegistryState)
  : Property StyleModifier := get_property (modifiers st) tagName.

(** What [applyStyleModifier] returns: a style, or whatever the call of a
    member of [Object.prototype] on the style gives (for [__proto__], not a
    function, a [TypeError]). *)
Inductive Modified : Type :=
| Styled (style : Style)
| MemberCall (member : string) (style : Style).

(** [modifier ? modifier(style) : style] *)
Definition applyStyleModifier (tagName : string) (style : Style)
    (st : PluginRegistryState) : Modified :=
  match get_property (modifiers st) tagName with
  | Own modifier => Styled (modifier style)
  | Inherited member => MemberCall member style
  | Absent => Styled style
  end.
End PluginRegistry.
Arguments HtmlPlugin : clear implicits.
Arguments PluginRegistryState : clear implicits.
Arguments NodeTransform : clear implicits.
Arguments Outcome : clear implicits.
Arguments Behaviour : clear implicits.
Arguments Modified : clear implicits.
Arguments TransformResult : clear implicits.
End PluginRegistry.

(** ** JavaScript strings

    Characters are code units in 0..255.  [\s] and [trim] agree on which
    characters are white space: TAB, LF, VT, FF, CR, SPACE and NBSP in that
    range. *)

Definition code (c : ascii) : N := N_of_ascii c.

Definition is_whitespace (c : ascii) : bool :=
  match code c with
  | 9 | 10 | 11 | 12 | 13 | 32 | 160 => true
  | _ => false
  end%N.

(** [\d] *)
Definition is_digit (c : ascii) : bool :=
  ((48 <=? code c) && (code c <=? 57))%N.

Definition lower_char (c : ascii) : ascii :=
  let n := code c in
  if (((65 <=? n) && (n <=? 90))
      || ((192 <=? n) && (n <=? 222) && negb (n =? 215)))%N
  then ascii_of_N (n + 32) else c.

Fixpoint toLowerCase (s : string) : string :=
  match s with
  | EmptyString => EmptyString
  | String c s' => String (lower_char c) (toLowerCase s')
  end.

Fixpoint trimStart (s : string) : string :=
  match s with
  | EmptyString => EmptyString
  | String c s' => if is_whitespace c then trimStart s' else s
  end.

Fixpoint trimEnd (s : string) : string :=
  match s with
  | EmptyString => EmptyString
  | String c s' =>
      match trimEnd s' with
      | EmptyString => if is_whitespace c then EmptyString else String c EmptyString
      | r => String c r
      end
  end.

Definition trim (s : string) : string := trimEnd (trimStart s).

(** [/^\s*$/.test(text)] *)
Fixpoint isWhitespaceOnly (text : string) : bool :=
  match text with
  | EmptyString => true
  | String c s' => is_whitespace c && isWhitespaceOnly s'
  end.

(** [s.split(sep)] for a one-character separator. *)
Fixpoint split (sep : ascii) (s : string) : list string :=
  match s with
  | EmptyString => [EmptyString]
  | String c s' =>
      if Ascii.eqb c sep then EmptyString :: split sep s'
      else match split sep s' with
           | piece :: rest => String c piece :: rest
           | [] => [String c EmptyString]
           end
  end.

(** [s.split(/\s+/)]: [in_run] tells that the character before was white
    space. *)
Fixpoint split_whitespace_from (in_run : bool) (s : string) : list string :=
  match s with
  | EmptyString => [EmptyString]
  | String c s' =>
      if is_whitespace c then
        if in_run then split_whitespace_from true s'
        else EmptyString :: split_whitespace_from true s'
      else match split_whitespace_from false s' with
           | piece :: rest => String c piece :: rest
           | [] => [String c EmptyString]
           end
  end.

Definition split_whitespace (s : string) : list string :=
  split_whitespace_from false s.

(** [.filter(Boolean)] on strings: the empty string is falsy. *)
Definition nonempty (s : string) : bool :=
  match s with EmptyString => false | _ => true end.

(** [text.replace(/\s+/g, ' ')] *)
Fixpoint collapse_whitespace (in_run : bool) (s : string) : string :=
  match s with
  | EmptyString => EmptyString
  | String c s' =>
      if is_whitespace c then
        if in_run then collapse_whitespace true s'
        else String " " (collapse_whitespace true s')
      else String c (collapse_whitespace false s')
  end.

(** [s.indexOf(c)], [None] for -1. *)
Fixpoint indexOf (c : ascii) (s : string) : option nat :=
  match s with
  | EmptyString => None
  | String c' s' =>
      if Ascii.eqb c' c then Some O else option_map S (indexOf c s')
  end.

(** [s.substring(0, n)] and [s.substring(n)] *)
Fixpoint str_take (n : nat) (s : string) : string :=
  match n, s with
  | S n', String c s' => String c (str_take n' s')
  | _, _ => EmptyString
  end.

Fixpoint str_drop (n : nat) (s : string) : string :=
  match n, s with
  | S n', String _ s' => str_drop n' s'
  | _, _ => s
  end.

(** [hay.includes(needle)] *)
Fixpoint includes (needle hay : string) : bool :=
  String.prefix needle hay
  || match hay with
     | EmptyString => false
     | String _ hay' => includes needle hay'
     end.

(** [pieces.join(sep)] *)
Fixpoint join (sep : string) (pieces : list string) : string :=
  match pieces with
  | [] => EmptyString
  | [p] => p
  | p :: rest => p +:+ sep +:+ join sep rest
  end.

(** ** JavaScript numbers

    The arithmetic of the language is not part of the repository: the
    style translator is modelled over any implementation of the four
    primitives it uses. *)

Class JsNumber := {
  num : Type;
  parseFloat : string -> num;
  num_mul : num -> num -> num;
  num_of_Z : Z -> num;               (* an integer literal *)
  num_1_333 : num;                   (* the literal [1.333] *)
  num_to_string : num -> string;     (* template-literal conversion *)
}.

(** ** Style values and style objects *)

Section Styles.
Context `{JsNumber}.

Inductive StyleValue : Type :=
| VNum (n : num)
| VStr (s : string)
| VMember (member : string)   (* a member of [Object.prototype] *)
| VOpaque (id : nat).         (* any other value a caller may supply *)

Definition VInt (z : Z) : StyleValue := VNum (num_of_Z z).

(** [mergeStyles(...styles)]: [Object.assign({}, ...styles.filter(Boolean))] *)
Definition mergeStyles (styles : list (option (gmap string StyleValue)))
  : gmap string StyleValue :=
  fold_left (fun acc s => s ∪ acc) (omap id styles) ∅.

(** [isEmptyStyle(style)] *)
Definition isEmptyStyle (style : option (gmap string StyleValue)) : bool :=
  match style with
  | None => true
  | Some s => bool_decide (s = ∅)
  end.
End Styles.

(** ** Style value translator (src/styles/styleParser.ts) *)

(** [CSS_TO_RN_MAP], in source order. *)
Definition CSS_TO_RN_TABLE : list (string * string) :=
    [("display", "display");
     ("flex", "flex");
     ("flex-direction", "flexDirection");
     ("flex-wrap", "flexWrap");
     ("flex-grow", "flexGrow");
     ("flex-shrink", "flexShrink");
     ("flex-basis", "flexBasis");
     ("justify-content", "justifyContent");
     ("align-items", "alignItems");
     ("align-self", "alignSelf");
     ("align-content", "alignContent");
     ("width", "width");
     ("height", "height");
     ("min-width", "minWidth");
     ("max-width", "maxWidth");
     ("min-height", "minHeight");
     ("max-height", "maxHeight");
     ("position", "position");
     ("top", "top");
     ("right", "right");
     ("bottom", "bottom");
     ("left", "left");
     ("z-index", "zIndex");
     ("margin", "margin");
     ("margin-top", "marginTop");
     ("margin-right", "marginRight");
     ("margin-bottom", "marginBottom");
     ("margin-left", "marginLeft");
     ("margin-horizontal", "marginHorizontal");
     ("margin-vertical", "marginVertical");
     ("padding", "padding");
     ("padding-top", "paddingTop");
     ("padding-right", "paddingRight");
     ("padding-bottom", "paddingBottom");
     ("padding-left", "paddingLeft");
     ("padding-horizontal", "paddingHorizontal");
     ("padding-vertical", "paddingVertical");
     ("border", "border");
     ("border-width", "borderWidth");
     ("border-top-width", "borderTopWidth");
     ("border-right-width", "borderRightWidth");
     ("border-bottom-width", "borderBottomWidth");
     ("border-left-width", "borderLeftWidth");
     ("border-color", "borderColor");
     ("border-top-color", "borderTopColor");
     ("border-right-color", "borderRightColor");
     ("border-bottom-color", "borderBottomColor");
     ("border-left-color", "borderLeftColor");
     ("border-radius", "borderRadius");
     ("border-top-left-radius", "borderTopLeftRadius");
     ("border-top-right-radius", "borderTopRightRadius");
     ("border-bottom-left-radius", "borderBottomLeftRadius");
     ("border-bottom-right-radius", "borderBottomRightRadius");
     ("border-style", "borderStyle");
     ("background-color", "backgroundColor");
     ("background", "backgroundColor");
     ("opacity", "opacity");
     ("color", "color");
     ("font-size", "fontSize");
     ("font-family", "fontFamily");
     ("font-weight", "fontWeight");
     ("font-style", "fontStyle");
     ("line-height", "lineHeight");
     ("text-align", "textAlign");
     ("text-decoration", "textDecorationLine");
     ("text-decoration-line", "textDecorationLine");
     ("text-decoration-style", "textDecorationStyle");
     ("text-decoration-color", "textDecorationColor");
     ("text-transform", "textTransform");
     ("letter-spacing", "letterSpacing");
     ("text-shadow", "textShadowColor");
     ("word-spacing", "letterSpacing");
     ("white-space", "whiteSpace");
     ("text-overflow", "textOverflow");
     ("box-shadow", "shadowColor");
     ("shadow-color", "shadowColor");
     ("shadow-offset", "shadowOffset");
     ("shadow-opacity", "shadowOpacity");
     ("shadow-radius", "shadowRadius");
     ("overflow", "overflow");
     ("aspect-ratio", "aspectRatio")].

Fixpoint table_lookup {V} (table : list (string * V)) (k : string) : option V :=
  match table with
  | [] => None
  | (k', v) :: rest => if String.eqb k k' then Some v else table_lookup rest k
  end.

(** [CSS_TO_RN_MAP[property]] *)
Definition CSS_TO_RN_MAP (property : string) : Property string :=
  property_of (table_lookup CSS_TO_RN_TABLE property) property.

Definition FONT_WEIGHT_TABLE : list (string * string) :=
  [("normal", "normal"); ("bold", "bold");
   ("100", "100"); ("200", "200"); ("300", "300"); ("400", "400");
   ("500", "500"); ("600", "600"); ("700", "700"); ("800", "800");
   ("900", "900"); ("lighter", "300"); ("bolder", "700")].

(** [FONT_WEIGHT_MAP[trimmed]] *)
Definition FONT_WEIGHT_MAP (v : string) : Property string :=
  property_of (table_lookup FONT_WEIGHT_TABLE v) v.

(** The units of [/^(-?[\d.]+)(px|em|rem|%|pt|vh|vw)?$/]. *)
Definition UNITS : list string := ["px"; "em"; "rem"; "%"; "pt"; "vh"; "vw"].

Definition is_digit_or_dot (c : ascii) : bool :=
  is_digit c || Ascii.eqb c ".".

(** The longest prefix of characters in [[\d.]], and what follows it. *)
Fixpoint span_numeric (s : string) : string * string :=
  match s with
  | EmptyString => (EmptyString, EmptyString)
  | String c s' =>
      if is_digit_or_dot c
      then let '(body, rest) := span_numeric s' in (String c body, rest)
      else (EmptyString, s)
  end.

(** [trimmed.match(/^(-?[\d.]+)(px|em|rem|%|pt|vh|vw)?$/)]: groups 1 and 2
    of the match.  No unit starts with a digit or a dot, so the greedy
    [[\d.]+] never has to give characters back: the match is the sign,
    the longest run of digits and dots (not empty), then a unit or
    nothing, then the end of the string. *)
Definition numericMatch (trimmed : string) : option (string * option string) :=
  let '(sign, rest) :=
    match trimmed with
    | String c r => if Ascii.eqb c "-" then ("-", r) else (EmptyString, trimmed)
    | EmptyString => (EmptyString, trimmed)
    end in
  let '(body, unit) := span_numeric rest in
  match body with
  | EmptyString => None
  | _ =>
      match unit with
      | EmptyString => Some (sign +:+ body, None)
      | _ => if existsb (String.eqb unit) UNITS
             then Some (sign +:+ body, Some unit) else None
      end
  end.

(** [property === name] for the value a lookup of [CSS_TO_RN_MAP] gave. *)
Definition is_name (property : Property string) (name : string) : bool :=
  match property with
  | Own s => String.eqb s name
  | _ => false
  end.

(** [isColorProperty(property)]: [property.toLowerCase()] is a method of
    strings only. *)
Definition isColorProperty (property : Property string) : Completion bool :=
  match property with
  | Own name =>
      Normal (existsb (fun p => includes (toLowerCase p) (toLowerCase name))
                ["color"; "backgroundColor"; "borderColor"; "shadowColor"])
  | Inherited _ => Thrown "property.toLowerCase is not a function"
  | Absent => Thrown "Cannot read properties of undefined (reading 'toLowerCase')"
  end.

(** [parseColor(value)]: both branches return the value. *)
Definition parseColor (value : string) : string :=
  if String.prefix "#" value || String.prefix "rgb" value || String.prefix "hsl" value
  then value else value.

(** The loop of [mapTextDecoration]: [None] when a ['none'] made the
    function return at once. *)
Fixpoint mapTextDecoration_loop (decorations : list string) (mapped : list string)
  : option (list string) :=
  match decorations with
  | [] => Some mapped
  | dec :: rest =>
      if String.eqb dec "underline" then mapTextDecoration_loop rest (mapped ++ ["underline"])
      else if String.eqb dec "line-through" then mapTextDecoration_loop rest (mapped ++ ["line-through"])
      else if String.eqb dec "overline" then mapTextDecoration_loop rest mapped
      else if String.eqb dec "none" then None
      else mapTextDecoration_loop rest mapped
  end.

Definition mapTextDecoration (value : string) : string :=
  match mapTextDecoration_loop (split " " value) [] with
  | None => "none"
  | Some mapped =>
      match join " " mapped with
      | EmptyString => "none"
      | joined => joined
      end
  end.

Section StyleParser.
Context `{JsNumber}.

(** [parseValue(value, property)]; [None] is [undefined]. *)
Definition parseValue (value : string) (property : Property string)
  : Completion (option StyleValue) :=
  let trimmed := trim value in
  if existsb (String.eqb trimmed) ["inherit"; "initial"; "unset"] then Normal None
  else if is_name property "fontWeight" || is_name property "font-weight" then
    (* [FONT_WEIGHT_MAP[trimmed] || trimmed] *)
    Normal (Some (match FONT_WEIGHT_MAP trimmed with
                  | Own weight => VStr weight
                  | Inherited member => VMember member
                  | Absent => VStr trimmed
                  end))
  else
    match numericMatch trimmed with
    | Some (text, unit) =>
        let n := parseFloat text in
        Normal (Some (match unit with
                      | Some "px" => VNum n
                      | Some "em" | Some "rem" => VNum (num_mul n (num_of_Z 16))
                      | Some "pt" => VNum (num_mul n num_1_333)
                      | Some "%" => VStr (num_to_string n +:+ "%")
                      | Some "vh" | Some "vw" => VStr (num_to_string n +:+ "%")
                      | _ => VNum n
                      end))
    | None =>
        match isColorProperty property with
        | Thrown msg => Thrown msg
        | Normal true => Normal (Some (VStr (parseColor trimmed)))
        | Normal false =>
            if is_name property "textDecorationLine"
               || is_name property "text-decoration"
            then Normal (Some (VStr (mapTextDecoration trimmed)))
            else Normal (Some (VStr trimmed))
        end
    end.

(** The key of [style[rnProperty] = parsedValue]: a property key that is
    not a string is converted to one. *)
Definition property_key (rnProperty : Property string) : string :=
  match rnProperty with
  | Own name => name
  | Inherited member => member_text member
  | Absent => "undefined"
  end.

(** One turn of the loop over the declarations of [parseInlineStyle]; no
    name of [CSS_TO_RN_MAP] is empty, so [!rnProperty] holds of [undefined]
    only. *)
Definition parseDeclaration (style : gmap string StyleValue) (declaration : string)
  : Completion (gmap string StyleValue) :=
  match indexOf ":" declaration with
  | None => Normal style
  | Some colonIndex =>
      let property := toLowerCase (trim (str_take colonIndex declaration)) in
      let value := trim (str_drop (S colonIndex) declaration) in
      if negb (nonempty property) || negb (nonempty value) then Normal style
      else
        match CSS_TO_RN_MAP property with
        | Absent => Normal style
        | rnProperty =>
            match parseValue value rnProperty with
            | Thrown msg => Thrown msg
            | Normal (Some parsedValue) =>
                Normal (<[property_key rnProperty := parsedValue]> style)
            | Normal None => Normal style
            end
        end
  end.

(** The loop over the declarations: a throw ends it. *)
Fixpoint parseDeclarations (declarations : list string)
    (style : gmap string StyleValue) : Completion (gmap string StyleValue) :=
  match declarations with
  | [] => Normal style
  | declaration :: rest =>
      match parseDeclaration style declaration with
      | Thrown msg => Thrown msg
      | Normal style' => parseDeclarations rest style'
      end
  end.

(** [parseInlineStyle(cssString)] *)
Definition parseInlineStyle (cssString : option string)
  : Completion (gmap string StyleValue) :=
  match cssString with
  | None => Normal ∅
  | Some css =>
      if negb (nonempty css) || String.eqb (trim css) "" then Normal ∅
      else
        let declarations := filter (fun d => nonempty d = true) (split ";" css) in
        parseDeclarations declarations ∅
  end.
End StyleParser.

(** *** A model of the number primitives: exact decimal arithmetic

    Used to evaluate examples.  It agrees with IEEE doubles wherever the
    doubles are exact (integers of moderate size and their products). *)

Inductive ExactNum : Type :=
| ENaN
| EVal (q : Q).

Fixpoint take_digits (s : string) (acc : Z) (count : nat) : Z * nat * string :=
  match s with
  | EmptyString => (acc, count, EmptyString)
  | String c s' =>
      if is_digit c
      then take_digits s' (10 * acc + Z.of_N (code c - 48)) (S count)
      else (acc, count, s)
  end.

(** [parseFloat] on an optional sign, digits and an optional fraction. *)
Definition exact_parseFloat (s : string) : ExactNum :=
  let s0 := trimStart s in
  let '(negative, s1) :=
    match s0 with
    | String "-" r => (true, r)
    | String "+" r => (false, r)
    | _ => (false, s0)
    end in
  let '(ip, n1, r1) := take_digits s1 0 0 in
  let '(fp, n2) :=
    match r1 with
    | String "." r2 => let '(f, n, _) := take_digits r2 0 0 in (f, n)
    | _ => (0, 0%nat)
    end in
  if (n1 + n2 =? 0)%nat then ENaN
  else
    let scale := 10 ^ Z.of_nat n2 in
    let m := ip * scale + fp in
    EVal (Qred (Qmake (if negative then - m else m) (Z.to_pos scale))).

Definition exact_mul (a b : ExactNum) : ExactNum :=
  match a, b with
  | EVal x, EVal y => EVal (Qred (Qmult x y))
  | _, _ => ENaN
  end.

Definition digit_char (d : Z) : ascii := ascii_of_N (48 + Z.to_N d).

Fixpoint Z_digits (fuel : nat) (z : Z) (acc : string) : string :=
  match fuel with
  | O => acc
  | S fuel' =>
      let acc' := String (digit_char (z mod 10)) acc in
      if z / 10 =? 0 then acc' else Z_digits fuel' (z / 10) acc'
  end.

Definition nat_to_string (n : nat) : string :=
  Z_digits (S n) (Z.of_nat n) EmptyString.

Fixpoint fraction_digits (fuel : nat) (r den : Z) : string :=
  match fuel with
  | O => EmptyString
  | S fuel' =>
      if r =? 0 then EmptyString
      else String (digit_char (r * 10 / den))
                  (fraction_digits fuel' (r * 10 mod den) den)
  end.

Definition exact_to_string (a : ExactNum) : string :=
  match a with
  | ENaN => "NaN"
  | EVal q =>
      let n := Z.abs (Qnum q) in
      let d := Zpos (Qden q) in
      let sign := if Qnum q <? 0 then "-" else EmptyString in
      let whole := Z_digits (S (Z.to_nat n)) (n / d) EmptyString in
      match fraction_digits 20 (n mod d) d with
      | EmptyString => sign +:+ whole
      | frac => sign +:+ whole +:+ "." +:+ frac
      end
  end.

Definition exact_numbers : JsNumber :=
  {| num := ExactNum;
     parseFloat := exact_parseFloat;
     num_mul := exact_mul;
     num_of_Z := fun z => EVal (inject_Z z);
     num_1_333 := EVal (Qmake 1333 1000);
     num_to_string := exact_to_string |}.

(** ** AST node types (parser/types) *)

(** An object reference. *)
Definition Ref : Type := nat.

Record TextNode := {
  text_ref : Ref;
  text_key : string;
  content : string;
  text_parent : option Ref;
}.

Record CommentNode := {
  comment_ref : Ref;
  comment_key : string;
  comment_content : string;
  comment_parent : option Ref;
}.

Section Ast.
Context `{JsNumber}.

(** The fields of an [ElementNode]; [Node] is the type of its children. *)
Record ElementNodeOf (Node : Type) := {
  ref : Ref;
  key : string;
  tagName : string;
  attributes : gmap string string;
  children : list Node;
  parent : option Ref;
  classNames : option (list string);
  parsedStyles : option (gmap string StyleValue);
}.

#[warnings="-register-all"]
Inductive HtmlNode : Type :=
| NodeElement (e : ElementNodeOf HtmlNode)
| NodeText (t : TextNode)
| NodeComment (c : CommentNode).

Definition ElementNode : Type := ElementNodeOf HtmlNode.

Definition node_ref (n : HtmlNode) : Ref :=
  match n with
  | NodeElement e => ref _ e
  | NodeText t => text_ref t
  | NodeComment c => comment_ref c
  end.

Definition node_parent (n : HtmlNode) : option Ref :=
  match n with
  | NodeElement e => parent _ e
  | NodeText t => text_parent t
  | NodeComment c => comment_parent c
  end.

Definition isElementNode (n : HtmlNode) : bool :=
  match n with NodeElement _ => true | _ => false end.
Definition isTextNode (n : HtmlNode) : bool :=
  match n with NodeText _ => true | _ => false end.
Definition isCommentNode (n : HtmlNode) : bool :=
  match n with NodeComment _ => true | _ => false end.
End Ast.
Arguments ref {_ _} e.
Arguments key {_ _} e.
Arguments tagName {_ _} e.
Arguments attributes {_ _} e.
Arguments children {_ _} e.
Arguments parent {_ _} e.
Arguments classNames {_ _} e.
Arguments parsedStyles {_ _} e.

(** ** Default styles (src/styles/defaultStyles.ts) *)

Section DefaultStyles.
Context `{JsNumber}.

(** [defaultTagStyles], in source order. *)
Definition defaultTagStyles : list (string * list (string * StyleValue)) :=
    [("div", [("flexDirection", VStr "column")]);
     ("p", [("marginVertical", VInt 12)]);
     ("blockquote", [("marginVertical", VInt 16); ("marginHorizontal", VInt 0); ("paddingLeft", VInt 16); ("borderLeftWidth", VInt 4); ("borderLeftColor", VStr "#e0e0e0"); ("fontStyle", VStr "italic"); ("color", VStr "#666666")]);
     ("article", [("flexDirection", VStr "column")]);
     ("section", [("flexDirection", VStr "column")]);
     ("header", [("flexDirection", VStr "column")]);
     ("footer", [("flexDirection", VStr "column")]);
     ("main", [("flexDirection", VStr "column")]);
     ("aside", [("flexDirection", VStr "column")]);
     ("nav", [("flexDirection", VStr "column")]);
     ("h1", [("fontSize", VInt 32); ("fontWeight", VStr "bold"); ("marginTop", VInt 24); ("marginBottom", VInt 16); ("lineHeight", VInt 40)]);
     ("h2", [("fontSize", VInt 28); ("fontWeight", VStr "bold"); ("marginTop", VInt 20); ("marginBottom", VInt 14); ("lineHeight", VInt 36)]);
     ("h3", [("fontSize", VInt 24); ("fontWeight", VStr "bold"); ("marginTop", VInt 18); ("marginBottom", VInt 12); ("lineHeight", VInt 32)]);
     ("h4", [("fontSize", VInt 20); ("fontWeight", VStr "bold"); ("marginTop", VInt 16); ("marginBottom", VInt 10); ("lineHeight", VInt 28)]);
     ("h5", [("fontSize", VInt 18); ("fontWeight", VStr "bold"); ("marginTop", VInt 14); ("marginBottom", VInt 8); ("lineHeight", VInt 26)]);
     ("h6", [("fontSize", VInt 16); ("fontWeight", VStr "bold"); ("marginTop", VInt 12); ("marginBottom", VInt 8); ("lineHeight", VInt 24)]);
     ("span", []);
     ("strong", [("fontWeight", VStr "bold")]);
     ("b", [("fontWeight", VStr "bold")]);
     ("em", [("fontStyle", VStr "italic")]);
     ("i", [("fontStyle", VStr "italic")]);
     ("u", [("textDecorationLine", VStr "underline")]);
     ("s", [("textDecorationLine", VStr "line-through")]);
     ("strike", [("textDecorationLine", VStr "line-through")]);
     ("del", [("textDecorationLine", VStr "line-through"); ("color", VStr "#888888")]);
     ("ins", [("textDecorationLine", VStr "underline"); ("color", VStr "#2e7d32")]);
     ("mark", [("backgroundColor", VStr "#ffeb3b"); ("color", VStr "#1a1a1a")]);
     ("small", [("fontSize", VInt 12)]);
     ("sub", [("fontSize", VInt 12)]);
     ("sup", [("fontSize", VInt 12)]);
     ("ul", [("marginVertical", VInt 12); ("paddingLeft", VInt 20)]);
     ("ol", [("marginVertical", VInt 12); ("paddingLeft", VInt 20)]);
     ("li", [("marginVertical", VInt 4); ("flexDirection", VStr "row")]);
     ("a", [("color", VStr "#1976d2"); ("textDecorationLine", VStr "underline")]);
     ("img", []);
     ("hr", [("height", VInt 1); ("backgroundColor", VStr "#e0e0e0"); ("marginVertical", VInt 16); ("borderWidth", VInt 0)]);
     ("table", [("borderWidth", VInt 1); ("borderColor", VStr "#e0e0e0"); ("marginVertical", VInt 12)]);
     ("thead", [("backgroundColor", VStr "#f5f5f5")]);
     ("tbody", []);
     ("tfoot", [("backgroundColor", VStr "#f5f5f5")]);
     ("tr", [("flexDirection", VStr "row"); ("borderBottomWidth", VInt 1); ("borderBottomColor", VStr "#e0e0e0")]);
     ("th", [("flex", VInt 1); ("padding", VInt 8); ("fontWeight", VStr "bold"); ("borderRightWidth", VInt 1); ("borderRightColor", VStr "#e0e0e0"); ("textAlign", VStr "center")]);
     ("td", [("flex", VInt 1); ("padding", VInt 8); ("borderRightWidth", VInt 1); ("borderRightColor", VStr "#e0e0e0")]);
     ("caption", [("textAlign", VStr "center"); ("fontStyle", VStr "italic"); ("marginBottom", VInt 8)]);
     ("pre", [("backgroundColor", VStr "#f5f5f5"); ("padding", VInt 12); ("borderRadius", VInt 4); ("marginVertical", VInt 12); ("overflow", VStr "hidden")]);
     ("code", [("fontFamily", VStr "monospace"); ("fontSize", VInt 14); ("backgroundColor", VStr "#f5f5f5"); ("paddingHorizontal", VInt 4); ("paddingVertical", VInt 2); ("borderRadius", VInt 2)]);
     ("figure", [("alignItems", VStr "center"); ("marginVertical", VInt 16)]);
     ("figcaption", [("fontSize", VInt 14); ("fontStyle", VStr "italic"); ("color", VStr "#666666"); ("marginTop", VInt 8); ("textAlign", VStr "center")]);
     ("details", [("marginVertical", VInt 8)]);
     ("summary", [("fontWeight", VStr "bold")]);
     ("br", [("height", VInt 0)])].

(** [getDefaultTagStyle(tagName)]: [defaultTagStyles[tagName] || {}].  As
    a style object, a member of [Object.prototype] has no property. *)
Definition getDefaultTagStyle (tagName : string) : gmap string StyleValue :=
  match property_of (table_lookup defaultTagStyles tagName) tagName with
  | Own props => list_to_map props
  | Inherited _ => ∅
  | Absent => ∅
  end.
End DefaultStyles.

Definition TEXT_ONLY_TAGS : list string :=
  ["span"; "strong"; "b"; "em"; "i"; "u"; "s"; "strike"; "del"; "ins"; "mark";
   "small"; "sub"; "sup"; "code"; "a"].

Definition isTextOnlyTag (tagName : string) : bool :=
  existsb (String.eqb tagName) TEXT_ONLY_TAGS.

(** ** Style resolver (src/styles/styleResolver.ts) *)

Section StyleResolver.
Context `{JsNumber}.

Record StyleResolverConfig := {
  tagsStyles : option (gmap string (gmap string StyleValue));
  classesStyles : option (gmap string (gmap string StyleValue));
  baseTextStyle : option (gmap string StyleValue);
  useDefaultStyles : option bool;
  styleTransformer :
    option (gmap string StyleValue -> ElementNode -> gmap string StyleValue);
}.

Record ResolvedStyle := {
  style : gmap string StyleValue;
  isTextElement : bool;
  hasCustomStyles : bool;
}.

(** [Object.keys(style).length > 0] *)
Definition has_keys (s : gmap string StyleValue) : bool := (0 <? size s)%nat.

(** [createStyleResolver(config)] returns [resolveStyle].  In [styles], a
    member of [Object.prototype] that a lookup found is a style object
    without properties. *)
Definition resolveStyle (config : StyleResolverConfig) (node : ElementNode)
  : Completion ResolvedStyle :=
  let tagsStyles := default ∅ (tagsStyles config) in
  let classesStyles := default ∅ (classesStyles config) in
  let baseTextStyle := default ∅ (baseTextStyle config) in
  let useDefaultStyles := default true (useDefaultStyles config) in
  let isText := isTextOnlyTag (tagName node) in
  (* 1. base text style *)
  let styles1 :=
    if isText && has_keys baseTextStyle then [baseTextStyle] else [] in
  (* 2. default tag styles *)
  let styles2 :=
    if useDefaultStyles then
      let defaultStyle := getDefaultTagStyle (tagName node) in
      if has_keys defaultStyle then styles1 ++ [defaultStyle] else styles1
    else styles1 in
  (* 3. user-defined tag styles *)
  let '(styles3, custom3) :=
    match get_property tagsStyles (tagName node) with
    | Own tagStyle => (styles2 ++ [tagStyle], true)
    | Inherited _ => (styles2 ++ [∅], true)
    | Absent => (styles2, false)
    end in
  (* 4. class-based styles *)
  let '(styles4, custom4) :=
    fold_left
      (fun '(styles, custom) className =>
         match get_property classesStyles className with
         | Own classStyle => (styles ++ [classStyle], true)
         | Inherited _ => (styles ++ [∅], true)
         | Absent => (styles, custom)
         end)
      (default [] (classNames node)) (styles3, custom3) in
  (* 5. inline styles *)
  let inline :=
    match attributes node !! "style" with
    | Some css =>
        if nonempty css then
          match parseInlineStyle (Some css) with
          | Thrown msg => Thrown msg
          | Normal inlineStyle =>
              if has_keys inlineStyle
              then Normal (styles4 ++ [inlineStyle], true)
              else Normal (styles4, custom4)
          end
        else Normal (styles4, custom4)
    | None => Normal (styles4, custom4)
    end in
  match inline with
  | Thrown msg => Thrown msg
  | Normal (styles5, custom5) =>
      (* 6. merge, 7. transformer *)
      let finalStyle := mergeStyles (map Some styles5) in
      Normal {| style := match styleTransformer config with
                         | Some f => f finalStyle node
                         | None => finalStyle
                         end;
                isTextElement := isText;
                hasCustomStyles := custom5 |}
  end.

(** [array.map(f)] for an [f] that allocates and can throw: the allocator
    (the next free reference) is threaded from left to right, and a throw
    ends the loop. *)
Fixpoint map_alloc {A B} (f : A -> Ref -> Completion B * Ref) (l : list A)
    (next : Ref) : Completion (list B) * Ref :=
  match l with
  | [] => (Normal [], next)
  | x :: l' =>
      match f x next with
      | (Thrown msg, next1) => (Thrown msg, next1)
      | (Normal y, next1) =>
          match map_alloc f l' next1 with
          | (Thrown msg, next2) => (Thrown msg, next2)
          | (Normal ys, next2) => (Normal (y :: ys), next2)
          end
      end
  end.

(** [processNode] of [resolveTreeStyles].  The object literal
    [{...node, parsedStyles, children}] is a new object: it gets a fresh
    reference, and every other field, [parent] included, is copied. *)
Fixpoint processNode (config : StyleResolverConfig) (node : HtmlNode) (next : Ref)
  : Completion HtmlNode * Ref :=
  match node with
  | NodeElement e =>
      match resolveStyle config e with
      | Thrown msg => (Thrown msg, next)
      | Normal resolved =>
          match map_alloc (processNode config) (children e) next with
          | (Thrown msg, next1) => (Thrown msg, next1)
          | (Normal processedChildren, next1) =>
              (Normal (NodeElement {| ref := next1;
                                      key := key e;
                                      tagName := tagName e;
                                      attributes := attributes e;
                                      children := processedChildren;
                                      parent := parent e;
                                      classNames := classNames e;
                                      parsedStyles := Some (style resolved) |}),
               S next1)
          end
      end
  | _ => (Normal node, next)
  end.

Definition resolveTreeStyles (nodes : list HtmlNode) (config : StyleResolverConfig)
    (next : Ref) : Completion (list HtmlNode) * Ref :=
  map_alloc (processNode config) nodes next.
End StyleResolver.

Definition default_config `{JsNumber} : StyleResolverConfig :=
  {| tagsStyles := None; classesStyles := None; baseTextStyle := None;
     useDefaultStyles := None; styleTransformer := None |}.

(** ** Markup parser (src/parser/parser.ts) *)

(** The DOM that htmlparser2's [DomHandler] hands to its callback. *)
Inductive ElementType : Type := TagType | ScriptType | StyleType.

#[warnings="-register-all"]
Inductive DomNode : Type :=
| DomText (data : string)
| DomElement (type : ElementType) (name : string)
    (attribs : list (string * string)) (children : list DomNode)
| DomComment (data : string)
| DomOther (children : list DomNode).   (* directive, cdata, document *)

(** What is thrown: an [Error] with its message, or any other value. *)
Inductive Exception : Type :=
| ErrorObject (message : string)
| OtherValue.

(** One invocation of the handler's callback [(error, dom) => ...]. *)
Inductive CallbackCall : Type :=
| WithError (message : string)
| WithDom (dom : list DomNode).

(** A run of [new Parser(handler, options); parser.write(html);
    parser.end()]: the callback invocations it makes, in order, and the
    exception it ends with, if any. *)
Record ParserRun := {
  calls : list CallbackCall;
  thrown : option Exception;
}.

Record ParseError := { message : string }.

(** [ParserOptions] with every field optional. *)
Record ParserOptions := {
  decodeEntities : option bool;
  normalizeWhitespace : option bool;
  selfClosingTags : option (list string);
  rawTextTags : option (list string);
}.

Definition no_options : ParserOptions :=
  {| decodeEntities := None; normalizeWhitespace := None;
     selfClosingTags := None; rawTextTags := None |}.

Definition DEFAULT_OPTIONS : ParserOptions :=
  {| decodeEntities := Some true;
     normalizeWhitespace := Some true;
     selfClosingTags := Some ["img"; "br"; "hr"; "input"; "meta"; "link"];
     rawTextTags := Some ["script"; "style"] |}.

(** [{ ...DEFAULT_OPTIONS, ...options }] *)
Definition merge_options (defaults options : ParserOptions) : ParserOptions :=
  {| decodeEntities := from_option Some (decodeEntities defaults) (decodeEntities options);
     normalizeWhitespace :=
       from_option Some (normalizeWhitespace defaults) (normalizeWhitespace options);
     selfClosingTags :=
       from_option Some (selfClosingTags defaults) (selfClosingTags options);
     rawTextTags := from_option Some (rawTextTags defaults) (rawTextTags options) |}.

(** An option used as a condition: [undefined] is falsy. *)
Definition enabled (flag : option bool) : bool := default false flag.

(** The module state: the key counter, and the allocator of objects. *)
Record ParserState := {
  keyCounter : nat;
  nextRef : Ref;
}.

(** [generateKey()]: [`html-node-${++keyCounter}`] *)
Definition generateKey (st : ParserState) : string * ParserState :=
  ("html-node-" +:+ nat_to_string (S (keyCounter st)),
   {| keyCounter := S (keyCounter st); nextRef := nextRef st |}).

Definition resetKeyCounter (st : ParserState) : ParserState :=
  {| keyCounter := 0; nextRef := nextRef st |}.

(** Allocation of a new object. *)
Definition alloc (st : ParserState) : Ref * ParserState :=
  (nextRef st, {| keyCounter := keyCounter st; nextRef := S (nextRef st) |}).

(** [normalizeText(text, preserveWhitespace = false)] *)
Definition normalizeText (text : string) (preserveWhitespace : bool) : string :=
  if preserveWhitespace then text else collapse_whitespace false text.

(** [parseAttributes(attrs)] *)
Definition parseAttributes (attrs : list (string * string)) : gmap string string :=
  fold_left (fun result '(k, value) => <[toLowerCase k := value]> result) attrs ∅.

Section Parser.
Context `{JsNumber}.

(** The loop over [node.children] of [convertNode]: every child is
    converted in turn and pushed when the result is not null. *)
Fixpoint convert_each (convert : DomNode -> ParserState -> option HtmlNode * ParserState)
    (nodes : list DomNode) (st : ParserState) : list HtmlNode * ParserState :=
  match nodes with
  | [] => ([], st)
  | child :: rest =>
      let '(convertedChild, st1) := convert child st in
      let '(others, st2) := convert_each convert rest st1 in
      (match convertedChild with
       | Some c => c :: others
       | None => others
       end, st2)
  end.

(** [convertNode(node, parent, options)] *)
Fixpoint convertNode (node : DomNode) (parent : option Ref) (options : ParserOptions)
    (st : ParserState) : option HtmlNode * ParserState :=
  match node with
  | DomText data =>
      let content :=
        if enabled (normalizeWhitespace options) then normalizeText data false
        else data in
      if isWhitespaceOnly content && enabled (normalizeWhitespace options)
      then (None, st)
      else
        let '(k, st1) := generateKey st in
        let '(r, st2) := alloc st1 in
        (Some (NodeText {| text_ref := r; text_key := k; content := content;
                           text_parent := parent |}), st2)
  | DomElement _ name attribs dom_children =>
      let tagName := toLowerCase name in
      if String.eqb tagName "script" || String.eqb tagName "style"
      then (None, st)
      else
        let '(k, st1) := generateKey st in
        let '(r, st2) := alloc st1 in
        let attributes := parseAttributes attribs in
        let classNames :=
          match attributes !! "class" with
          | Some cls =>
              if nonempty cls
              then Some (filter (fun s => nonempty s = true) (split_whitespace cls))
              else None
          | None => None
          end in
        let '(converted, st3) :=
          convert_each (fun child => convertNode child (Some r) options)
                       dom_children st2 in
        (Some (NodeElement {| ref := r; key := k; tagName := tagName;
                              attributes := attributes; children := converted;
                              parent := parent; classNames := classNames;
                              parsedStyles := None |}), st3)
  | DomComment _ => (None, st)
  | DomOther _ => (None, st)
  end.

Definition with_content (t : TextNode) (c : string) : TextNode :=
  {| text_ref := text_ref t; text_key := text_key t; content := c;
     text_parent := text_parent t |}.

Definition with_children (e : ElementNode) (cs : list HtmlNode) : ElementNode :=
  {| ref := ref e; key := key e; tagName := tagName e;
     attributes := attributes e; children := cs; parent := parent e;
     classNames := classNames e; parsedStyles := parsedStyles e |}.

(** One turn of the loop of [postProcess]; [recur] is [postProcess]
    applied to the children of an element. *)
Definition postProcess_step (recur : HtmlNode -> HtmlNode)
    (result : list HtmlNode) (node : HtmlNode) : list HtmlNode :=
  match node, last result with
  | NodeText t, Some (NodeText prev) =>
      removelast result
        ++ [NodeText (with_content prev (content prev +:+ content t))]
  | _, _ => result ++ [recur node]
  end.

(** The trimming of the first and of the last node after the loop. *)
Definition trim_first (result : list HtmlNode) : list HtmlNode :=
  match result with
  | NodeText first :: rest =>
      let trimmed := trimStart (content first) in
      if nonempty trimmed then NodeText (with_content first trimmed) :: rest
      else rest
  | _ => result
  end.

Definition trim_last (result : list HtmlNode) : list HtmlNode :=
  match last result with
  | Some (NodeText final) =>
      let trimmed := trimEnd (content final) in
      if nonempty trimmed
      then removelast result ++ [NodeText (with_content final trimmed)]
      else removelast result
  | _ => result
  end.

Definition postProcess_with (recur : HtmlNode -> HtmlNode) (nodes : list HtmlNode)
  : list HtmlNode :=
  trim_last (trim_first (fold_left (postProcess_step recur) nodes [])).

(** [node.children = postProcess(node.children)] for an element; any
    other node is left as it is. *)
Fixpoint postProcess_children (node : HtmlNode) : HtmlNode :=
  match node with
  | NodeElement e =>
      NodeElement (with_children e (postProcess_with postProcess_children (children e)))
  | _ => node
  end.

(** [postProcess(nodes)] *)
Definition postProcess (nodes : list HtmlNode) : list HtmlNode :=
  postProcess_with postProcess_children nodes.

Record ParseResult := {
  nodes : list HtmlNode;
  errors : list ParseError;
}.

(** The handler's callback, on the variables [nodes] and [errors]. *)
Definition handler_callback (options : ParserOptions)
    (acc : list HtmlNode * list ParseError * ParserState) (call : CallbackCall)
  : list HtmlNode * list ParseError * ParserState :=
  let '(nodes, errors, st) := acc in
  match call with
  | WithError msg => (nodes, errors ++ [{| message := msg |}], st)
  | WithDom dom =>
      let '(converted, st') :=
        convert_each (fun node => convertNode node None options) dom st in
      (nodes ++ converted, errors, st')
  end.

(** The tokenizer is not part of the repository: [htmlparser2 html
    decodeEntities] is the run it makes on a markup string. *)
Variable htmlparser2 : string -> option bool -> ParserRun.

(** [parseHtml(html, options)] *)
Definition parseHtml (html : string) (options : ParserOptions) (st : ParserState)
  : Completion ParseResult * ParserState :=
  let mergedOptions := merge_options DEFAULT_OPTIONS options in
  (* try *)
  let run := htmlparser2 html (decodeEntities mergedOptions) in
  let '(nodes, errors, st') :=
    fold_left (handler_callback mergedOptions) (calls run) ([], [], st) in
  match thrown run with
  | None =>
      let nodes :=
        if enabled (normalizeWhitespace mergedOptions) then postProcess nodes
        else nodes in
      (Normal {| nodes := nodes; errors := errors |}, st')
  | Some error =>
      (* catch *)
      let msg := match error with
                 | ErrorObject m => m
                 | OtherValue => "Unknown parsing error"
                 end in
      (Normal {| nodes := nodes; errors := errors ++ [{| message := msg |}] |}, st')
  end.

(** [parseHtmlStrict(html)] *)
Definition parseHtmlStrict (html : string) (st : ParserState)
  : Completion (list HtmlNode) * ParserState :=
  match parseHtml html no_options st with
  | (Normal result, st') =>
      if (0 <? length (errors result))%nat
      then (Thrown ("HTML parsing failed: "
                    +:+ join ", " (map message (errors result))), st')
      else (Normal (nodes result), st')
  | (Thrown msg, st') => (Thrown msg, st')
  end.

(** [getTextContent(node)] *)
Fixpoint getTextContent (node : HtmlNode) : string :=
  match node with
  | NodeText t => content t
  | NodeElement e => join "" (map getTextContent (children e))
  | NodeComment _ => ""
  end.
End Parser.

(** *** Walking and searching the tree (src/parser/parser.ts) *)

Section ParserQueries.
Context `{JsNumber}.

(** A visitor of [walkAst]: it sees the node and its parent, works on the
    variables it closes over ([S]), and the flag tells that it returned
    [false]. *)
Definition Visitor (S : Type) : Type :=
  HtmlNode -> option ElementNode -> S -> S * bool.

(** One turn of the loop of [walk]: the visitor is called, and the
    children of an element are walked unless it returned [false]. *)
Fixpoint walk_node {S} (visitor : Visitor S) (parent : option ElementNode)
    (node : HtmlNode) (s : S) : S :=
  let '(s1, skip) := visitor node parent s in
  if skip then s1
  else match node with
       | NodeElement e =>
           fold_left (fun acc child => walk_node visitor (Some e) child acc)
                     (children e) s1
       | _ => s1
       end.

(** [walk(nodeList, parent)] *)
Definition walk {S} (visitor : Visitor S) (nodeList : list HtmlNode)
    (parent : option ElementNode) (s : S) : S :=
  fold_left (fun acc node => walk_node visitor parent node acc) nodeList s.

(** [walkAst(nodes, visitor)] *)
Definition walkAst {S} (nodes : list HtmlNode) (visitor : Visitor S) (s : S) : S :=
  walk visitor nodes None s.

(** [findNodes(nodes, predicate)] *)
Definition findNodes (nodes : list HtmlNode) (predicate : HtmlNode -> bool)
  : list HtmlNode :=
  walkAst nodes
    (fun node _ result =>
       (if predicate node then result ++ [node] else result, false)) [].

(** [findByTag(nodes, tagName)] *)
Definition findByTag (nodes : list HtmlNode) (tag : string) : list HtmlNode :=
  let lowerTag := toLowerCase tag in
  findNodes nodes
    (fun node => match node with
                 | NodeElement e => String.eqb (tagName e) lowerTag
                 | _ => false
                 end).

(** [findById(nodes, id)] *)
Definition findById (nodes : list HtmlNode) (id : string) : option ElementNode :=
  walkAst nodes
    (fun node _ result =>
       match node with
       | NodeElement e =>
           if bool_decide (attributes e !! "id" = Some id) then (Some e, true)
           else (result, false)
       | _ => (result, false)
       end)
    None.

(** [countNodes(nodes)] *)
Definition countNodes (nodes : list HtmlNode) : nat :=
  walkAst nodes (fun _ _ count => (S count, false)) 0%nat.
End ParserQueries.

(** *** Helpers of the style resolver (src/styles/styleResolver.ts) *)

Section ResolverHelpers.
Context `{JsNumber}.

(** [traverse] of [extractClassNames], on the set it fills. *)
Fixpoint traverse (node : HtmlNode) (classNames_seen : gset string) : gset string :=
  match node with
  | NodeElement e =>
      let seen :=
        match classNames e with
        | Some names => fold_left (fun acc cn => acc ∪ {[cn]}) names classNames_seen
        | None => classNames_seen
        end in
      fold_left (fun acc child => traverse child acc) (children e) seen
  | _ => classNames_seen
  end.

(** [extractClassNames(nodes)] *)
Definition extractClassNames (nodes : list HtmlNode) : gset string :=
  fold_left (fun acc node => traverse node acc) nodes ∅.

(** [scaleTextStyles(style, scale)] *)
Definition scaleTextStyles (style : gmap string StyleValue) (scale : num)
  : gmap string StyleValue :=
  fold_left
    (fun scaled prop =>
       match scaled !! prop with
       | Some (VNum n) => <[prop := VNum (num_mul n scale)]> scaled
       | _ => scaled
       end)
    ["fontSize"; "lineHeight"; "letterSpacing"] style.
End ResolverHelpers.

(** ** Chunks for the virtualized list (src/performance/VirtualizedContent.tsx)

    Heights are integers, as the sizes and times of the cache are. *)

Section VirtualizedContent.
Context `{JsNumber}.

(** [Math.ceil(n / 50)] for a length [n] *)
Definition ceil_div_50 (n : nat) : Z := (Z.of_nat n + 49) / 50.

(** [estimateNodeHeight(node, baseHeight)] *)
Fixpoint estimateNodeHeight (node : HtmlNode) (baseHeight : Z) : Z :=
  match node with
  | NodeText t => ceil_div_50 (String.length (content t)) * baseHeight
  | NodeElement el =>
      if String.eqb (tagName el) "img" then 200
      else if String.eqb (tagName el) "h1" then 60
      else if String.eqb (tagName el) "h2" then 50
      else if String.eqb (tagName el) "h3" || String.eqb (tagName el) "h4" then 40
      else if String.eqb (tagName el) "table"
      then Z.of_nat (length (children el)) * 40 + 20
      else if String.eqb (tagName el) "pre" || String.eqb (tagName el) "code"
      then baseHeight * 2
      else
        fold_left (fun sum child => sum + estimateNodeHeight child baseHeight)
                  (children el) 0
        + 10
  | NodeComment _ => baseHeight
  end.

Record NodeChunk := {
  chunk_key : string;
  chunk_nodes : list HtmlNode;
  estimatedHeight : Z;
}.

(** The variables of the loop of [chunkNodes]. *)
Record ChunkLoop := {
  chunks : list NodeChunk;
  currentChunk : list HtmlNode;
  currentHeight : Z;
  chunkIndex : nat;
}.

Definition push_chunk (s : ChunkLoop) : list NodeChunk :=
  chunks s ++ [{| chunk_key := "chunk-" +:+ nat_to_string (chunkIndex s);
                  chunk_nodes := currentChunk s;
                  estimatedHeight := currentHeight s |}].

(** One turn of the loop. *)
Definition chunk_step (chunkSize baseHeight : Z) (s : ChunkLoop) (node : HtmlNode)
  : ChunkLoop :=
  let s1 := {| chunks := chunks s;
               currentChunk := currentChunk s ++ [node];
               currentHeight := currentHeight s + estimateNodeHeight node baseHeight;
               chunkIndex := chunkIndex s |} in
  if Z.of_nat (length (currentChunk s1)) >=? chunkSize then
    {| chunks := push_chunk s1; currentChunk := []; currentHeight := 0;
       chunkIndex := S (chunkIndex s1) |}
  else s1.

(** [chunkNodes(nodes, chunkSize, baseHeight)] *)
Definition chunkNodes (nodes : list HtmlNode) (chunkSize baseHeight : Z)
  : list NodeChunk :=
  let s := fold_left (chunk_step chunkSize baseHeight) nodes
             {| chunks := []; currentChunk := []; currentHeight := 0;
                chunkIndex := 0 |} in
  if (0 <? length (currentChunk s))%nat then push_chunk s else chunks s.
End VirtualizedContent.

(* --------------------------------------------------------------------- *)
(** ** Notions used to state the properties *)

Section CacheNotions.
Context {T : Type}.
Implicit Types (c : ContentCache.t T).

Definition keys_nonempty c : Prop :=
  Forall (fun k => k <> "") (JsMap.keys (ContentCache.cache c)).

Definition bounded c : Prop :=
  ContentCache.size c <= ContentCache.maxSize c.
End CacheNotions.

Section RegistryNotions.
Context {Renderer Style NodeRef World : Type} `{EqDecision NodeRef}.
Local Abbreviation Plugin := (PluginRegistry.HtmlPlugin Renderer Style NodeRef World).
Local Abbreviation Transform := (PluginRegistry.NodeTransform NodeRef World).

(** The calls a chain of transforms makes, as the specification describes
    it: each transform receives the result of the one before, and the
    chain stops after a transform that returns null.  Each entry is the
    reference passed in and the result returned. *)
Fixpoint chain_calls (ts : list Transform) (parent : option NodeRef)
    (cur : NodeRef) (w : World) : list (NodeRef * option NodeRef) :=
  match ts with
  | [] => []
  | t :: ts' =>
      let '(w', r) := t cur parent w in
      (cur, r) :: match r with
                  | None => []
                  | Some next => chain_calls ts' parent next w'
                  end
  end.

(** The world after those calls. *)
Fixpoint chain_world (ts : list Transform) (parent : option NodeRef)
    (cur : NodeRef) (w : World) : World :=
  match ts with
  | [] => w
  | t :: ts' =>
      let '(w', r) := t cur parent w in
      match r with
      | None => w'
      | Some next => chain_world ts' parent next w'
      end
  end.

(** A call changed the node when its result is another reference. *)
Definition changed (c : NodeRef * option NodeRef) : bool :=
  negb (bool_decide (c.2 = Some c.1)).

(** The result of the last call, or the node itself when none was made. *)
Definition chain_result (nd : NodeRef) (calls : list (NodeRef * option NodeRef))
  : option NodeRef :=
  match last calls with
  | None => Some nd
  | Some c => c.2
  end.

(** The renderer a plugin supplies for a tag. *)
Definition renderer_of (tag : string) (p : Plugin) : option Renderer :=
  match PluginRegistry.tagRenderers p with
  | Some rs => rs !! tag
  | None => None
  end.

(** The renderer of the last plugin of [l] that supplies one for [tag]. *)
Fixpoint last_supplied (tag : string) (l : list Plugin) : option Renderer :=
  match l with
  | [] => None
  | p :: l' =>
      match last_supplied tag l' with
      | Some r => Some r
      | None => renderer_of tag p
      end
  end.

Definition transforms_of (p : Plugin) : list Transform :=
  default [] (PluginRegistry.nodeTransforms p).

(** The priority number of a plugin as the specification has it: its
    [priority], and 100 when it has none. *)
Definition priority_number (p : Plugin) : Z :=
  match PluginRegistry.priority p with
  | Some n => n
  | None => 100
  end.

(** Ascending priority: every plugin is followed only by plugins of the
    same or a greater priority number. *)
Definition prio_sorted (l : list Plugin) : Prop :=
  StronglySorted (fun p q => priority_number p <= priority_number q) l.

(** What a lookup gives for a key that no own property has. *)
Definition unowned {A} (key : string) : Property A :=
  if decide (key ∈ OBJECT_PROTOTYPE) then Inherited key else Absent.

(** What the specification says of the merged tables of a registry:
    - the order of processing is the stored plugins in ascending priority;
    - a tag is mapped to the renderer of the last plugin, in that order,
      that supplies one; with two suppliers of differing priorities that
      is the one with the greater priority number;
    - the transform list is the concatenation, in that order, of the
      plugins' transform lists.
    For a tag that no plugin supplies the lookup finds what a plain object
    inherits under that name, if anything. *)
Definition tables_merged
    (st : PluginRegistry.PluginRegistryState Renderer Style NodeRef World) : Prop :=
  let stored := JsMap.values (PluginRegistry.plugins st) in
  let sorted := PluginRegistry.sortedPlugins st in
  sorted ≡ₚ stored
  /\ prio_sorted sorted
  /\ (forall tag,
        PluginRegistry.getRenderer tag st
        = match last_supplied tag sorted with
          | Some r => Own r
          | None => unowned tag
          end)
  /\ (forall tag A B ra rb,
        A ∈ stored -> B ∈ stored ->
        renderer_of tag A = Some ra -> renderer_of tag B = Some rb ->
        priority_number A < priority_number B ->
        (forall C, C ∈ stored -> is_Some (renderer_of tag C) -> C = A \/ C = B) ->
        PluginRegistry.getRenderer tag st = Own rb)
  /\ PluginRegistry.getTransforms st = concat (map transforms_of sorted)
  /\ length (PluginRegistry.getTransforms st)
     = sum_list (map (fun p => length (transforms_of p)) stored).

(** The claim of the specification about [register], as an equivalence:
    the call throws exactly when the name is stored and [replace] is off. *)
Definition throws_iff_collision
    (behaviour : PluginRegistry.Behaviour Renderer Style NodeRef World)
    (plugin : Plugin) (replace : bool)
    (st : PluginRegistry.PluginRegistryState Renderer Style NodeRef World)
    (w : World) : Prop :=
  (exists msg, (PluginRegistry.register behaviour plugin replace st w).1.1 = Thrown msg)
  <-> (PluginRegistry.has (PluginRegistry.name plugin) st = true /\ replace = false).
End RegistryNotions.

(** Sample plugins over a world that is a log of callback messages. *)
Definition sample_plugin (n : string) (prio : option Z)
    (rs : list (string * nat))
    (setup : option PluginRegistry.CallbackRef)
  : PluginRegistry.HtmlPlugin nat unit nat (list string) :=
  {| PluginRegistry.name := n;
     PluginRegistry.priority := prio;
     PluginRegistry.tagRenderers := Some (list_to_map rs);
     PluginRegistry.nodeTransforms := None;
     PluginRegistry.styleModifiers := None;
     PluginRegistry.setup := setup;
     PluginRegistry.cleanup := None |}.

(** Callbacks that leave the registry alone and return. *)
Definition quiet {Renderer Style NodeRef World : Type}
  : PluginRegistry.Behaviour Renderer Style NodeRef World :=
  fun _ st w => PluginRegistry.Returns st w.

(** Sample closures: closure 0 logs ["first"] and closure 3 logs
    ["second"]; closure 1 throws; closure 2 registers the plugin
    ["helper"] with the registry that is calling it, and then throws. *)
Definition sample_behaviour
  : PluginRegistry.Behaviour nat unit nat (list string) :=
  fun f st log =>
    match f with
    | 0%nat => PluginRegistry.Returns st (log ++ ["first"])
    | 1%nat => PluginRegistry.Throws "setup failed" st log
    | 2%nat =>
        let r := PluginRegistry.register quiet (sample_plugin "helper" None [] None)
                   false st log in
        PluginRegistry.Throws "setup failed" r.1.2 r.2
    | 3%nat => PluginRegistry.Returns st (log ++ ["second"])
    | _ => PluginRegistry.Returns st log
    end.

Section CacheRuns.
Context {T : Type}.

(** A use of the cache: a sequence of [get] and [set] calls, each at some
    time. *)
Inductive CacheOp : Type :=
| OpGet (key : string) (now : Z)
| OpSet (key : string) (v : T) (now : Z).

Definition cache_step (c : ContentCache.t T) (op : CacheOp) : ContentCache.t T :=
  match op with
  | OpGet key now => (ContentCache.get key now c).2
  | OpSet key v now => ContentCache.set key v now c
  end.

Definition cache_run (ops : list CacheOp) (c : ContentCache.t T) : ContentCache.t T :=
  fold_left cache_step ops c.

Definition sets_nonempty_keys (ops : list CacheOp) : Prop :=
  Forall (fun op => match op with OpSet key _ _ => key <> "" | OpGet _ _ => True end) ops.
End CacheRuns.
Arguments CacheOp : clear implicits.

Section ResolverNotions.
Context `{JsNumber}.
Implicit Types (config : StyleResolverConfig) (node : ElementNode).



(** What a user table contributes for a name: the style object it has
    under that name; and for a name it has no entry for, what a plain
    object inherits under it, if anything: a truthy value that brings no
    key to the merge. *)
Definition entry_styles (table : option (gmap string (gmap string StyleValue)))
    (name : string) : list (gmap string StyleValue) :=
  match default ∅ table !! name with
  | Some s => [s]
  | None => if decide (name ∈ OBJECT_PROTOTYPE) then [∅] else []
  end.

Definition tag_styles config node : list (gmap string StyleValue) :=
  entry_styles (tagsStyles config) (tagName node).

(** In [classNames] order. *)
Definition class_styles config node : list (gmap string StyleValue) :=
  concat (map (entry_styles (classesStyles config)) (default [] (classNames node))).

(** What the style attribute parses to, when the node has one that is not
    empty. *)
Definition inline_parse node : Completion (gmap string StyleValue) :=
  match attributes node !! "style" with
  | Some css => if nonempty css then parseInlineStyle (Some css) else Normal ∅
  | None => Normal ∅
  end.

Definition inline_styles (parsed : gmap string StyleValue)
  : list (gmap string StyleValue) :=
  if has_keys parsed then [parsed] else [].

Definition custom_contributions config node (parsed : gmap string StyleValue)
  : list (gmap string StyleValue) :=
  tag_styles config node ++ class_styles config node ++ inline_styles parsed.




(** The flag and the colour of a resolution. *)
Definition custom_flag (r : Completion ResolvedStyle) : Completion bool :=
  match r with
  | Normal resolved => Normal (hasCustomStyles resolved)
  | Thrown msg => Thrown msg
  end.

Definition resolved_key (k : string) (r : Completion ResolvedStyle)
  : Completion (option StyleValue) :=
  match r with
  | Normal resolved => Normal (style resolved !! k)
  | Thrown msg => Thrown msg
  end.

(** The claim of the specification about [hasCustomStyles]: true exactly
    when a custom tier contributed a non-empty style object. *)
Definition custom_iff_nonempty_contribution config node : Prop :=
  custom_flag (resolveStyle config node) = Normal true
  <-> exists parsed s, inline_parse node = Normal parsed
        /\ s ∈ custom_contributions config node parsed /\ s <> ∅.
End ResolverNotions.

(** Sample nodes and configurations. *)
Definition sample_element `{JsNumber} (r : Ref) (tag : string)
    (attrs : list (string * string)) (classes : option (list string))
    (kids : list HtmlNode) (p : option Ref) : ElementNode :=
  {| ref := r; key := "html-node-" +:+ nat_to_string (S r); tagName := tag;
     attributes := list_to_map attrs; children := kids; parent := p;
     classNames := classes; parsedStyles := None |}.

Definition sample_config `{JsNumber}
    (tags classes : list (string * list (string * StyleValue)))
  : StyleResolverConfig :=
  {| tagsStyles := Some (list_to_map (map (fun '(k, v) => (k, list_to_map v)) tags));
     classesStyles := Some (list_to_map (map (fun '(k, v) => (k, list_to_map v)) classes));
     baseTextStyle := None; useDefaultStyles := None; styleTransformer := None |}.

Section TranslatorNotions.
Context `{JsNumber}.

(** A numeric text: what group 1 of the value pattern matches, an
    optional minus sign and one or more digits and dots. *)
Fixpoint all_digits_or_dots (s : string) : bool :=
  match s with
  | EmptyString => true
  | String c s' => is_digit_or_dot c && all_digits_or_dots s'
  end.

Definition is_numeric_text (text : string) : bool :=
  match text with
  | String c body =>
      if Ascii.eqb c "-" then nonempty body && all_digits_or_dots body
      else all_digits_or_dots text
  | EmptyString => false
  end.

(** The conversion the specification gives for each unit suffix. *)
Definition converted (unit : string) (n : num) : StyleValue :=
  if String.eqb unit "px" then VNum n
  else if String.eqb unit "em" || String.eqb unit "rem" then VNum (num_mul n (num_of_Z 16))
  else if String.eqb unit "pt" then VNum (num_mul n num_1_333)
  else VStr (num_to_string n +:+ "%").

(** The declaration [property: <text><unit>]. *)
Definition declaration_of (property text unit : string) : string :=
  property +:+ ": " +:+ text +:+ unit.

(** [d] is one declaration: it has no semicolon, the text before its
    first colon is [property] once trimmed and lowercased, and the text
    after it is [value] once trimmed. *)
Definition declares (d property value : string) : Prop :=
  indexOf ";" d = None
  /\ exists colonIndex,
       indexOf ":" d = Some colonIndex
       /\ toLowerCase (trim (str_take colonIndex d)) = property
       /\ trim (str_drop (S colonIndex) d) = value.

(** The value of a key in the style a call returned. *)
Definition resolved_lookup (k : string) (r : Completion (gmap string StyleValue))
  : option StyleValue :=
  match r with
  | Normal style => style !! k
  | Thrown _ => None
  end.

(** The claim of the specification for one property, one numeric text and
    one unit. *)
Definition converts_unit (property rn text unit : string) : Prop :=
  parseInlineStyle (Some (declaration_of property text unit))
  = Normal {[ rn := converted unit (parseFloat text) ]}.
End TranslatorNotions.

Section TreeNotions.
Context `{JsNumber}.
Implicit Types (n : HtmlNode) (l : list HtmlNode).

(** Two consecutive text nodes somewhere in the list. *)
Fixpoint has_adjacent_texts l : bool :=
  match l with
  | NodeText _ :: ((NodeText _ :: _) as rest) => true
  | _ :: rest => has_adjacent_texts rest
  | [] => false
  end.

(** A text node whose content is empty after trimming. *)
Definition blank_text (n : option HtmlNode) : bool :=
  match n with
  | Some (NodeText t) => String.eqb (trim (content t)) ""
  | _ => false
  end.

(** The two invariants of the specification on one array of nodes. *)
Definition clean_list l : bool :=
  negb (has_adjacent_texts l)
  && negb (blank_text (head l)) && negb (blank_text (last l)).

(** The invariants on the [children] array of every element of a tree. *)
Fixpoint clean_tree n : bool :=
  match n with
  | NodeElement e => clean_list (children e) && forallb clean_tree (children e)
  | _ => true
  end.

(** Every object of a tree, the root first. *)
Fixpoint objects n : list HtmlNode :=
  n :: match n with
       | NodeElement e => flat_map objects (children e)
       | _ => []
       end.

Definition all_objects l : list HtmlNode := flat_map objects l.

(** The object a reference designates, among the objects of [store]. *)
Definition deref (store : list HtmlNode) (r : Ref) : option HtmlNode :=
  find (fun n => Nat.eqb (node_ref n) r) store.

(** [p.children.includes(n)], by identity. *)
Definition has_child (p n : HtmlNode) : bool :=
  match p with
  | NodeElement e => existsb (fun c => Nat.eqb (node_ref c) (node_ref n)) (children e)
  | _ => false
  end.

(** A node whose parent reference is present appears among that parent's
    children. *)
Definition parent_holds (store : list HtmlNode) n : bool :=
  match node_parent n with
  | None => true
  | Some r =>
      match deref store r with
      | Some p => has_child p n
      | None => false
      end
  end.

Definition parents_consistent (store : list HtmlNode) l : bool :=
  forallb (parent_holds store) (all_objects l).
End TreeNotions.

(** A tokenizer that answers with one DOM whatever the input; it stands
    for htmlparser2 on the markup that DOM is the parse of. *)
Definition answering (dom : list DomNode) : string -> option bool -> ParserRun :=
  fun _ _ => {| calls := [WithDom dom]; thrown := None |}.

Definition initial_state : ParserState := {| keyCounter := 0; nextRef := 0%nat |}.

(** The result of [parseHtml], when it returned. *)
Definition returned `{JsNumber} (r : Completion ParseResult * ParserState)
  : list HtmlNode :=
  match r.1 with
  | Normal result => nodes result
  | Thrown _ => []
  end.

(** The errors a run reports: one per callback invocation with an error,
    in order, then the one caught when the run threw. *)
Definition callback_errors (cs : list CallbackCall) : list ParseError :=
  omap (fun call => match call with
                    | WithError msg => Some {| message := msg |}
                    | WithDom _ => None
                    end) cs.

Definition caught_error (e : option Exception) : list ParseError :=
  match e with
  | None => []
  | Some (ErrorObject m) => [{| message := m |}]
  | Some OtherValue => [{| message := "Unknown parsing error" |}]
  end.

(** Options that switch white-space normalization off. *)
Definition keep_whitespace : ParserOptions :=
  {| decodeEntities := None; normalizeWhitespace := Some false;
     selfClosingTags := None; rawTextTags := None |}.

(** The DOM of [<p>a<!--c-->b</p>]. *)
Definition dom_text_comment_text : list DomNode :=
  [DomElement TagType "p" [] [DomText "a"; DomComment "c"; DomText "b"]].

(** The DOM of [<div><p>Text</p></div>]. *)
Definition dom_div_p_text : list DomNode :=
  [DomElement TagType "div" [] [DomElement TagType "p" [] [DomText "Text"]]].

Section ParentNotions.
Context `{JsNumber}.

(** Every node below [n] names its container as its parent, and [n]
    itself names [p]. *)
Fixpoint well_parented (p : option Ref) (n : HtmlNode) : bool :=
  bool_decide (node_parent n = p)
  && match n with
     | NodeElement e => forallb (well_parented (Some (ref e))) (children e)
     | _ => true
     end.

(** The references of all objects of a forest, in document order. *)
Definition refs (l : list HtmlNode) : list Ref := map node_ref (all_objects l).

Definition ends_with_text (l : list HtmlNode) : bool :=
  match last l with
  | Some (NodeText _) => true
  | _ => false
  end.

(** The loop invariant of [postProcess]: no two texts side by side, and
    every element already in [result] has clean children all the way
    down. *)
Definition loop_invariant (result : list HtmlNode) : Prop :=
  has_adjacent_texts result = false /\ forallb clean_tree result = true.

(** What [convertNode] guarantees of its result: nothing is allocated for
    a dropped node; a kept node is well parented and its objects took the
    references allocated during the call, in order. *)
Definition converted_well (p : option Ref) (st : ParserState)
    (r : option HtmlNode * ParserState) : Prop :=
  match r.1 with
  | None => r.2 = st
  | Some n =>
      well_parented p n = true
      /\ map node_ref (objects n) = seq (nextRef st) (nextRef r.2 - nextRef st)
      /\ (nextRef st < nextRef r.2)%nat
  end.

Definition converted_all_well (p : option Ref) (st : ParserState)
    (r : list HtmlNode * ParserState) : Prop :=
  forallb (well_parented p) r.1 = true
  /\ refs r.1 = seq (nextRef st) (nextRef r.2 - nextRef st)
  /\ (nextRef st <= nextRef r.2)%nat.
End ParentNotions.

(** The string has no occurrence of [c]. *)
Definition lacks (c : ascii) (s : string) : Prop := indexOf c s = None.

(** No white space anywhere in the string. *)
Definition solid (s : string) : Prop :=
  forallb (fun c => negb (is_whitespace c)) (String.list_ascii_of_string s) = true.

(** An entry of the property table whose name is not empty, has no colon,
    semicolon, white space or capital, and whose translation is not
    ["font-weight"]: every entry is. *)
Definition plain_key (kv : string * string) : bool :=
  let k := kv.1 in
  nonempty k
  && bool_decide (indexOf ":" k = None) && bool_decide (indexOf ";" k = None)
  && forallb (fun c => negb (is_whitespace c)) (String.list_ascii_of_string k)
  && String.eqb (toLowerCase k) k
  && negb (String.eqb kv.2 "font-weight").

Section RegistryRuns.
Context {Renderer Style NodeRef World : Type} `{EqDecision NodeRef}.
Local Abbreviation Plugin := (PluginRegistry.HtmlPlugin Renderer Style NodeRef World).
Local Abbreviation State := (PluginRegistry.PluginRegistryState Renderer Style NodeRef World).

(** A use of a registry: a sequence of [register] and [unregister] calls.
    A call that throws leaves the registry to the calls that follow. *)
Inductive RegistryOp : Type :=
| OpRegister (plugin : Plugin) (replace : bool)
| OpUnregister (n : string).

Definition registry_step
    (behaviour : PluginRegistry.Behaviour Renderer Style NodeRef World)
    (acc : State * World) (op : RegistryOp) : State * World :=
  match op with
  | OpRegister plugin replace =>
      let r := PluginRegistry.register behaviour plugin replace acc.1 acc.2 in
      (r.1.2, r.2)
  | OpUnregister n =>
      let r := PluginRegistry.unregister behaviour n acc.1 acc.2 in (r.1.2, r.2)
  end.

(** The registry and the world after the calls [ops] on a registry just
    created. *)
Definition registry_run
    (behaviour : PluginRegistry.Behaviour Renderer Style NodeRef World)
    (ops : list RegistryOp) (w : World) : State * World :=
  fold_left (registry_step behaviour) ops (PluginRegistry.empty_state, w).

(** The style modifier a plugin supplies for a tag. *)
Definition modifier_of (tag : string) (p : Plugin) : option (Style -> Style) :=
  match PluginRegistry.styleModifiers p with
  | Some ms => ms !! tag
  | None => None
  end.

(** What the last plugin of [l] with an entry supplies. *)
Fixpoint last_of {A} (entry : Plugin -> option A) (l : list Plugin) : option A :=
  match l with
  | [] => None
  | p :: l' =>
      match last_of entry l' with
      | Some r => Some r
      | None => entry p
      end
  end.

(** Every plugin is stored under its own name. *)
Definition named (st : State) : Prop :=
  forall n p, PluginRegistry.get n st = Some p -> PluginRegistry.name p = n.

(** What [register] and [unregister] keep. *)
Definition registry_invariant (st : State) : Prop :=
  NoDup (PluginRegistry.getNames st) /\ named st /\ PluginRegistry.rebuildState st = st.

(** The registry a callback leaves. *)
Definition left_by (o : PluginRegistry.Outcome Renderer Style NodeRef World) : State :=
  match o with
  | PluginRegistry.Returns st _ => st
  | PluginRegistry.Throws _ st _ => st
  end.

(** The callbacks keep the registry in order: whatever they do to a
    registry that is in order (nothing, or calls of its methods), it is in
    order when they end. *)
Definition orderly
    (behaviour : PluginRegistry.Behaviour Renderer Style NodeRef World) : Prop :=
  forall f st w, registry_invariant st -> registry_invariant (left_by (behaviour f st w)).
End RegistryRuns.
Arguments RegistryOp : clear implicits.

Section DeclarationNotions.
Context `{JsNumber}.

(** The values for which [parseValue] returns undefined. *)
Definition CSS_WIDE_KEYWORDS : list string := ["inherit"; "initial"; "unset"].

(** A piece of a style attribute that [parseInlineStyle] skips: it has no
    semicolon and either no colon, or nothing before or after its first
    colon, or a property that the lookup in the table does not find (it
    is no key of the table and no member of [Object.prototype]), or one of
    the keywords as its value. *)
Definition skipped (d : string) : Prop :=
  indexOf ";" d = None
  /\ (indexOf ":" d = None
      \/ exists property value,
           declares d property value
           /\ (property = "" \/ value = ""
               \/ (table_lookup CSS_TO_RN_TABLE property = None
                   /\ property ∉ OBJECT_PROTOTYPE)
               \/ In value CSS_WIDE_KEYWORDS)).

(** The style of a text followed by another: a throw ends the loop, and
    otherwise a later declaration overrides an earlier one. *)
Definition followed_by (first second : Completion (gmap string StyleValue))
  : Completion (gmap string StyleValue) :=
  match first, second with
  | Thrown msg, _ => Thrown msg
  | Normal _, Thrown msg => Thrown msg
  | Normal a, Normal b => Normal (b ∪ a)
  end.

(** The words of a [text-decoration] value that React Native knows. *)
Definition supported_decoration (word : string) : bool :=
  String.eqb word "underline" || String.eqb word "line-through".
End DeclarationNotions.

Section QueryNotions.
Context `{JsNumber}.

(** The nodes of a tree in document order, each with the element that
    holds it. *)
Fixpoint visits (parent : option ElementNode) (n : HtmlNode)
  : list (HtmlNode * option ElementNode) :=
  (n, parent) :: match n with
                 | NodeElement e => flat_map (visits (Some e)) (children e)
                 | _ => []
                 end.

Definition all_visits (parent : option ElementNode) (l : list HtmlNode)
  : list (HtmlNode * option ElementNode) :=
  flat_map (visits parent) l.

(** An element whose [id] attribute is [id]. *)
Definition has_id (id : string) (n : HtmlNode) : bool :=
  match n with
  | NodeElement e => bool_decide (attributes e !! "id" = Some id)
  | _ => false
  end.

(** An element whose tag name is [tag]. *)
Definition has_tag (tag : string) (n : HtmlNode) : bool :=
  match n with
  | NodeElement e => String.eqb (tagName e) tag
  | _ => false
  end.

(** The contents of the text nodes of a list. *)
Definition texts (l : list HtmlNode) : list string :=
  omap (fun n => match n with NodeText t => Some (content t) | _ => None end) l.

(** [a] unless it is undefined, then [b]. *)
Definition or_else_node {A} (a b : option A) : option A :=
  match a with Some v => Some v | None => b end.
End QueryNotions.

Section OutputNotions.
Context `{JsNumber}.

Definition node_key (n : HtmlNode) : string :=
  match n with
  | NodeElement e => key e
  | NodeText t => text_key t
  | NodeComment c => comment_key c
  end.

(** The state after [generateKey()] and the allocation of one node. *)
Definition bump (st : ParserState) : ParserState :=
  {| keyCounter := S (keyCounter st); nextRef := S (nextRef st) |}.

(** The [classNames] field [convertNode] computes from the attributes. *)
Definition classNames_of (attrs : gmap string string) : option (list string) :=
  match attrs !! "class" with
  | Some cls =>
      if nonempty cls
      then Some (filter (fun s => nonempty s = true) (split_whitespace cls))
      else None
  | None => None
  end.

(** The text node and the element [convertNode] creates in state [st]. *)
Definition created_text (st : ParserState) (content : string) (p : option Ref)
  : HtmlNode :=
  NodeText {| text_ref := nextRef st; text_key := (generateKey st).1;
              content := content; text_parent := p |}.

Definition created_element (st : ParserState) (name : string)
    (attribs : list (string * string)) (kids : list HtmlNode) (p : option Ref)
  : HtmlNode :=
  NodeElement {| ref := nextRef st; key := (generateKey st).1;
                 tagName := toLowerCase name;
                 attributes := parseAttributes attribs; children := kids;
                 parent := p;
                 classNames := classNames_of (parseAttributes attribs);
                 parsedStyles := None |}.

Definition lowercase (s : string) : Prop := toLowerCase s = s.

(** An element as the parser makes them: lower-case tag and attribute
    names, never a script or a style element, no styles resolved yet; and
    no comment node. *)
Definition as_parsed (n : HtmlNode) : Prop :=
  match n with
  | NodeElement e =>
      lowercase (tagName e) /\ tagName e <> "script" /\ tagName e <> "style"
      /\ (forall k, is_Some (attributes e !! k) -> lowercase k)
      /\ parsedStyles e = None
  | NodeText _ => True
  | NodeComment _ => False
  end.

(** The class names of an element are the words of its class attribute. *)
Definition class_names_clean (n : HtmlNode) : Prop :=
  match n with
  | NodeElement e =>
      classNames e = classNames_of (attributes e)
      /\ (classNames e = None
          <-> attributes e !! "class" = None \/ attributes e !! "class" = Some "")
      /\ Forall (fun c => c <> "" /\ solid c) (default [] (classNames e))
  | _ => True
  end.

(** Every white-space character of the string is a plain space. *)
Definition spaces_only (s : string) : Prop :=
  forallb (fun c => negb (is_whitespace c) || Ascii.eqb c " ")
          (String.list_ascii_of_string s) = true.

(** A text node holds something to show, and no white space but spaces. *)
Definition text_normalized (n : HtmlNode) : Prop :=
  match n with
  | NodeText t => spaces_only (content t) /\ isWhitespaceOnly (content t) = false
  | _ => True
  end.

(** The number a string of decimal digits denotes, read after [acc]. *)
Fixpoint decimal_value (s : string) (acc : Z) : Z :=
  match s with
  | EmptyString => acc
  | String c s' => decimal_value s' (10 * acc + (Z.of_N (code c) - 48))
  end.

(** The key is [html-node-i] for a counter value [i] in [(low, high]]. *)
Definition key_numbered (low high : nat) (n : HtmlNode) : Prop :=
  exists i, node_key n = "html-node-" +:+ nat_to_string i /\ (low < i <= high)%nat.

(** The key of a node is the one generated when its reference was
    allocated, for a parse that started with counter [c0] and next
    reference [r0]. *)
Definition key_follows_ref (c0 : nat) (r0 : Ref) (n : HtmlNode) : Prop :=
  (r0 <= node_ref n)%nat
  /\ node_key n = "html-node-" +:+ nat_to_string (S (c0 + (node_ref n - r0))).

Definition counter_follows_ref (c0 : nat) (r0 : Ref) (st : ParserState) : Prop :=
  (r0 <= nextRef st)%nat /\ keyCounter st = (c0 + (nextRef st - r0))%nat.
End OutputNotions.

(** The DOM of [<P CLASS=" lead  big "> a(LF) b <!--c--> c </P>]. *)
Definition dom_spaced : list DomNode :=
  [DomElement TagType "P" [("CLASS", " lead  big ")]
     [DomText (" a" +:+ String (ascii_of_nat 10) " b ");
      DomComment "c"; DomText " c "]].

Section TextNotions.
Context `{JsNumber}.

(** The characters of a string that are not white space. *)
Fixpoint visible (s : string) : string :=
  match s with
  | EmptyString => EmptyString
  | String c s' => if is_whitespace c then visible s' else String c (visible s')
  end.

(** The text of a forest: the text contents of its trees, one after the
    other. *)
Definition forest_text (l : list HtmlNode) : string :=
  join "" (map getTextContent l).
End TextNotions.

Section ResolvedNotions.
Context `{JsNumber}.

(** [copy] is what [processNode] makes of [original]: an element is
    copied field by field, with the resolved style in [parsedStyles] and
    as many children; any other node is the same object. *)
Definition styled_copy (config : StyleResolverConfig) (copy original : HtmlNode)
  : Prop :=
  match copy, original with
  | NodeElement e', NodeElement e =>
      key e' = key e /\ tagName e' = tagName e /\ attributes e' = attributes e
      /\ classNames e' = classNames e /\ parent e' = parent e
      /\ length (children e') = length (children e)
      /\ exists resolved, resolveStyle config e = Normal resolved
                          /\ parsedStyles e' = Some (style resolved)
  | NodeText t', NodeText t => t' = t
  | NodeComment c', NodeComment c => c' = c
  | _, _ => False
  end.

(** The elements of a list of nodes. *)
Definition elements (l : list HtmlNode) : list ElementNode :=
  omap (fun n => match n with NodeElement e => Some e | _ => None end) l.

(** The nodes a call returned; none when it threw. *)
Definition resolved_nodes (r : Completion (list HtmlNode)) : list HtmlNode :=
  match r with
  | Normal l => l
  | Thrown _ => []
  end.

(** The value [scaleTextStyles] gives a property. *)
Definition scaled_value (scale : num) (v : StyleValue) : StyleValue :=
  match v with
  | VNum n => VNum (num_mul n scale)
  | _ => v
  end.
End ResolvedNotions.

Section ChunkNotions.
Context `{JsNumber}.

(** The sum of the estimated heights of the nodes of a list. *)
Definition total_height (baseHeight : Z) (l : list HtmlNode) : Z :=
  fold_right (fun node sum => estimateNodeHeight node baseHeight + sum) 0 l.

(** The number of nodes a full chunk holds: [chunkSize], and one when
    [chunkSize] is less. *)
Definition full_size (chunkSize : Z) : Z := Z.max 1 chunkSize.

Definition chunk_names (count : nat) : list string :=
  map (fun i => "chunk-" +:+ nat_to_string i) (seq 0 count).

(** A chunk that is full and has the height of its nodes. *)
Definition full_chunk (chunkSize baseHeight : Z) (c : NodeChunk) : Prop :=
  Z.of_nat (length (chunk_nodes c)) = full_size chunkSize
  /\ estimatedHeight c = total_height baseHeight (chunk_nodes c).

(** The invariant of the loop of [chunkNodes] after the nodes [done]. *)
Definition chunk_invariant (chunkSize baseHeight : Z) (done : list HtmlNode)
    (s : ChunkLoop) : Prop :=
  concat (map chunk_nodes (chunks s)) ++ currentChunk s = done
  /\ Forall (full_chunk chunkSize baseHeight) (chunks s)
  /\ Z.of_nat (length (currentChunk s)) < full_size chunkSize
  /\ currentHeight s = total_height baseHeight (currentChunk s)
  /\ chunkIndex s = length (chunks s)
  /\ map chunk_key (chunks s) = chunk_names (length (chunks s)).
End ChunkNotions.

Section TrimNotions.
Context `{JsNumber}.

(** The list does not begin with a text node that [postProcess] would
    trim or drop, and does not end with one. *)
Definition starts_trimmed (l : list HtmlNode) : bool :=
  match l with
  | NodeText t :: _ =>
      nonempty (content t) && String.eqb (trimStart (content t)) (content t)
  | _ => true
  end.

Definition ends_trimmed (l : list HtmlNode) : bool :=
  match last l with
  | Some (NodeText t) =>
      nonempty (content t) && String.eqb (trimEnd (content t)) (content t)
  | _ => true
  end.

(** A node [postProcess] leaves as it is when it meets it again. *)
Definition settled (n : HtmlNode) : Prop := postProcess_children n = n.
End TrimNotions.

(* ===================================================================== *)
(** * Part II: the properties                                              *)
(* ===================================================================== *)

(** ** Association-list facts used by the cache and the registry *)

Section JsMapFacts.
Context {V : Type}.
Implicit Types (m : JsMap.t V) (k : string) (v : V).

Lemma jsmap_set_length m k v :
  (length (JsMap.set k v m) <= S (length m))%nat.
Proof.
  induction m as [|[k' v'] m IH]; simpl; [lia|].
  destruct (String.eqb k k'); simpl; lia.
Qed.

Lemma jsmap_delete_length m k :
  (length (JsMap.delete k m) <= length m)%nat.
Proof.
  induction m as [|[k' v'] m IH]; simpl; [lia|].
  destruct (String.eqb k k'); simpl; lia.
Qed.

Lemma jsmap_delete_head m k v :
  JsMap.delete k ((k, v) :: m) = m.
Proof. simpl. by rewrite String.eqb_refl. Qed.
End JsMapFacts.

(** ** ContentCache *)

Section CacheFacts.
Context {T : Type}.
Implicit Types (c : ContentCache.t T) (m : JsMap.t (ContentCache.Entry T)).

Lemma jsmap_delete_present {V} (m : JsMap.t V) k v :
  JsMap.get k m = Some v -> S (length (JsMap.delete k m)) = length m.
Proof.
  induction m as [|[k' v'] m IH]; simpl; [done|].
  destruct (String.eqb k k'); [done|]. intros Hm. simpl. by rewrite IH.
Qed.

Lemma jsmap_keys_set {V} (m : JsMap.t V) k v (P : string -> Prop) :
  P k -> Forall P (JsMap.keys m) -> Forall P (JsMap.keys (JsMap.set k v m)).
Proof.
  intros Hk. induction m as [|[k' v'] m IH]; simpl.
  - by repeat constructor.
  - intros [Hk' Hm]%Forall_cons. destruct (String.eqb k k'); simpl.
    + by constructor.
    + constructor; [done|]. by apply IH.
Qed.

Lemma jsmap_keys_delete {V} (m : JsMap.t V) k (P : string -> Prop) :
  Forall P (JsMap.keys m) -> Forall P (JsMap.keys (JsMap.delete k m)).
Proof.
  induction m as [|[k' v'] m IH]; simpl; [done|].
  intros [Hk' Hm]%Forall_cons. destruct (String.eqb k k'); simpl; [done|].
  constructor; [done|]. by apply IH.
Qed.

Lemma jsmap_get_keys {V} (m : JsMap.t V) k v (P : string -> Prop) :
  JsMap.get k m = Some v -> Forall P (JsMap.keys m) -> P k.
Proof.
  induction m as [|[k' v'] m IH]; simpl; [done|].
  intros Hget [Hk' Hm]%Forall_cons.
  destruct (String.eqb_spec k k') as [->|]; [done|]. by apply IH.
Qed.

Lemma jsmap_set_last {V} (m : JsMap.t V) k v :
  JsMap.get k m = None -> JsMap.set k v m = m ++ [(k, v)].
Proof.
  induction m as [|[k' v'] m IH]; simpl; [done|].
  destruct (String.eqb k k'); [done|]. intros Hm. by rewrite IH.
Qed.

Lemma truthy_nonempty_key (k : string) :
  k <> "" -> ContentCache.truthy_key (Some k) = true.
Proof. by destruct k. Qed.

(** With room for at least one entry and no empty key stored, an insertion
    keeps the cache within [maxSize]. *)
Lemma cache_set_bounded c key v now :
  1 <= ContentCache.maxSize c -> keys_nonempty c -> bounded c ->
  bounded (ContentCache.set key v now c).
Proof.
  unfold bounded, keys_nonempty, ContentCache.size, ContentCache.set, JsMap.size.
  destruct c as [m maxSize maxAge]. simpl. intros Hmax Hkeys Hb.
  pose proof (jsmap_set_length m key {| ContentCache.value := v; ContentCache.timestamp := now |}).
  destruct (Z.geb_spec (Z.of_nat (length m)) maxSize) as [Hfull|Hroom]; [|lia].
  destruct m as [|[k e] m]; simpl in *; [lia|].
  apply Forall_cons in Hkeys as [Hk _].
  destruct k as [|a k]; [done|]. rewrite String.eqb_refl.
  pose proof (jsmap_set_length m key {| ContentCache.value := v; ContentCache.timestamp := now |}).
  lia.
Qed.

Lemma cache_get_bounded c key now :
  bounded c -> bounded (ContentCache.get key now c).2.
Proof.
  unfold bounded, ContentCache.size, ContentCache.get, JsMap.size.
  destruct c as [m maxSize maxAge]. simpl.
  destruct (JsMap.get key m) as [e|] eqn:Hget; [|done].
  pose proof (jsmap_delete_present m key e Hget).
  pose proof (jsmap_set_length (JsMap.delete key m) key e).
  destruct (_ >? _); simpl; lia.
Qed.

Lemma cache_step_invariant c (op : CacheOp T) :
  1 <= ContentCache.maxSize c ->
  match op with OpSet key _ _ => key <> "" | OpGet _ _ => True end ->
  keys_nonempty c /\ bounded c ->
  ContentCache.maxSize (cache_step c op) = ContentCache.maxSize c
  /\ keys_nonempty (cache_step c op) /\ bounded (cache_step c op).
Proof.
  intros Hmax Hop [Hkeys Hb]. destruct op as [key now|key v now]; simpl.
  - split; [|split; [|by apply cache_get_bounded]].
    + unfold ContentCache.get. destruct (JsMap.get key _); [|done].
      by destruct (_ >? _).
    + unfold keys_nonempty, ContentCache.get in *.
      destruct (JsMap.get key _) as [e|] eqn:Hget; [|done].
      destruct (_ >? _); simpl.
      * by apply jsmap_keys_delete.
      * apply jsmap_keys_set; [|by apply jsmap_keys_delete].
        exact (jsmap_get_keys _ _ _ (fun k => k <> "") Hget Hkeys).
  - split; [done|]. split; [|by apply cache_set_bounded].
    unfold keys_nonempty, ContentCache.set in *. simpl.
    apply jsmap_keys_set; [done|].
    destruct (_ >=? _); [|done]. destruct (ContentCache.truthy_key _); [|done].
    by apply jsmap_keys_delete.
Qed.

(** X1. The bound the specification states, on the inputs for which the
    code keeps it: with capacity at least one and no empty key ever
    inserted, the cache never holds more than [maxSize] entries, whatever
    the sequence of [get] and [set]. *)
Lemma cache_run_bounded (ops : list (CacheOp T)) maxSize maxAge :
  1 <= maxSize -> sets_nonempty_keys ops ->
  ContentCache.size (cache_run ops (ContentCache.create maxSize maxAge)) <= maxSize.
Proof.
  intros Hmax Hops.
  assert (forall c, ContentCache.maxSize c = maxSize ->
            keys_nonempty c /\ bounded c ->
            ContentCache.size (cache_run ops c) <= maxSize) as Hgen.
  { induction Hops as [|op ops Hop Hops IH]; intros c Hc [Hk Hb]; simpl.
    - unfold bounded in Hb. lia.
    - destruct (cache_step_invariant c op) as (Hm' & Hk' & Hb'); [lia|done|done|].
      apply IH; [congruence|done]. }
  apply Hgen; [done|]. split; [constructor|].
  unfold bounded, ContentCache.size, JsMap.size. simpl. lia.
Qed.

(** A [get] of an entry older than [maxAge] removes it and returns
    undefined. *)
Lemma cache_get_expired c key now e :
  JsMap.get key (ContentCache.cache c) = Some e ->
  now - ContentCache.timestamp e > ContentCache.maxAge c ->
  ContentCache.get key now c
  = (None, ContentCache.with_cache c (JsMap.delete key (ContentCache.cache c))).
Proof.
  intros Hget Hold. unfold ContentCache.get. rewrite Hget.
  destruct (Z.gtb_spec (now - ContentCache.timestamp e) (ContentCache.maxAge c)); [done|lia].
Qed.

(** A fresh hit returns the value and re-inserts the entry after the key
    was deleted. *)
Lemma cache_get_fresh c key now e :
  JsMap.get key (ContentCache.cache c) = Some e ->
  now - ContentCache.timestamp e <= ContentCache.maxAge c ->
  ContentCache.get key now c
  = (Some (ContentCache.value e),
     ContentCache.with_cache c
       (JsMap.set key e (JsMap.delete key (ContentCache.cache c)))).
Proof.
  intros Hget Hfresh. unfold ContentCache.get. rewrite Hget.
  destruct (Z.gtb_spec (now - ContentCache.timestamp e) (ContentCache.maxAge c)); [lia|done].
Qed.
End CacheFacts.

(** Two insertions fill a cache of capacity two; a hit and a third
    insertion keep it there. *)
Lemma cache_run_bounded_witness :
  ContentCache.size
    (cache_run [OpSet "a" 1%nat 0; OpSet "b" 2%nat 1; OpGet "a" 5; OpSet "c" 3%nat 6]
       (ContentCache.create 2 60000)) <= 2.
Proof.
  apply (cache_run_bounded
           [OpSet "a" 1%nat 0; OpSet "b" 2%nat 1; OpGet "a" 5; OpSet "c" 3%nat 6]
           2 60000); [lia | repeat constructor; discriminate].
Defined.

(** C10 (failing input). A cache of capacity 1 that holds the key [""]
    does not evict it on the next insertion: after [set "" ; set "b"] the
    cache holds two entries, more than [maxSize]. *)
Theorem cache_exceeds_maxSize_on_empty_key :
  let c0 := ContentCache.create (T := nat) 1 60000 in
  let c1 := ContentCache.set "" 7%nat 0 c0 in
  let c2 := ContentCache.set "b" 8%nat 1 c1 in
  ContentCache.size c1 = 1 /\
  ContentCache.size c2 = 2 /\
  ContentCache.maxSize c2 = 1 /\
  JsMap.keys (ContentCache.cache c2) = [""; "b"].
Proof. repeat split. Qed.

(** ** Plugin registry: the transform chain *)

Section TransformChain.
Context {Renderer Style NodeRef World : Type} `{EqDecision NodeRef}.
Local Abbreviation State := (PluginRegistry.PluginRegistryState Renderer Style NodeRef World).
Local Abbreviation Transform := (PluginRegistry.NodeTransform NodeRef World).
Implicit Types (ts : list Transform) (parent : option NodeRef) (w : World).

Lemma loop_without_node ts parent flag w :
  PluginRegistry.applyTransforms_loop ts parent None flag w
  = (w, {| PluginRegistry.node := None; PluginRegistry.transformed := flag |}).
Proof. by destruct ts. Qed.

Lemma chain_result_step (nd next : NodeRef) calls :
  chain_result nd ((nd, Some next) :: calls) = chain_result next calls.
Proof. unfold chain_result. rewrite last_cons. by destruct (last calls). Qed.

Lemma changed_same (cur : NodeRef) : changed (cur, Some cur) = false.
Proof. unfold changed. simpl. by rewrite bool_decide_eq_true_2. Qed.

Lemma changed_other (cur : NodeRef) (r : option NodeRef) :
  r <> Some cur -> changed (cur, r) = true.
Proof. intros Hne. unfold changed. simpl. by rewrite bool_decide_eq_false_2. Qed.

Lemma loop_is_chain ts parent cur flag w :
  PluginRegistry.applyTransforms_loop ts parent (Some cur) flag w
  = (chain_world ts parent cur w,
     {| PluginRegistry.node := chain_result cur (chain_calls ts parent cur w);
        PluginRegistry.transformed :=
          flag || existsb changed (chain_calls ts parent cur w) |}).
Proof.
  revert cur flag w.
  induction ts as [|t ts IH]; intros cur flag w; simpl.
  - by rewrite orb_false_r.
  - destruct (t cur parent w) as [w' r] eqn:Ht.
    destruct (decide (r = Some cur)) as [->|Hne].
    + rewrite IH, chain_result_step. simpl. by rewrite changed_same.
    + destruct r as [next|].
      * rewrite IH, chain_result_step. simpl.
        rewrite (changed_other _ _ Hne). by rewrite orb_true_r.
      * rewrite loop_without_node. simpl. by rewrite orb_true_r.
Qed.

Lemma chain_calls_length ts parent cur w :
  (length (chain_calls ts parent cur w) <= length ts)%nat.
Proof.
  revert cur w. induction ts as [|t ts IH]; intros cur w; simpl; [lia|].
  destruct (t cur parent w) as [w' [next|]]; simpl; [|lia].
  specialize (IH next w'). lia.
Qed.

(** A call that returns null is the last one. *)
Lemma chain_calls_null_last ts parent cur w i c :
  chain_calls ts parent cur w !! i = Some c -> c.2 = None ->
  length (chain_calls ts parent cur w) = S i
  /\ chain_result cur (chain_calls ts parent cur w) = None.
Proof.
  revert cur w i. induction ts as [|t ts IH]; intros cur w i; simpl; [done|].
  destruct (t cur parent w) as [w' r].
  destruct i as [|i]; simpl.
  - intros [= <-] Hr. simpl in Hr. subst r. done.
  - destruct r as [next|]; [|done].
    intros Hi Hc. destruct (IH _ _ _ Hi Hc) as [Hlen Hres].
    rewrite chain_result_step. simpl. by rewrite Hlen.
Qed.

(** When the list is not exhausted the chain was cut by a null result. *)
Lemma chain_calls_short ts parent cur w :
  (length (chain_calls ts parent cur w) < length ts)%nat ->
  chain_result cur (chain_calls ts parent cur w) = None.
Proof.
  revert cur w. induction ts as [|t ts IH]; intros cur w; simpl; [lia|].
  destruct (t cur parent w) as [w' [next|]]; simpl; [|done].
  intros Hlt. rewrite chain_result_step. apply IH. lia.
Qed.

(** Call [i] is made by transform [i], and call [i+1] receives what call
    [i] returned. *)
Lemma chain_calls_linked ts parent cur w i c :
  chain_calls ts parent cur w !! i = Some c ->
  (i = 0%nat -> c.1 = cur)
  /\ (exists t w0, ts !! i = Some t /\ (t c.1 parent w0).2 = c.2)
  /\ (forall c', chain_calls ts parent cur w !! S i = Some c' -> c.2 = Some c'.1).
Proof.
  revert cur w i. induction ts as [|t ts IH]; intros cur w i; simpl; [done|].
  destruct (t cur parent w) as [w' r] eqn:Ht.
  destruct i as [|i]; simpl.
  - intros [= <-]. simpl. split; [done|]. split.
    + exists t, w. by rewrite Ht.
    + destruct r as [next|]; [|done]. intros c' Hc'.
      destruct ts as [|t' ts]; [done|]. simpl in Hc'.
      destruct (t' next parent w') as [w'' r']. injection Hc' as <-. done.
  - destruct r as [next|]; [|done]. intros Hi.
    destruct (IH _ _ _ Hi) as (_ & Hcall & Hnext).
    split; [done|]. split; [|done].
    destruct Hcall as (t0 & w0 & Ht0 & Hr0). by exists t0, w0.
Qed.

(** A chain in which no call changed the reference returns the node. *)
Lemma chain_unchanged ts parent cur w :
  existsb changed (chain_calls ts parent cur w) = false ->
  chain_result cur (chain_calls ts parent cur w) = Some cur.
Proof.
  revert cur w. induction ts as [|t ts IH]; intros cur w; simpl; [done|].
  destruct (t cur parent w) as [w' r]. simpl.
  intros [Hc Hrest]%orb_false_iff.
  unfold changed in Hc. apply negb_false_iff, bool_decide_eq_true in Hc.
  simpl in Hc. subst r. rewrite chain_result_step. by apply IH.
Qed.

(** C5. [applyTransforms] makes exactly the calls of the chain that starts
    at the node and runs through the registered transforms in order: call
    [i] is made by transform [i], the first call receives the node and each
    later call receives the reference returned by the call before it; a
    call that returns null is the last call and makes the result node null;
    the result node is the reference returned by the last call; and the
    [transformed] flag is true exactly when some call returned a reference
    other than the one it was given (so a null result always comes with
    [transformed = true], while "no change" leaves the node and [false]). *)
Theorem applyTransforms_threads_chain
    (nd : NodeRef) (parent : option NodeRef) (st : State) (w : World) :
  let ts := PluginRegistry.transforms st in
  let calls := chain_calls ts parent nd w in
  let res := (PluginRegistry.applyTransforms nd parent st w).2 in
  PluginRegistry.node res = chain_result nd calls
  /\ (length calls <= length ts)%nat
  /\ (forall i c, calls !! i = Some c ->
        (i = 0%nat -> c.1 = nd)
        /\ (exists t w0, ts !! i = Some t /\ (t c.1 parent w0).2 = c.2)
        /\ (forall c', calls !! S i = Some c' -> c.2 = Some c'.1))
  /\ (forall i c, calls !! i = Some c -> c.2 = None ->
        length calls = S i /\ PluginRegistry.node res = None)
  /\ ((length calls < length ts)%nat -> PluginRegistry.node res = None)
  /\ (PluginRegistry.transformed res = true
      <-> exists c, c ∈ calls /\ c.2 <> Some c.1)
  /\ (PluginRegistry.node res = None -> PluginRegistry.transformed res = true)
  /\ (PluginRegistry.transformed res = false -> PluginRegistry.node res = Some nd)
  /\ (PluginRegistry.applyTransforms nd parent st w).1 = chain_world ts parent nd w.
Proof.
  intros ts calls res.
  assert (Hworld : (PluginRegistry.applyTransforms nd parent st w).1
                   = chain_world ts parent nd w).
  { unfold PluginRegistry.applyTransforms. by rewrite loop_is_chain. }
  assert (Hres : res = {| PluginRegistry.node := chain_result nd calls;
                          PluginRegistry.transformed := existsb changed calls |}).
  { unfold res, PluginRegistry.applyTransforms. by rewrite loop_is_chain. }
  assert (Hflag : existsb changed calls = true
                  <-> exists c, c ∈ calls /\ c.2 <> Some c.1).
  { rewrite existsb_exists. split; intros (c & Hin & Hc); exists c.
    - split; [by apply list_elem_of_In|].
      unfold changed in Hc. apply negb_true_iff, bool_decide_eq_false in Hc. done.
    - split; [by apply list_elem_of_In|].
      unfold changed. by apply negb_true_iff, bool_decide_eq_false. }
  rewrite Hres. simpl.
  split; [done|]. split; [apply chain_calls_length|].
  split; [intros i c; apply chain_calls_linked|].
  split; [intros i c; apply chain_calls_null_last|].
  split; [apply chain_calls_short|].
  split; [done|]. split; [|split; [|exact Hworld]].
  - intros Hnone. apply Hflag. unfold chain_result in Hnone.
    destruct (last calls) as [c|] eqn:Hlast; [|done].
    exists c. split; [|by rewrite Hnone].
    apply last_Some in Hlast as [l' Hl]. rewrite Hl. apply elem_of_app; right; constructor.
  - apply chain_unchanged.
Qed.
End TransformChain.

(** ** Plugin registry: the merged tables *)

Section MergedTables.
Context {Renderer Style NodeRef World : Type} `{EqDecision NodeRef}.
Local Abbreviation Plugin := (PluginRegistry.HtmlPlugin Renderer Style NodeRef World).
Local Abbreviation State := (PluginRegistry.PluginRegistryState Renderer Style NodeRef World).
Implicit Types (p q : Plugin) (l : list Plugin) (st : State) (w : World).

Lemma insert_by_prio_perm p l : PluginRegistry.insert_by_prio p l ≡ₚ p :: l.
Proof.
  induction l as [|q l IH]; simpl; [done|].
  destruct (PluginRegistry.prio p <=? PluginRegistry.prio q); [done|].
  rewrite IH. apply perm_swap.
Qed.

Lemma sort_by_prio_perm l : PluginRegistry.sort_by_prio l ≡ₚ l.
Proof.
  induction l as [|p l IH]; simpl; [done|].
  by rewrite insert_by_prio_perm, IH.
Qed.

Lemma prio_priority_number p : PluginRegistry.prio p = priority_number p.
Proof.
  unfold PluginRegistry.prio, priority_number.
  by destruct (PluginRegistry.priority p).
Qed.

Lemma insert_by_prio_sorted p l :
  prio_sorted l -> prio_sorted (PluginRegistry.insert_by_prio p l).
Proof.
  unfold prio_sorted. induction 1 as [|q l Hl IH Hq]; simpl.
  - repeat constructor.
  - rewrite (prio_priority_number p), (prio_priority_number q).
    destruct (priority_number p <=? priority_number q) eqn:Hle.
    + apply Z.leb_le in Hle. constructor; [by constructor|].
      constructor; [done|]. eapply Forall_impl; [exact Hq|].
      simpl. intros. lia.
    + apply Z.leb_gt in Hle. constructor; [done|].
      rewrite insert_by_prio_perm. constructor; [lia|done].
Qed.

Lemma sort_by_prio_sorted l : prio_sorted (PluginRegistry.sort_by_prio l).
Proof.
  induction l as [|p l IH]; simpl; [constructor|].
  by apply insert_by_prio_sorted.
Qed.

Lemma assign_lookup {A} (target : gmap string A) source tag :
  PluginRegistry.assign target source !! tag
  = match source ≫= (.!! tag) with
    | Some r => Some r
    | None => target !! tag
    end.
Proof.
  destruct source as [src|]; simpl; [|done].
  rewrite lookup_union. by destruct (src !! tag), (target !! tag).
Qed.

Lemma merged_renderers_lookup l (acc : gmap string Renderer) tag :
  fold_left (fun acc p => PluginRegistry.assign acc (PluginRegistry.tagRenderers p)) l acc
    !! tag
  = match last_supplied tag l with
    | Some r => Some r
    | None => acc !! tag
    end.
Proof.
  revert acc. induction l as [|p l IH]; intros acc; simpl; [done|].
  rewrite IH. destruct (last_supplied tag l); [done|].
  rewrite assign_lookup. unfold renderer_of.
  by destruct (PluginRegistry.tagRenderers p).
Qed.

Lemma merged_transforms_concat l (acc : list (PluginRegistry.NodeTransform NodeRef World)) :
  fold_left (fun acc p => match PluginRegistry.nodeTransforms p with
                          | Some ts => acc ++ ts
                          | None => acc
                          end) l acc
  = acc ++ concat (map transforms_of l).
Proof.
  revert acc. induction l as [|p l IH]; intros acc; simpl.
  - by rewrite app_nil_r.
  - rewrite IH. unfold transforms_of at 2.
    destruct (PluginRegistry.nodeTransforms p); simpl.
    + by rewrite app_assoc.
    + done.
Qed.

(** The last supplier splits the list: nothing after it supplies the tag. *)
Lemma last_supplied_split tag l r :
  last_supplied tag l = Some r ->
  exists l1 p l2, l = l1 ++ p :: l2 /\ renderer_of tag p = Some r
                  /\ Forall (fun q => renderer_of tag q = None) l2.
Proof.
  induction l as [|p l IH]; simpl; [done|].
  destruct (last_supplied tag l) as [r'|] eqn:Hl.
  - intros [= ->]. destruct (IH eq_refl) as (l1 & q & l2 & -> & Hq & Hl2).
    by exists (p :: l1), q, l2.
  - intros Hp. exists [], p, l. split; [done|]. split; [done|].
    clear IH Hp. induction l as [|q l IH]; [constructor|].
    simpl in Hl. destruct (last_supplied tag l); [done|].
    constructor; [done|]. by apply IH.
Qed.

Lemma last_supplied_none tag l :
  last_supplied tag l = None -> Forall (fun q => renderer_of tag q = None) l.
Proof.
  induction l as [|q l IH]; [constructor|]. simpl.
  destruct (last_supplied tag l); [done|]. intros Hq. constructor; auto.
Qed.

Lemma length_concat_sum {A} (ls : list (list A)) :
  length (concat ls) = sum_list (map length ls).
Proof. induction ls as [|x ls IH]; simpl; [done|]. by rewrite length_app, IH. Qed.

Lemma is_member_elem key : is_member key = bool_decide (key ∈ OBJECT_PROTOTYPE).
Proof.
  unfold is_member. destruct (existsb _ _) eqn:E; symmetry.
  - apply bool_decide_eq_true. apply existsb_exists in E as (m & Hin & ->%String.eqb_eq).
    by apply list_elem_of_In.
  - apply bool_decide_eq_false. intros Hin%list_elem_of_In.
    assert (existsb (String.eqb key) OBJECT_PROTOTYPE = true); [|congruence].
    apply existsb_exists. exists key. split; [done|apply String.eqb_refl].
Qed.

Lemma property_of_None {A} key : property_of (A := A) None key = unowned key.
Proof.
  unfold property_of, unowned. rewrite is_member_elem.
  destruct (decide (key ∈ OBJECT_PROTOTYPE)) as [Hin|Hin];
    [by rewrite bool_decide_eq_true_2|by rewrite bool_decide_eq_false_2].
Qed.

Lemma get_property_lookup {A} (obj : gmap string A) key :
  get_property obj key
  = match obj !! key with
    | Some a => Own a
    | None => unowned key
    end.
Proof.
  unfold get_property. destruct (obj !! key); [done|apply property_of_None].
Qed.

Lemma rebuildState_merges st : tables_merged (PluginRegistry.rebuildState st).
Proof.
  unfold tables_merged, PluginRegistry.getRenderer, PluginRegistry.getTransforms,
    PluginRegistry.sortedPlugins. simpl.
  set (stored := JsMap.values (PluginRegistry.plugins st)).
  set (sorted := PluginRegistry.sort_by_prio stored).
  assert (Hperm : sorted ≡ₚ stored) by apply sort_by_prio_perm.
  assert (Hsorted : prio_sorted sorted) by apply sort_by_prio_sorted.
  assert (Hlook : forall tag,
    get_property
      (fold_left (fun acc p => PluginRegistry.assign acc (PluginRegistry.tagRenderers p))
         sorted ∅) tag
    = match last_supplied tag sorted with
      | Some r => Own r
      | None => unowned tag
      end).
  { intros tag. rewrite get_property_lookup, merged_renderers_lookup, lookup_empty.
    by destruct (last_supplied tag sorted). }
  split; [done|]. split; [done|]. split; [done|]. split; [|split].
  - intros tag A B ra rb HA HB Hra Hrb Hlt Honly. rewrite Hlook.
    destruct (last_supplied tag sorted) as [r|] eqn:Hlast.
    + apply last_supplied_split in Hlast as (l1 & X & l2 & Hl & HX & Hl2).
      assert (X ∈ stored) as HXin.
      { rewrite <- Hperm, Hl. apply elem_of_app. right. constructor. }
      destruct (Honly X HXin) as [->| ->]; [by rewrite HX| |congruence].
      exfalso.
      assert (B ∈ sorted) as HBin by by rewrite Hperm.
      rewrite Hl in HBin. apply elem_of_app in HBin as [HB1|HB2].
      * unfold prio_sorted in Hsorted. rewrite Hl in Hsorted.
        assert (priority_number B <= priority_number A); [|lia].
        apply (StronglySorted_app_1_elem_of _ _ _ B A Hsorted); [done|constructor].
      * apply elem_of_cons in HB2 as [->|HB2]; [lia|].
        rewrite Forall_forall in Hl2.
        rewrite (Hl2 _ HB2) in Hrb. done.
    + apply last_supplied_none in Hlast. rewrite Forall_forall in Hlast.
      assert (B ∈ sorted) as HBin by by rewrite Hperm.
      rewrite (Hlast _ HBin) in Hrb. done.
  - by rewrite merged_transforms_concat.
  - rewrite merged_transforms_concat. simpl.
    rewrite length_concat_sum, map_map.
    change (PluginRegistry.sortedPlugins st) with sorted.
    apply (Permutation_map (fun p : Plugin => length (transforms_of p))) in Hperm.
    by rewrite Hperm.
Qed.

Lemma jsmap_get_set_stored {V} (m : JsMap.t V) k v :
  JsMap.get k (JsMap.set k v m) = Some v.
Proof.
  induction m as [|[k' v'] m IH]; simpl.
  - by rewrite String.eqb_refl.
  - destruct (String.eqb k k') eqn:Hk; simpl.
    + by rewrite String.eqb_refl.
    + by rewrite Hk.
Qed.

(** C6. Whenever [register] stores a plugin or [unregister] removes one,
    whatever the callbacks did to the registry meanwhile, the registry
    they leave has its tables merged in ascending order of priority
    number (the plugin's [priority], 100 when it has none): a tag maps to
    the renderer of the last plugin in that order that supplies one, so of
    two suppliers with differing priority numbers the one with the greater
    number wins; and the transform list is the concatenation of the
    plugins' transform lists in that order, nothing removed.  On three
    plugins that render [video], with priorities 50, none and 150: the
    plugin without priority wins over 50 and loses to 150, in whatever
    order they were registered, and unregistering the winner brings the
    other back. *)
Theorem merged_tables_after_registration
    (behaviour : PluginRegistry.Behaviour Renderer Style NodeRef World)
    (plugin : Plugin) (replace : bool) (n : string) (st : State) (w : World) :
  tables_merged (PluginRegistry.rebuildState st)
  /\ (forall st' w',
        PluginRegistry.register behaviour plugin replace st w = (Normal tt, st', w') ->
        PluginRegistry.get (PluginRegistry.name plugin) st' = Some plugin
        /\ tables_merged st')
  /\ (forall st' w',
        PluginRegistry.unregister behaviour n st w = (Normal true, st', w') ->
        tables_merged st')
  /\ (let low := sample_plugin "low" (Some 50) [("video", 1%nat)] None in
      let plain := sample_plugin "plain" None [("video", 2%nat)] None in
      let high := sample_plugin "high" (Some 150) [("video", 3%nat)] None in
      let video ops :=
        PluginRegistry.getRenderer "video" (registry_run quiet ops []).1 in
      video [OpRegister low false; OpRegister plain false] = Own 2%nat
      /\ video [OpRegister plain false; OpRegister low false] = Own 2%nat
      /\ video [OpRegister high false; OpRegister plain false] = Own 3%nat
      /\ video [OpRegister plain false; OpRegister high false] = Own 3%nat
      /\ video [OpRegister plain false; OpRegister low false; OpUnregister "plain"]
         = Own 1%nat
      /\ video [OpRegister plain false; OpUnregister "plain"] = Absent).
Proof.
  split; [apply rebuildState_merges|]. split; [|split].
  - intros st' w'. unfold PluginRegistry.register.
    destruct (JsMap.has _ _ && negb replace); [done|].
    destruct (PluginRegistry.call _ _ st w) as [st1 w1|msg st1 w1]; [|done].
    intros [= <- <-]. split; [|apply rebuildState_merges].
    unfold PluginRegistry.get. simpl. apply jsmap_get_set_stored.
  - intros st' w'. unfold PluginRegistry.unregister.
    destruct (JsMap.get n _); [|done].
    destruct (PluginRegistry.call _ _ st w) as [st1 w1|msg st1 w1]; [|done].
    intros [= <- <-]. apply rebuildState_merges.
  - repeat split.
Qed.
End MergedTables.

(** ** Plugin registry: [register] *)

Section Register.
Context {Renderer Style NodeRef World : Type} `{EqDecision NodeRef}.
Local Abbreviation Plugin := (PluginRegistry.HtmlPlugin Renderer Style NodeRef World).
Local Abbreviation State := (PluginRegistry.PluginRegistryState Renderer Style NodeRef World).
Implicit Types (plugin : Plugin) (st : State) (w : World).

(** C7 (as amended). [register] throws exactly when the name is already
    stored and [replace] is off, or when there is no such collision and
    the plugin's [setup] callback itself throws.  On a collision the
    registry (the stored plugins and the three merged tables) and the
    world are what they were, whatever the [setup] callback is: it is not
    invoked.  On success [setup], if any, has run on the registry as it
    was before the call, the plugin not yet stored by this call, and only
    then is the plugin stored under its name, in the registry as [setup]
    left it, and the tables rebuilt. *)
Theorem register_throws_or_stores
    (behaviour : PluginRegistry.Behaviour Renderer Style NodeRef World)
    plugin (replace : bool) st w :
  let n := PluginRegistry.name plugin in
  let collision := PluginRegistry.has n st && negb replace in
  let r := PluginRegistry.register behaviour plugin replace st w in
  ((exists msg, r.1.1 = Thrown msg)
     <-> (collision = true
          \/ (collision = false
              /\ exists f msg st1 w1, PluginRegistry.setup plugin = Some f
                   /\ behaviour f st w = PluginRegistry.Throws msg st1 w1)))
  /\ (collision = true ->
        r = (Thrown (PluginRegistry.already_registered n), st, w))
  /\ (r.1.1 = Normal tt ->
        collision = false
        /\ (exists st1,
              match PluginRegistry.setup plugin with
              | Some f => behaviour f st w = PluginRegistry.Returns st1 r.2
              | None => st1 = st /\ r.2 = w
              end
              /\ PluginRegistry.plugins r.1.2
                 = JsMap.set n plugin (PluginRegistry.plugins st1))
        /\ r.1.2 = PluginRegistry.rebuildState r.1.2).
Proof.
  intros n collision r. subst r. unfold PluginRegistry.register.
  fold n. fold (PluginRegistry.has n st). fold collision.
  destruct collision eqn:Hc.
  - simpl. split; [|by auto]. split; [by auto|]. intros _. by eexists.
  - unfold PluginRegistry.call.
    destruct (PluginRegistry.setup plugin) as [f|].
    + destruct (behaviour f st w) as [st1 w1|msg st1 w1] eqn:Hf; simpl.
      * split; [split|split].
        -- by intros [? ?].
        -- intros [?|(_ & f' & msg & st2 & w2 & [= <-] & Hthrow)]; [done|congruence].
        -- done.
        -- intros _. split; [done|]. split; [|done]. by exists st1.
      * split; [split|split]; try done.
        -- intros _. right. split; [done|]. by exists f, msg, st1, w1.
        -- intros _. by eexists.
    + simpl. split; [split|split]; try done.
      * by intros [? ?].
      * intros [?|(_ & f' & msg & st2 & w2 & ? & _)]; done.
      * intros _. split; [done|]. split; [|done]. by exists st.
Qed.
End Register.

(** C7 (as stated, refuted). A plugin whose [setup] throws makes
    [register] throw although no plugin of that name is stored: the
    equivalence "throws iff the name is stored and [replace] is off" fails
    on the empty registry. *)
Lemma register_throws_without_collision :
  ~ throws_iff_collision sample_behaviour
      (sample_plugin "video" None [] (Some 1%nat))
      false PluginRegistry.empty_state [].
Proof.
  unfold throws_iff_collision. intros [Hthrows _].
  destruct Hthrows as [Hhas _]; [by eexists|]. done.
Qed.

(** ** Style resolver: precedence and the custom flag *)

Section Resolver.
Context `{JsNumber}.
Implicit Types (config : StyleResolverConfig) (node : ElementNode)
  (l : list (gmap string StyleValue)) (k : string).







Local Arguments parseInlineStyle : simpl never.
Local Arguments getDefaultTagStyle : simpl never.
Local Arguments has_keys : simpl never.

End Resolver.

Section ResolverClaims.
Context `{JsNumber}.
Local Arguments parseInlineStyle : simpl never.
Local Arguments has_keys : simpl never.
Implicit Types (config : StyleResolverConfig) (node : ElementNode) (k : string).


End ResolverClaims.

(** C1 (failing input). On an anchor of class [hl], with the user tag
    colour red and the class colour blue: with the inline style
    [color: green] the colour is green, and with an inline style that
    declares no colour it is the class colour, blue, as the declaration of
    an unsupported property such as [float: left] is skipped.  But with
    the inline style [constructor: red] the resolver throws a
    [TypeError]: the lookup of the property in the translation table finds
    [Object.prototype.constructor], which is then taken for the name of a
    colour property. *)
Theorem resolveStyle_throws_on_inherited_property :
  let numbers := exact_numbers in
  let config := sample_config [("a", [("color", VStr "red")])]
                              [("hl", [("color", VStr "blue")])] in
  let anchor css :=
    sample_element 0%nat "a" [("class", "hl"); ("style", css)] (Some ["hl"]) [] None in
  let color css := resolved_key "color" (resolveStyle config (anchor css)) in
  color "color: green" = Normal (Some (VStr "green"))
  /\ color "float: left" = Normal (Some (VStr "blue"))
  /\ color "constructor: red" = Thrown "property.toLowerCase is not a function"
  /\ color "color: green; constructor: red"
     = Thrown "property.toLowerCase is not a function"
  /\ parseInlineStyle (Some "float: left") = Normal ∅
  /\ parseInlineStyle (Some "constructor: red")
     = Thrown "property.toLowerCase is not a function".
Proof. repeat split. Qed.

(** C9 (failing input). With the user tag styles [{p: {}}] a [p] element
    gets [hasCustomStyles = true] although the only object the custom
    tiers contributed is empty, and the style is what it is without any
    user style; the equivalence of the specification fails there.  So it
    is with an empty entry for a class of the node.  The inline tier
    tests for keys, as the base and default tiers do: a style attribute
    that parses to an empty object does not raise the flag.  The tag and
    class tiers also take what a plain object inherits for an entry: a
    [constructor] element, or the class [toString], raises the flag
    without any user style. *)
Theorem hasCustomStyles_with_empty_tag_style :
  let numbers := exact_numbers in
  let element tag attrs classes := sample_element 0%nat tag attrs classes [] None in
  let empty_tag := sample_config [("p", [])] [] in
  let empty_class := sample_config [] [("hl", [])] in
  custom_flag (resolveStyle empty_tag (element "p" [] None)) = Normal true
  /\ custom_contributions empty_tag (element "p" [] None) ∅ = [∅]
  /\ resolved_key "marginVertical" (resolveStyle empty_tag (element "p" [] None))
     = resolved_key "marginVertical" (resolveStyle default_config (element "p" [] None))
  /\ custom_flag (resolveStyle default_config (element "p" [] None)) = Normal false
  /\ custom_flag
       (resolveStyle empty_class (element "p" [("class", "hl")] (Some ["hl"])))
     = Normal true
  /\ custom_flag
       (resolveStyle default_config (element "p" [("style", "float: left")] None))
     = Normal false
  /\ custom_flag (resolveStyle default_config (element "constructor" [] None))
     = Normal true
  /\ custom_flag
       (resolveStyle default_config
          (element "p" [("class", "toString")] (Some ["toString"])))
     = Normal true
  /\ ~ custom_iff_nonempty_contribution empty_tag (element "p" [] None).
Proof.
  intros numbers element empty_tag empty_class.
  do 8 (split; [reflexivity|]).
  unfold custom_iff_nonempty_contribution. intros [Hthen _].
  destruct Hthen as (parsed & s & Hparsed & Hin & Hne); [reflexivity|].
  injection Hparsed as <-.
  change (s ∈ [(∅ : gmap string StyleValue)]) in Hin.
  apply list_elem_of_singleton in Hin. contradiction.
Qed.

(** ** Strings *)

Section StringFacts.
Implicit Types (s t : string) (c : ascii).

Lemma app_cons c s t : String c s +:+ t = String c (s +:+ t).
Proof. reflexivity. Qed.

Lemma lower_char_idempotent c : lower_char (lower_char c) = lower_char c.
Proof. destruct c as [[] [] [] [] [] [] [] []]; reflexivity. Qed.

Lemma toLowerCase_idempotent s : toLowerCase (toLowerCase s) = toLowerCase s.
Proof.
  induction s as [|c s IH]; [done|]. cbn [toLowerCase].
  by rewrite lower_char_idempotent, IH.
Qed.

Lemma app_empty_l t : "" +:+ t = t.
Proof. reflexivity. Qed.

Lemma app_empty_r s : s +:+ "" = s.
Proof. induction s as [|c s IH]; [done|]. by rewrite app_cons, IH. Qed.

Lemma app_assoc_str s t u : (s +:+ t) +:+ u = s +:+ (t +:+ u).
Proof. induction s as [|c s IH]; [done|]. by rewrite !app_cons, IH. Qed.

Lemma lacks_cons c c' s : lacks c (String c' s) <-> c' <> c /\ lacks c s.
Proof.
  unfold lacks. simpl. destruct (Ascii.eqb_spec c' c) as [->|Hne].
  - split; [done|]. by intros [? _].
  - destruct (indexOf c s); simpl; split; try done. by intros [_ ?].
Qed.

Lemma lacks_app c s t : lacks c s -> lacks c t -> lacks c (s +:+ t).
Proof.
  induction s as [|c' s IH]; [done|]. rewrite app_cons, !lacks_cons.
  intros [Hne Hs] Ht. split; [done|]. by apply IH.
Qed.

Lemma split_lacks c s : lacks c s -> split c s = [s].
Proof.
  induction s as [|c' s IH]; [done|]. rewrite lacks_cons. intros [Hne Hs].
  simpl. destruct (Ascii.eqb_spec c' c); [done|]. by rewrite IH.
Qed.

Lemma indexOf_first c s t :
  lacks c s -> indexOf c (s +:+ String c t) = Some (String.length s).
Proof.
  induction s as [|c' s IH].
  - intros _. change (indexOf c (String c t) = Some 0%nat).
    simpl. by rewrite Ascii.eqb_refl.
  - rewrite lacks_cons. intros [Hne Hs]. rewrite app_cons. simpl.
    destruct (Ascii.eqb_spec c' c); [done|]. by rewrite IH.
Qed.

Lemma str_take_app s t : str_take (String.length s) (s +:+ t) = s.
Proof.
  induction s as [|c s IH].
  - rewrite app_empty_l. by destruct t.
  - rewrite app_cons. simpl. by rewrite IH.
Qed.

Lemma str_drop_app s c t : str_drop (S (String.length s)) (s +:+ String c t) = t.
Proof. induction s as [|c' s IH]; [done|]. by rewrite app_cons. Qed.

Lemma solid_cons c s : solid (String c s) <-> is_whitespace c = false /\ solid s.
Proof.
  unfold solid. simpl. rewrite andb_true_iff, negb_true_iff. done.
Qed.

Lemma solid_app s t : solid s -> solid t -> solid (s +:+ t).
Proof.
  induction s as [|c s IH]; [done|]. rewrite app_cons, !solid_cons.
  intros [Hc Hs] Ht. split; [done|]. by apply IH.
Qed.

Lemma trimEnd_solid s : solid s -> trimEnd s = s.
Proof.
  induction s as [|c s IH]; [done|]. rewrite solid_cons. intros [Hc Hs].
  simpl. rewrite IH by done. rewrite Hc. by destruct s.
Qed.

Lemma trim_solid s : solid s -> trim s = s.
Proof.
  intros Hs. unfold trim.
  assert (trimStart s = s) as ->; [|by apply trimEnd_solid].
  destruct s as [|c s]; [done|]. apply solid_cons in Hs as [Hc _].
  simpl. by rewrite Hc.
Qed.

Lemma trim_space_solid s : solid s -> trim (String " " s) = s.
Proof.
  intros Hs. unfold trim. simpl. by apply (trim_solid s).
Qed.
End StringFacts.

(** *** White space *)

Section WhitespaceFacts.
Implicit Types (s : string) (c : ascii).

Lemma trimStart_empty s : trimStart s = "" <-> isWhitespaceOnly s = true.
Proof.
  induction s as [|c s IH]; simpl; [done|].
  destruct (is_whitespace c); simpl; [done|]. split; done.
Qed.

Lemma trimEnd_empty s : trimEnd s = "" <-> isWhitespaceOnly s = true.
Proof.
  induction s as [|c s IH]; simpl; [done|].
  destruct (trimEnd s) eqn:Hs.
  - destruct (is_whitespace c); simpl.
    + split; [intros _; by apply IH|done].
    + split; done.
  - split; [done|]. intros [_ Hw]%andb_true_iff. apply IH in Hw. done.
Qed.

Lemma whitespaceOnly_trimStart s :
  isWhitespaceOnly (trimStart s) = isWhitespaceOnly s.
Proof.
  induction s as [|c s IH]; simpl; [done|].
  destruct (is_whitespace c) eqn:Hc; simpl; [done|]. by rewrite Hc.
Qed.

Lemma whitespaceOnly_trimEnd s :
  isWhitespaceOnly (trimEnd s) = isWhitespaceOnly s.
Proof.
  induction s as [|c s IH]; simpl; [done|].
  destruct (trimEnd s) eqn:Hs.
  - assert (isWhitespaceOnly s = true) as -> by by apply trimEnd_empty.
    destruct (is_whitespace c) eqn:Hc; simpl; [done|]. by rewrite Hc.
  - simpl in *. by rewrite IH.
Qed.

(** "Empty after trimming" is "white space only". *)
Lemma trim_empty s : String.eqb (trim s) "" = isWhitespaceOnly s.
Proof.
  unfold trim. destruct (isWhitespaceOnly s) eqn:Hs.
  - apply String.eqb_eq, trimEnd_empty. by rewrite whitespaceOnly_trimStart.
  - apply String.eqb_neq. intros Ht%trimEnd_empty.
    rewrite whitespaceOnly_trimStart in Ht. congruence.
Qed.

Lemma nonempty_false s : nonempty s = false <-> s = "".
Proof. by destruct s. Qed.

Lemma nonempty_true s : nonempty s = true <-> s <> "".
Proof. by destruct s. Qed.
End WhitespaceFacts.

(** ** Style value translator: unit conversion *)

Section UnitConversion.
Context `{JsNumber}.
Implicit Types (s t text unit property rn : string) (c : ascii).

Lemma table_lookup_In {V} (table : list (string * V)) k v :
  table_lookup table k = Some v -> In (k, v) table.
Proof.
  induction table as [|[k' v'] table IH]; simpl; [done|].
  destruct (String.eqb_spec k k') as [->|]; [|by auto].
  intros [= ->]. by left.
Qed.

Lemma table_keys_plain : forallb plain_key CSS_TO_RN_TABLE = true.
Proof. vm_compute. reflexivity. Qed.

Lemma property_of_Own {A} (own : option A) key a :
  property_of own key = Own a <-> own = Some a.
Proof.
  unfold property_of. destruct own; [split; by intros [= ->]|].
  by destruct (is_member key).
Qed.

Lemma recognized_plain property rn :
  CSS_TO_RN_MAP property = Own rn ->
  property <> "" /\ lacks ":" property /\ lacks ";" property /\ solid property
  /\ toLowerCase property = property /\ rn <> "font-weight".
Proof.
  intros Hin%property_of_Own%table_lookup_In.
  pose proof table_keys_plain as Hall. rewrite forallb_forall in Hall.
  specialize (Hall _ Hin). unfold plain_key in Hall. simpl in Hall.
  repeat (apply andb_true_iff in Hall as [Hall ?]).
  repeat split.
  - by destruct property.
  - by apply bool_decide_eq_true in H4.
  - by apply bool_decide_eq_true in H3.
  - done.
  - by apply String.eqb_eq.
  - apply negb_true_iff in H0. by apply String.eqb_neq.
Qed.

(** Digits and dots are neither separators nor white space nor letters. *)
Lemma digit_or_dot_plain c :
  is_digit_or_dot c = true ->
  c <> ":"%char /\ c <> ";"%char /\ is_whitespace c = false
  /\ Ascii.eqb c "-" = false /\ Ascii.eqb c "i" = false /\ Ascii.eqb c "u" = false.
Proof. destruct c as [[] [] [] [] [] [] [] []]; by vm_compute. Qed.

Lemma digits_or_dots_plain s :
  all_digits_or_dots s = true -> lacks ":" s /\ lacks ";" s /\ solid s.
Proof.
  induction s as [|c s IH]; [done|]. simpl.
  intros [Hc Hs]%andb_true_iff. destruct (IH Hs) as (? & ? & ?).
  destruct (digit_or_dot_plain c Hc) as (? & ? & ? & _).
  rewrite !lacks_cons, solid_cons. done.
Qed.

Lemma numeric_text_plain text :
  is_numeric_text text = true -> lacks ":" text /\ lacks ";" text /\ solid text.
Proof.
  destruct text as [|c body]; [done|]. simpl.
  destruct (Ascii.eqb_spec c "-") as [->|Hc].
  - intros [_ Hb]%andb_true_iff. destruct (digits_or_dots_plain _ Hb) as (? & ? & ?).
    rewrite !lacks_cons, solid_cons. done.
  - intros Hb. by apply (digits_or_dots_plain (String c body)).
Qed.

Lemma unit_plain unit :
  In unit UNITS ->
  unit <> "" /\ lacks ":" unit /\ lacks ";" unit /\ solid unit
  /\ span_numeric unit = ("", unit).
Proof.
  simpl. intros Hin. repeat destruct Hin as [<-|Hin]; try done.
Qed.

Lemma span_numeric_app body rest :
  all_digits_or_dots body = true -> span_numeric rest = ("", rest) ->
  span_numeric (body +:+ rest) = (body, rest).
Proof.
  intros Hb Hrest. induction body as [|c body IH]; [done|].
  simpl in Hb. apply andb_true_iff in Hb as [Hc Hb].
  rewrite app_cons. simpl. rewrite Hc, IH; done.
Qed.

Lemma numericMatch_unit text unit :
  is_numeric_text text = true -> In unit UNITS ->
  numericMatch (text +:+ unit) = Some (text, Some unit).
Proof.
  intros Htext Hunit. destruct (unit_plain unit Hunit) as (Hne & _ & _ & _ & Hspan).
  assert (existsb (String.eqb unit) UNITS = true) as Hknown.
  { apply existsb_exists. exists unit. split; [done|apply String.eqb_refl]. }
  destruct text as [|c body]; [done|]. simpl in Htext.
  unfold numericMatch. rewrite app_cons.
  destruct (Ascii.eqb c "-") eqn:Hc.
  - apply Ascii.eqb_eq in Hc as ->. apply andb_true_iff in Htext as [Hbody Hdigits].
    rewrite (span_numeric_app body unit Hdigits Hspan).
    destruct body as [|c' body']; [done|]. destruct unit; [done|].
    by rewrite Hknown.
  - rewrite <- app_cons, (span_numeric_app (String c body) unit Htext Hspan).
    destruct unit; [done|]. by rewrite Hknown.
Qed.

Lemma numeric_text_not_keyword text unit :
  is_numeric_text text = true ->
  existsb (String.eqb (text +:+ unit)) ["inherit"; "initial"; "unset"] = false.
Proof.
  destruct text as [|c body]; [done|]. rewrite app_cons.
  intros Htext. simpl in Htext.
  destruct (Ascii.eqb_spec c "-") as [->|Hc]; [done|].
  apply andb_true_iff in Htext as [Hd _].
  destruct (digit_or_dot_plain c Hd) as (_ & _ & _ & _ & Hi & Hu).
  simpl. by rewrite Hi, Hu.
Qed.

(** The value translation of a numeric text with a unit, for every
    property but [fontWeight]. *)
Lemma parseValue_unit text unit rn :
  is_numeric_text text = true -> In unit UNITS ->
  rn <> "fontWeight" -> rn <> "font-weight" ->
  parseValue (text +:+ unit) (Own rn) = Normal (Some (converted unit (parseFloat text))).
Proof.
  intros Htext Hunit Hrn1 Hrn2. unfold parseValue, is_name.
  destruct (numeric_text_plain text Htext) as (_ & _ & Hsolid).
  destruct (unit_plain unit Hunit) as (_ & _ & _ & Husolid & _).
  rewrite (trim_solid _ (solid_app _ _ Hsolid Husolid)).
  rewrite (numeric_text_not_keyword _ _ Htext).
  apply String.eqb_neq in Hrn1, Hrn2. rewrite Hrn1, Hrn2. simpl.
  rewrite (numericMatch_unit _ _ Htext Hunit).
  simpl in Hunit. by repeat destruct Hunit as [<-|Hunit].
Qed.

Lemma indexOf_not_blank c s i :
  is_whitespace c = false -> indexOf c s = Some i -> isWhitespaceOnly s = false.
Proof.
  intros Hc. revert i. induction s as [|c' s IH]; intros i; simpl; [done|].
  destruct (Ascii.eqb_spec c' c) as [->|Hne].
  - intros _. by rewrite Hc.
  - destruct (indexOf c s) as [j|]; [|done]. intros _.
    rewrite (IH j eq_refl). apply andb_false_r.
Qed.

(** Any one declaration of a recognized property other than
    [font-weight] whose value is a numeric text with a unit translates to
    the single attribute [rn] with the converted value. *)
Lemma parseInlineStyle_declares d property rn text unit :
  CSS_TO_RN_MAP property = Own rn -> rn <> "fontWeight" ->
  is_numeric_text text = true -> In unit UNITS ->
  declares d property (text +:+ unit) ->
  parseInlineStyle (Some d) = Normal {[ rn := converted unit (parseFloat text) ]}.
Proof.
  intros Hmap Hrn Htext Hunit (Hsemi & i & Hcolon & Hprop & Hvalue).
  destruct (recognized_plain _ _ Hmap) as (Hpne & _ & _ & _ & _ & Hrn').
  unfold parseInlineStyle.
  assert (nonempty d = true) as Hne by by destruct d.
  rewrite Hne, trim_empty, (indexOf_not_blank ":" d i eq_refl Hcolon). simpl.
  rewrite (split_lacks _ _ Hsemi).
  rewrite filter_cons_True by done. rewrite filter_nil. simpl.
  unfold parseDeclaration. rewrite Hcolon, Hprop, Hvalue.
  assert (nonempty property = true) as -> by by destruct property.
  assert (nonempty (text +:+ unit) = true) as -> by by destruct text.
  simpl. rewrite Hmap.
  rewrite (parseValue_unit _ _ _ Htext Hunit Hrn Hrn').
  by rewrite insert_empty.
Qed.

(** [property: <text><unit>] is such a declaration. *)
Lemma declaration_of_declares property rn text unit :
  CSS_TO_RN_MAP property = Own rn ->
  is_numeric_text text = true -> In unit UNITS ->
  declares (declaration_of property text unit) property (text +:+ unit).
Proof.
  intros Hmap Htext Hunit. unfold declares, declaration_of.
  destruct (recognized_plain _ _ Hmap) as (Hpne & Hpc & Hps & Hpsolid & Hplow & _).
  destruct (numeric_text_plain text Htext) as (Htc & Hts & Htsolid).
  destruct (unit_plain unit Hunit) as (_ & Huc & Hus & Husolid & _).
  set (value := text +:+ unit).
  assert (solid value) as Hvsolid by by apply solid_app.
  split.
  - apply lacks_app; [done|]. rewrite !app_cons, app_empty_l, !lacks_cons.
    split; [done|]. split; [done|]. by apply lacks_app.
  - exists (String.length property).
    change (property +:+ ": " +:+ value)
      with (property +:+ String ":" (String " " value)).
    rewrite (indexOf_first _ _ _ Hpc), str_take_app, str_drop_app.
    by rewrite (trim_solid _ Hpsolid), Hplow, (trim_space_solid _ Hvsolid).
Qed.

Lemma parseInlineStyle_unit property rn text unit :
  CSS_TO_RN_MAP property = Own rn -> rn <> "fontWeight" ->
  is_numeric_text text = true -> In unit UNITS ->
  converts_unit property rn text unit.
Proof.
  intros Hmap Hrn Htext Hunit. unfold converts_unit.
  apply (parseInlineStyle_declares _ property); try done.
  by apply (declaration_of_declares property rn).
Qed.
End UnitConversion.

(** C8 (as amended). For every recognized property other than
    [font-weight], and every numeric text, a declaration of that property
    whose value is the text followed by a unit (however it is padded with
    white space or capitalized, and in particular the declaration
    [property: <text><unit>]) translates to the single attribute the
    property maps to, with value: the number itself for [px]; the number
    times 16 for [em] and [rem]; the number times 1.333 for [pt]; and the
    string made of the number and a percent sign for [%], [vh] and [vw].
    With exact arithmetic, ['margin: 10px'] gives [{margin: 10}] and
    ['font-size: 1em'] gives [{fontSize: 16}]. *)
Theorem unit_suffix_conversion `{JsNumber} (property rn text : string) :
  CSS_TO_RN_MAP property = Own rn ->
  rn <> "fontWeight" ->
  is_numeric_text text = true ->
  let n := parseFloat text in
  let parsed unit := parseInlineStyle (Some (declaration_of property text unit)) in
  (forall d unit, In unit UNITS -> declares d property (text +:+ unit) ->
     parseInlineStyle (Some d) = Normal {[ rn := converted unit n ]})
  /\ parsed "px" = Normal {[ rn := VNum n ]}
  /\ parsed "em" = Normal {[ rn := VNum (num_mul n (num_of_Z 16)) ]}
  /\ parsed "rem" = Normal {[ rn := VNum (num_mul n (num_of_Z 16)) ]}
  /\ parsed "pt" = Normal {[ rn := VNum (num_mul n num_1_333) ]}
  /\ parsed "%" = Normal {[ rn := VStr (num_to_string n +:+ "%") ]}
  /\ parsed "vh" = Normal {[ rn := VStr (num_to_string n +:+ "%") ]}
  /\ parsed "vw" = Normal {[ rn := VStr (num_to_string n +:+ "%") ]}
  /\ parseInlineStyle (H := exact_numbers) (Some "margin: 10px")
     = Normal {[ "margin" := VInt (H := exact_numbers) 10 ]}
  /\ parseInlineStyle (H := exact_numbers) (Some "font-size: 1em")
     = Normal {[ "fontSize" := VInt (H := exact_numbers) 16 ]}.
Proof.
  intros Hmap Hrn Htext n parsed.
  assert (forall unit, In unit UNITS -> converts_unit property rn text unit) as Hall.
  { intros unit Hunit. by apply parseInlineStyle_unit. }
  split; [intros d unit Hunit Hd; by apply (parseInlineStyle_declares d property)|].
  do 7 (split; [apply Hall; simpl; tauto|]). split.
  - apply (parseInlineStyle_unit (H := exact_numbers) "margin" "margin" "10" "px");
      [reflexivity|discriminate|reflexivity|simpl; tauto].
  - apply (parseInlineStyle_unit (H := exact_numbers) "font-size" "fontSize" "1" "em");
      [reflexivity|discriminate|reflexivity|simpl; tauto].
Qed.

(** The conversions of [width: 2.5<unit>] in exact arithmetic. *)
Lemma unit_suffix_conversion_witness :
  let H := exact_numbers in
  let n := parseFloat "2.5" in
  let parsed unit := parseInlineStyle (Some (declaration_of "width" "2.5" unit)) in
  (forall d unit, In unit UNITS -> declares d "width" ("2.5" +:+ unit) ->
     parseInlineStyle (Some d) = Normal {[ "width" := converted unit n ]})
  /\ parsed "px" = Normal {[ "width" := VNum n ]}
  /\ parsed "em" = Normal {[ "width" := VNum (num_mul n (num_of_Z 16)) ]}
  /\ parsed "rem" = Normal {[ "width" := VNum (num_mul n (num_of_Z 16)) ]}
  /\ parsed "pt" = Normal {[ "width" := VNum (num_mul n num_1_333) ]}
  /\ parsed "%" = Normal {[ "width" := VStr (num_to_string n +:+ "%") ]}
  /\ parsed "vh" = Normal {[ "width" := VStr (num_to_string n +:+ "%") ]}
  /\ parsed "vw" = Normal {[ "width" := VStr (num_to_string n +:+ "%") ]}
  /\ parseInlineStyle (H := exact_numbers) (Some "margin: 10px")
     = Normal {[ "margin" := VInt (H := exact_numbers) 10 ]}
  /\ parseInlineStyle (H := exact_numbers) (Some "font-size: 1em")
     = Normal {[ "fontSize" := VInt (H := exact_numbers) 16 ]}.
Proof.
  apply (unit_suffix_conversion (H := exact_numbers) "width" "width" "2.5");
    [reflexivity | discriminate | reflexivity].
Defined.

(** C8 (as stated, refuted). [font-weight] is a recognized property, and
    ['font-weight: 10px'] does not yield the number 10: the value goes
    through the font-weight table and comes back as the string ['10px']. *)
Lemma font_weight_keeps_its_unit :
  ~ converts_unit (H := exact_numbers) "font-weight" "fontWeight" "10" "px".
Proof.
  unfold converts_unit. intros Heq.
  apply (f_equal (resolved_lookup "fontWeight")) in Heq.
  change (Some (VStr (H := exact_numbers) "10px")
          = Some (VNum (H := exact_numbers) (EVal (inject_Z 10)))) in Heq.
  discriminate.
Qed.

(** Values of the exact number model on the examples of the
    specification. *)
Example exact_numbers_examples :
  exact_parseFloat "10" = EVal (inject_Z 10)
  /\ exact_mul (exact_parseFloat "1") (EVal (inject_Z 16)) = EVal (inject_Z 16)
  /\ exact_to_string (exact_parseFloat "50") = "50"
  /\ exact_to_string (exact_parseFloat "2.5") = "2.5"
  /\ exact_to_string (exact_mul (exact_parseFloat "3") (EVal (Qmake 1333 1000))) = "3.999"
  /\ exact_parseFloat "." = ENaN
  /\ parseInlineStyle (H := exact_numbers) (Some "opacity: 50%")
     = Normal {[ "opacity" := VStr "50%" ]}
  /\ parseInlineStyle (H := exact_numbers) (Some "color: red; float: left")
     = Normal {[ "color" := VStr "red" ]}
  /\ parseInlineStyle (H := exact_numbers) (Some "  MARGIN :  10px ;")
     = Normal {[ "margin" := VInt (H := exact_numbers) 10 ]}
  /\ parseInlineStyle (H := exact_numbers) (Some "font-weight: bolder; font-weight: 10px")
     = Normal {[ "fontWeight" := VStr "10px" ]}
  /\ parseInlineStyle (H := exact_numbers) (Some "font-weight: inherit") = Normal ∅
  /\ parseInlineStyle (H := exact_numbers) (Some "font-weight: valueOf")
     = Normal {[ "fontWeight" := VMember "valueOf" ]}
  /\ parseInlineStyle (H := exact_numbers) (Some "constructor: 10px")
     = Normal {[ "function Object() { [native code] }" := VInt (H := exact_numbers) 10 ]}
  /\ parseInlineStyle (H := exact_numbers) (Some "__proto__: 2em")
     = Normal {[ "[object Object]" := VInt (H := exact_numbers) 32 ]}
  /\ parseInlineStyle (H := exact_numbers) (Some "constructor: inherit") = Normal ∅
  /\ parseInlineStyle (H := exact_numbers) (Some "color: red; constructor: red")
     = Thrown "property.toLowerCase is not a function".
Proof. repeat split. Qed.

(** ** Markup parser: post-processing *)

Section PostProcess.
Context `{JsNumber}.
Implicit Types (n x : HtmlNode) (l result : list HtmlNode).

(** An induction principle that reaches the children of an element. *)
Lemma HtmlNode_nested_ind (P : HtmlNode -> Prop) :
  (forall e, Forall P (children e) -> P (NodeElement e)) ->
  (forall t, P (NodeText t)) ->
  (forall c, P (NodeComment c)) ->
  forall n, P n.
Proof.
  intros He Ht Hc. fix IH 1. intros [e|t|c]; [|apply Ht|apply Hc].
  apply He. destruct e as [r k tag attrs kids p cls st]. simpl.
  induction kids as [|kid kids IHkids]; constructor; [apply IH|exact IHkids].
Qed.

Lemma has_adjacent_snoc l x :
  has_adjacent_texts (l ++ [x])
  = has_adjacent_texts l || (ends_with_text l && isTextNode x).
Proof.
  induction l as [|a l IH]; [by destruct x|].
  destruct l as [|b l].
  - by destruct a, x.
  - change ((a :: b :: l) ++ [x]) with (a :: (b :: l) ++ [x]).
    assert (ends_with_text (a :: b :: l) = ends_with_text (b :: l)) as -> by done.
    destruct a, b; simpl in *; done.
Qed.

Lemma ends_with_text_snoc l x : ends_with_text (l ++ [x]) = isTextNode x.
Proof. unfold ends_with_text. rewrite last_snoc. by destruct x. Qed.

Lemma blank_text_spec t :
  blank_text (Some (NodeText t)) = isWhitespaceOnly (content t).
Proof. apply trim_empty. Qed.

Lemma postProcess_step_invariant result x :
  loop_invariant result -> clean_tree (postProcess_children x) = true ->
  loop_invariant (postProcess_step postProcess_children result x).
Proof.
  intros [Hadj Hclean] Hx. unfold postProcess_step, loop_invariant.
  assert (isTextNode (postProcess_children x) = isTextNode x) as Hkind
    by by destruct x.
  assert (ends_with_text result && isTextNode x = false ->
          loop_invariant (result ++ [postProcess_children x])) as Hpush.
  { intros Hends. split.
    - by rewrite has_adjacent_snoc, Hadj, Hkind, Hends.
    - rewrite forallb_app, Hclean. simpl. by rewrite Hx. }
  destruct x as [e|t|c]; [apply Hpush, andb_false_r| |apply Hpush, andb_false_r].
  destruct (last result) as [[e'|prev|c']|] eqn:Hlast;
    try (apply Hpush; unfold ends_with_text; by rewrite Hlast).
  apply last_Some in Hlast as [rl ->]. rewrite removelast_last.
  rewrite has_adjacent_snoc in Hadj. apply orb_false_iff in Hadj as [Hrl Hends].
  rewrite forallb_app in Hclean. apply andb_true_iff in Hclean as [Hcl _].
  split.
  - rewrite has_adjacent_snoc, Hrl. simpl in *. done.
  - rewrite forallb_app, Hcl. done.
Qed.

Lemma postProcess_loop_invariant l result :
  Forall (fun x => clean_tree (postProcess_children x) = true) l ->
  loop_invariant result ->
  loop_invariant (fold_left (postProcess_step postProcess_children) l result).
Proof.
  intros Hl. revert result. induction Hl as [|x l Hx Hl IH]; intros result Hinv.
  - done.
  - simpl. apply IH. by apply postProcess_step_invariant.
Qed.

Lemma trim_first_clean result :
  loop_invariant result ->
  loop_invariant (trim_first result) /\ blank_text (head (trim_first result)) = false.
Proof.
  intros [Hadj Hclean]. unfold trim_first, loop_invariant.
  destruct result as [|[e|first|c] rest]; try done.
  destruct (nonempty (trimStart (content first))) eqn:Hne.
  - split; [split|].
    + by destruct rest as [|[] ?].
    + done.
    + change (head (?x :: rest)) with (Some x). rewrite blank_text_spec. simpl.
      rewrite whitespaceOnly_trimStart.
      destruct (isWhitespaceOnly (content first)) eqn:Hw; [|done].
      apply trimStart_empty in Hw. rewrite Hw in Hne. done.
  - simpl in Hclean. split; [split|]; [|done|]; by destruct rest as [|[] ?].
Qed.

Lemma trim_last_clean result :
  loop_invariant result -> blank_text (head result) = false ->
  loop_invariant (trim_last result)
  /\ blank_text (head (trim_last result)) = false
  /\ blank_text (last (trim_last result)) = false.
Proof.
  intros [Hadj Hclean] Hhead. unfold trim_last, loop_invariant.
  destruct (last result) as [[e|final|c]|] eqn:Hlast;
    try (rewrite Hlast; done).
  apply last_Some in Hlast as [rl ->]. rewrite removelast_last.
  rewrite has_adjacent_snoc in Hadj. apply orb_false_iff in Hadj as [Hrl Hends].
  rewrite andb_true_r in Hends.
  rewrite forallb_app in Hclean. apply andb_true_iff in Hclean as [Hcl _].
  destruct (nonempty (trimEnd (content final))) eqn:Hne.
  - assert (isWhitespaceOnly (trimEnd (content final)) = false) as Hw.
    { rewrite whitespaceOnly_trimEnd.
      destruct (isWhitespaceOnly (content final)) eqn:Hw; [|done].
      apply trimEnd_empty in Hw. rewrite Hw in Hne. done. }
    split; [split|split].
    + by rewrite has_adjacent_snoc, Hrl, Hends.
    + by rewrite forallb_app, Hcl.
    + destruct rl as [|a rl]; [|done].
      change (head ([] ++ [?x])) with (Some x). by rewrite blank_text_spec.
    + rewrite last_snoc. by rewrite blank_text_spec.
  - split; [done|]. split.
    + destruct rl as [|a rl]; done.
    + unfold ends_with_text in Hends. by destruct (last rl) as [[]|].
Qed.

Lemma postProcess_with_clean l :
  Forall (fun x => clean_tree (postProcess_children x) = true) l ->
  clean_list (postProcess_with postProcess_children l) = true
  /\ forallb clean_tree (postProcess_with postProcess_children l) = true.
Proof.
  intros Hl. unfold postProcess_with.
  pose proof (postProcess_loop_invariant l [] Hl (conj eq_refl eq_refl)) as Hloop.
  destruct (trim_first_clean _ Hloop) as [Hfirst Hhead].
  destruct (trim_last_clean _ Hfirst Hhead) as ([Hadj Hclean] & Hhead' & Hlast').
  unfold clean_list. by rewrite Hadj, Hhead', Hlast', Hclean.
Qed.

Lemma postProcess_children_clean n : clean_tree (postProcess_children n) = true.
Proof.
  induction n as [e IH|t|c] using HtmlNode_nested_ind; [|done|done].
  simpl. destruct (postProcess_with_clean (children e) IH) as [-> ->]. done.
Qed.

(** [postProcess] leaves every array of the tree clean, the top-level one
    included. *)
Lemma postProcess_clean l :
  clean_list (postProcess l) = true /\ forallb clean_tree (postProcess l) = true.
Proof.
  apply postProcess_with_clean, Forall_forall.
  intros x _. apply postProcess_children_clean.
Qed.
End PostProcess.

(** ** Markup parser: [parseHtml] *)

Section ParseHtml.
Context `{JsNumber}.
Variable htmlparser2 : string -> option bool -> ParserRun.
Implicit Types (html : string) (options : ParserOptions) (st : ParserState).

Lemma handler_errors options cs ns es st :
  (fold_left (handler_callback options) cs (ns, es, st)).1.2
  = es ++ callback_errors cs.
Proof.
  revert ns es st. induction cs as [|call cs IH]; intros ns es st; simpl.
  - by rewrite app_nil_r.
  - destruct call as [msg|dom]; simpl.
    + rewrite IH. by rewrite <- app_assoc.
    + destruct (convert_each _ dom st) as [converted st']. by rewrite IH.
Qed.

(** C3 (as amended). When white-space normalization is enabled (the
    default) and the tokenizer run ends without an exception, [parseHtml]
    returns a tree in which no [children] array, and not the top-level
    array either, holds two consecutive text nodes or begins or ends with
    a text node that is empty after trimming. *)
Theorem parseHtml_text_invariants html options st :
  let mergedOptions := merge_options DEFAULT_OPTIONS options in
  enabled (normalizeWhitespace mergedOptions) = true ->
  thrown (htmlparser2 html (decodeEntities mergedOptions)) = None ->
  exists result st',
    parseHtml htmlparser2 html options st = (Normal result, st')
    /\ forallb clean_tree (nodes result) = true
    /\ clean_list (nodes result) = true.
Proof.
  intros mergedOptions Hnorm Hrun. unfold parseHtml. fold mergedOptions.
  rewrite Hrun, Hnorm.
  destruct (fold_left _ _ _) as [[ns es] st'].
  eexists _, _. split; [done|]. simpl.
  destruct (postProcess_clean ns) as [Hlist Htree]. done.
Qed.

(** C4. [parseHtml] always returns a record and never throws: its error
    list holds one entry per error reported to the handler's callback, in
    order, followed by the exception caught, if one was thrown.
    [parseHtmlStrict] throws exactly when that list (for the default
    options) is not empty, and otherwise returns the nodes of
    [parseHtml]. *)
Theorem parseHtml_never_throws html options st :
  (exists result st',
     let run := htmlparser2 html
                  (decodeEntities (merge_options DEFAULT_OPTIONS options)) in
     parseHtml htmlparser2 html options st = (Normal result, st')
     /\ errors result = callback_errors (calls run) ++ caught_error (thrown run))
  /\ (exists result st',
        parseHtml htmlparser2 html no_options st = (Normal result, st')
        /\ ((exists msg, parseHtmlStrict htmlparser2 html st = (Thrown msg, st'))
            <-> errors result <> [])
        /\ (errors result = [] ->
            parseHtmlStrict htmlparser2 html st = (Normal (nodes result), st'))).
Proof.
  assert (forall options, exists result st',
    parseHtml htmlparser2 html options st = (Normal result, st')
    /\ errors result
       = callback_errors (calls (htmlparser2 html
           (decodeEntities (merge_options DEFAULT_OPTIONS options))))
         ++ caught_error (thrown (htmlparser2 html
           (decodeEntities (merge_options DEFAULT_OPTIONS options))))) as Hret.
  { intros opts. unfold parseHtml.
    set (run := htmlparser2 html _).
    pose proof (handler_errors (merge_options DEFAULT_OPTIONS opts)
                  (calls run) [] [] st) as Herr.
    destruct (fold_left _ _ _) as [[ns es] st']. simpl in Herr. subst es.
    destruct (thrown run) as [[m|]|]; eexists _, _; (split; [done|]); simpl;
      by rewrite ?app_nil_r. }
  split; [apply Hret|].
  destruct (Hret no_options) as (result & st' & Hparse & _).
  exists result, st'. split; [done|].
  unfold parseHtmlStrict. rewrite Hparse.
  destruct (errors result) as [|e es]; simpl.
  - split; [|done]. split; [by intros [? ?]|done].
  - split; [|done]. split; [done|]. intros _. by eexists.
Qed.
End ParseHtml.

(** [<p>a<!--c-->b</p>] with the default options: the two texts are merged. *)
Lemma parseHtml_text_invariants_witness :
  let H := exact_numbers in
  exists result st',
    parseHtml (answering dom_text_comment_text) "<p>a<!--c-->b</p>"
      no_options initial_state = (Normal result, st')
    /\ forallb clean_tree (nodes result) = true
    /\ clean_list (nodes result) = true.
Proof.
  apply (parseHtml_text_invariants (H := exact_numbers)
           (answering dom_text_comment_text) "<p>a<!--c-->b</p>"
           no_options initial_state); reflexivity.
Defined.

(** C3 (as stated, refuted). With [normalizeWhitespace: false] the
    post-processing is skipped: [<p>a<!--c-->b</p>] yields a [p] whose
    children are the two text nodes ["a"] and ["b"], side by side. *)
Lemma adjacent_texts_without_normalization :
  let H := exact_numbers in
  let tree := returned (parseHtml (answering dom_text_comment_text)
                          "<p>a<!--c-->b</p>" keep_whitespace initial_state) in
  map (fun n => match n with
                | NodeElement e => map getTextContent (children e)
                | _ => []
                end) tree = [["a"; "b"]]
  /\ forallb clean_tree tree = false.
Proof. split; reflexivity. Qed.


(** ** Markup parser: parent references *)

Section ParentConsistency.
Context `{JsNumber}.
Implicit Types (n x : HtmlNode) (l result store : list HtmlNode) (p : option Ref).

Lemma DomNode_nested_ind (P : DomNode -> Prop) :
  (forall data, P (DomText data)) ->
  (forall type name attribs kids, Forall P kids -> P (DomElement type name attribs kids)) ->
  (forall data, P (DomComment data)) ->
  (forall kids, P (DomOther kids)) ->
  forall d, P d.
Proof.
  intros Ht He Hc Ho. fix IH 1. intros [data|type name attribs kids|data|kids];
    [apply Ht| |apply Hc|apply Ho].
  apply He. induction kids as [|kid kids IHkids]; constructor; [apply IH|exact IHkids].
Qed.

Lemma refs_app l1 l2 : refs (l1 ++ l2) = refs l1 ++ refs l2.
Proof. unfold refs, all_objects. by rewrite flat_map_app, map_app. Qed.

Lemma refs_cons n l : refs (n :: l) = map node_ref (objects n) ++ refs l.
Proof. unfold refs, all_objects. simpl. by rewrite map_app. Qed.

Lemma objects_element e :
  map node_ref (objects (NodeElement e)) = ref e :: refs (children e).
Proof. done. Qed.

Lemma seq_glue (a b c : nat) :
  (a <= b)%nat -> (b <= c)%nat -> seq a (b - a) ++ seq b (c - b) = seq a (c - a).
Proof.
  intros Hab Hbc. replace (c - a)%nat with ((b - a) + (c - b))%nat by lia.
  rewrite seq_app. do 2 f_equal. lia.
Qed.

(** *** [convertNode] *)

Lemma convert_each_well p options kids st :
  Forall (fun d => forall p options st,
            converted_well p st (convertNode d p options st)) kids ->
  converted_all_well p st
    (convert_each (fun child => convertNode child p options) kids st).
Proof.
  intros Hkids. revert st. induction Hkids as [|d kids Hd _ IH]; intros st; simpl.
  - unfold converted_all_well. simpl. rewrite Nat.sub_diag. done.
  - specialize (Hd p options st). unfold converted_well in Hd.
    destruct (convertNode d p options st) as [[n|] st1]; simpl in Hd.
    + destruct Hd as (Hwp & Hrefs & Hlt). specialize (IH st1).
      destruct (convert_each _ kids st1) as [others st2].
      destruct IH as (Hwps & Hrefs' & Hle). simpl in *.
      unfold converted_all_well. simpl.
      split; [by rewrite Hwp, Hwps|]. split; [|lia].
      rewrite refs_cons, Hrefs, Hrefs'. apply seq_glue; lia.
    + subst st1. specialize (IH st).
      by destruct (convert_each _ kids st) as [others st2].
Qed.

Lemma convertNode_well d : forall p options st,
  converted_well p st (convertNode d p options st).
Proof.
  induction d as [data|type name attribs kids IH|data|kids]
    using DomNode_nested_ind; intros p options st; try done.
  - unfold converted_well. simpl.
    destruct (isWhitespaceOnly _ && _); simpl; [done|].
    rewrite bool_decide_eq_true_2 by done.
    split; [done|]. split; [|lia].
    replace (S (nextRef st) - nextRef st)%nat with 1%nat by lia. done.
  - unfold converted_well. simpl.
    destruct (String.eqb _ "script" || String.eqb _ "style"); [done|].
    set (st2 := {| keyCounter := S (keyCounter st); nextRef := S (nextRef st) |}).
    pose proof (convert_each_well (Some (nextRef st)) options kids st2 IH) as Hall.
    destruct (convert_each _ kids st2) as [converted st3].
    destruct Hall as (Hwps & Hrefs & Hle). simpl in *.
    rewrite bool_decide_eq_true_2 by done. simpl.
    split; [done|]. split; [|lia].
    change (nextRef st :: refs converted
            = seq (nextRef st) (nextRef st3 - nextRef st)).
    rewrite Hrefs. replace (nextRef st3 - nextRef st)%nat
      with (S (nextRef st3 - S (nextRef st))) by lia. done.
Qed.

(** The handler's callback keeps the roots well parented and their
    references the ones allocated since [first]. *)
Lemma handler_callback_well options (first : Ref) cs ns es st :
  forallb (well_parented None) ns = true ->
  refs ns = seq first (nextRef st - first) -> (first <= nextRef st)%nat ->
  let r := fold_left (handler_callback options) cs (ns, es, st) in
  forallb (well_parented None) r.1.1 = true /\ NoDup (refs r.1.1).
Proof.
  revert ns es st. induction cs as [|call cs IH]; intros ns es st Hwp Hrefs Hle; simpl.
  - split; [done|]. rewrite Hrefs. apply NoDup_seq.
  - destruct call as [msg|dom]; simpl; [by apply IH|].
    pose proof (convert_each_well None options dom st) as Hall.
    destruct (convert_each _ dom st) as [converted st1].
    destruct Hall as (Hwps & Hrefs' & Hle').
    { apply Forall_forall. intros d _. apply convertNode_well. }
    simpl in *. apply IH.
    + by rewrite forallb_app, Hwp, Hwps.
    + rewrite refs_app, Hrefs, Hrefs'. apply seq_glue; lia.
    + lia.
Qed.

(** *** [postProcess] keeps the objects it keeps as they were *)

Lemma postProcess_step_refs result x :
  map node_ref (objects (postProcess_children x))
    `sublist_of` map node_ref (objects x) ->
  refs (postProcess_step postProcess_children result x)
    `sublist_of` refs result ++ map node_ref (objects x).
Proof.
  intros Hsub. unfold postProcess_step.
  assert (refs (result ++ [postProcess_children x])
          `sublist_of` refs result ++ map node_ref (objects x)) as Hpush.
  { rewrite refs_app. apply sublist_app; [done|].
    rewrite refs_cons. unfold refs. simpl. by rewrite app_nil_r. }
  destruct x as [e|t|c]; try exact Hpush.
  destruct (last result) as [[e'|prev|c']|] eqn:Hlast; try exact Hpush.
  apply last_Some in Hlast as [rl ->]. rewrite removelast_last.
  rewrite !refs_app. by apply sublist_inserts_r.
Qed.

Lemma trim_first_refs result : refs (trim_first result) `sublist_of` refs result.
Proof.
  destruct result as [|[e|first|c] rest]; try done. unfold trim_first.
  destruct (nonempty _); [by rewrite !refs_cons|].
  rewrite refs_cons. by apply sublist_inserts_l.
Qed.

Lemma trim_last_refs result : refs (trim_last result) `sublist_of` refs result.
Proof.
  unfold trim_last.
  destruct (last result) as [[e|final|c]|] eqn:Hlast; try done.
  apply last_Some in Hlast as [rl ->]. rewrite removelast_last.
  destruct (nonempty _); [by rewrite !refs_app|].
  rewrite refs_app. by apply sublist_inserts_r.
Qed.

Lemma postProcess_with_refs l :
  Forall (fun x => map node_ref (objects (postProcess_children x))
                     `sublist_of` map node_ref (objects x)) l ->
  refs (postProcess_with postProcess_children l) `sublist_of` refs l.
Proof.
  intros Hl. unfold postProcess_with.
  etrans; [apply trim_last_refs|]. etrans; [apply trim_first_refs|].
  change (refs l) with (refs [] ++ refs l). generalize (@nil HtmlNode).
  induction Hl as [|x l Hx _ IH]; intros result; simpl.
  - unfold refs at 3. simpl. by rewrite app_nil_r.
  - etrans; [apply IH|]. rewrite refs_cons, app_assoc.
    apply sublist_app; [|done]. by apply postProcess_step_refs.
Qed.

(** The objects of a post-processed tree are objects of the tree, in the
    same order. *)
Lemma postProcess_children_refs n :
  map node_ref (objects (postProcess_children n))
    `sublist_of` map node_ref (objects n).
Proof.
  induction n as [e IH|t|c] using HtmlNode_nested_ind; [|done|done].
  change (ref e :: refs (postProcess_with postProcess_children (children e))
          `sublist_of` ref e :: refs (children e)).
  apply sublist_skip. by apply postProcess_with_refs.
Qed.

Lemma postProcess_step_parented p result x :
  well_parented p (postProcess_children x) = true ->
  forallb (well_parented p) result = true ->
  forallb (well_parented p) (postProcess_step postProcess_children result x) = true.
Proof.
  intros Hx Hres. unfold postProcess_step.
  assert (forallb (well_parented p) (result ++ [postProcess_children x]) = true)
    as Hpush.
  { rewrite forallb_app, Hres. simpl. by rewrite Hx. }
  destruct x as [e|t|c]; try exact Hpush.
  destruct (last result) as [[e'|prev|c']|] eqn:Hlast; try exact Hpush.
  apply last_Some in Hlast as [rl ->]. rewrite removelast_last.
  rewrite forallb_app in Hres. apply andb_true_iff in Hres as [Hrl Hprev].
  rewrite forallb_app, Hrl. simpl in *. done.
Qed.

Lemma trim_first_parented p result :
  forallb (well_parented p) result = true ->
  forallb (well_parented p) (trim_first result) = true.
Proof.
  intros Hres. unfold trim_first.
  destruct result as [|[e|first|c] rest]; try done.
  simpl in Hres. apply andb_true_iff in Hres as [Hfirst Hrest].
  destruct (nonempty _); simpl; [|done]. by rewrite Hrest, andb_true_r.
Qed.

Lemma trim_last_parented p result :
  forallb (well_parented p) result = true ->
  forallb (well_parented p) (trim_last result) = true.
Proof.
  intros Hres. unfold trim_last.
  destruct (last result) as [[e|final|c]|] eqn:Hlast; try done.
  apply last_Some in Hlast as [rl ->]. rewrite removelast_last.
  rewrite forallb_app in Hres. apply andb_true_iff in Hres as [Hrl Hfinal].
  destruct (nonempty _); [|done]. by rewrite forallb_app, Hrl.
Qed.

Lemma postProcess_with_parented p l :
  Forall (fun x => forall p, well_parented p x = true ->
                             well_parented p (postProcess_children x) = true) l ->
  forallb (well_parented p) l = true ->
  forallb (well_parented p) (postProcess_with postProcess_children l) = true.
Proof.
  intros Hl Hwl. unfold postProcess_with.
  apply trim_last_parented, trim_first_parented.
  assert (forallb (well_parented p) [] = true) as Hnil by done.
  revert Hnil. generalize (@nil HtmlNode). revert Hwl.
  induction Hl as [|x l Hx _ IH]; intros Hwl result Hres; simpl; [done|].
  simpl in Hwl. apply andb_true_iff in Hwl as [Hwx Hwl].
  apply IH; [done|]. apply postProcess_step_parented; [by apply Hx|done].
Qed.

Lemma postProcess_children_parented n p :
  well_parented p n = true -> well_parented p (postProcess_children n) = true.
Proof.
  revert p. induction n as [e IH|t|c] using HtmlNode_nested_ind; [|done|done].
  intros p Hwp. simpl in *. apply andb_true_iff in Hwp as [Hp Hkids].
  rewrite Hp. simpl. by apply postProcess_with_parented.
Qed.

Lemma postProcess_kept l :
  forallb (well_parented None) l = true -> NoDup (refs l) ->
  forallb (well_parented None) (postProcess l) = true /\ NoDup (refs (postProcess l)).
Proof.
  intros Hwl Hnd. split.
  - apply postProcess_with_parented; [|done].
    apply Forall_forall. intros x _ p. apply postProcess_children_parented.
  - apply (sublist_NoDup _ (refs l)); [exact Hnd|]. apply postProcess_with_refs.
    apply Forall_forall. intros x _. apply postProcess_children_refs.
Qed.
End ParentConsistency.

Section ParentsOfParsedTrees.
Context `{JsNumber}.
Implicit Types (n x : HtmlNode) (l store : list HtmlNode) (p : option Ref).

(** With distinct references, a reference designates the one object that
    carries it. *)
Lemma deref_distinct store x :
  NoDup (map node_ref store) -> In x store -> deref store (node_ref x) = Some x.
Proof.
  unfold deref. induction store as [|y store IH]; simpl; [done|].
  intros Hnd Hin. apply NoDup_cons in Hnd as [Hy Hnd].
  destruct (Nat.eqb_spec (node_ref y) (node_ref x)) as [Heq|Hne].
  - destruct Hin as [->|Hin]; [done|]. exfalso. apply Hy. rewrite Heq.
    apply list_elem_of_In, in_map, Hin.
  - destruct Hin as [->|Hin]; [done|]. by apply IH.
Qed.

Lemma child_parent_holds store e c :
  NoDup (map node_ref store) -> In (NodeElement e) store ->
  In c (children e) -> node_parent c = Some (ref e) ->
  parent_holds store c = true.
Proof.
  intros Hnd He Hc Hp. unfold parent_holds. rewrite Hp.
  pose proof (deref_distinct store (NodeElement e) Hnd He) as Hderef.
  simpl in Hderef. rewrite Hderef. simpl.
  apply existsb_exists. exists c. split; [done|]. apply Nat.eqb_refl.
Qed.

(** Below a well-parented node every object's parent holds it. *)
Lemma descendants_parent_hold store n :
  NoDup (map node_ref store) ->
  (forall x, In x (objects n) -> In x store) ->
  forall p, well_parented p n = true ->
  forall x, In x (tail (objects n)) -> parent_holds store x = true.
Proof.
  intros Hnd. induction n as [e IH|t|c] using HtmlNode_nested_ind; [|done|done].
  intros Hstore p Hwp x Hx. simpl in Hwp, Hx.
  apply andb_true_iff in Hwp as [_ Hkids]. rewrite forallb_forall in Hkids.
  apply in_flat_map in Hx as (c & Hc & Hx).
  assert (forall y, In y (objects c) -> In y store) as Hcstore.
  { intros y Hy. apply Hstore. simpl. right. apply in_flat_map. eauto. }
  specialize (Hkids c Hc).
  destruct c as [e'|t'|c']; simpl in Hx.
  - destruct Hx as [<-|Hx].
    + apply (child_parent_holds store e); [done|apply Hstore; by left|done|].
      simpl in Hkids. apply andb_true_iff in Hkids as [Hp _].
      by apply bool_decide_eq_true in Hp.
    + rewrite Forall_forall in IH.
      apply (IH (NodeElement e') (proj2 (list_elem_of_In _ _) Hc) Hcstore _ Hkids).
      exact Hx.
  - destruct Hx as [<-|[]].
    apply (child_parent_holds store e); [done|apply Hstore; by left|done|].
    simpl in Hkids. apply andb_true_iff in Hkids as [Hp _].
    by apply bool_decide_eq_true in Hp.
  - destruct Hx as [<-|[]].
    apply (child_parent_holds store e); [done|apply Hstore; by left|done|].
    simpl in Hkids. apply andb_true_iff in Hkids as [Hp _].
    by apply bool_decide_eq_true in Hp.
Qed.

Lemma well_parented_consistent l :
  forallb (well_parented None) l = true -> NoDup (refs l) ->
  parents_consistent (all_objects l) l = true.
Proof.
  intros Hwl Hnd. unfold parents_consistent. apply forallb_forall.
  intros x Hx. unfold all_objects in Hx. apply in_flat_map in Hx as (n & Hn & Hx).
  rewrite forallb_forall in Hwl. specialize (Hwl n Hn).
  assert (forall y, In y (objects n) -> In y (all_objects l)) as Hstore.
  { intros y Hy. apply in_flat_map. eauto. }
  assert (objects n = n :: tail (objects n)) as Hobj by by destruct n.
  rewrite Hobj in Hx. destruct Hx as [<-|Hx].
  - unfold parent_holds. destruct n; simpl in Hwl;
      apply andb_true_iff in Hwl as [Hp _];
      apply bool_decide_eq_true in Hp; simpl; by rewrite Hp.
  - by apply (descendants_parent_hold (all_objects l) n Hnd Hstore None).
Qed.

(** X2. Every tree [parseHtml] returns, whatever the tokenizer run and the
    options, has consistent parent references: each present parent
    reference designates an element of the tree that has the node among
    its children. *)
Theorem parseHtml_parents_consistent
    (htmlparser2 : string -> option bool -> ParserRun)
    (html : string) (options : ParserOptions) (st : ParserState) :
  exists result st',
    parseHtml htmlparser2 html options st = (Normal result, st')
    /\ parents_consistent (all_objects (nodes result)) (nodes result) = true.
Proof.
  unfold parseHtml.
  set (mergedOptions := merge_options DEFAULT_OPTIONS options).
  set (run := htmlparser2 html _).
  pose proof (handler_callback_well mergedOptions (nextRef st) (calls run)
                [] [] st eq_refl) as Hwell.
  destruct (fold_left _ _ _) as [[ns es] st']. simpl in Hwell.
  destruct Hwell as [Hwp Hnd]; [by rewrite Nat.sub_diag|done|].
  destruct (thrown run) as [e|].
  - eexists _, _. split; [done|]. simpl. by apply well_parented_consistent.
  - eexists _, _. split; [done|]. simpl.
    destruct (enabled _); [|by apply well_parented_consistent].
    destruct (postProcess_kept ns Hwp Hnd). by apply well_parented_consistent.
Qed.
End ParentsOfParsedTrees.

(** C2 (failing input). [parseHtml] on [<div><p>Text</p></div>] builds a
    tree whose parent references are consistent.  In the tree
    [resolveTreeStyles] returns for it, the copy of [p] (a new object)
    still names the original [div] as its parent, and the children of
    that [div] are the original [p], not the copy: the invariant fails. *)
Theorem resolveTreeStyles_breaks_parent_consistency :
  let H := exact_numbers in
  let parsed := parseHtml (answering dom_div_p_text) "<div><p>Text</p></div>"
                  no_options initial_state in
  let tree := returned parsed in
  let outcome := (resolveTreeStyles tree default_config (nextRef parsed.2)).1 in
  let resolved := resolved_nodes outcome in
  let store := all_objects tree ++ all_objects resolved in
  outcome = Normal resolved
  /\ parents_consistent (all_objects tree) tree = true
  /\ map node_ref (all_objects tree) = [0; 1; 2]%nat
  /\ map node_parent (all_objects tree) = [None; Some 0; Some 1]%nat
  /\ map node_ref (all_objects resolved) = [4; 3; 2]%nat
  /\ map node_parent (all_objects resolved) = [None; Some 0; Some 1]%nat
  /\ map (parent_holds store) (all_objects resolved) = [true; false; true]
  /\ parents_consistent store resolved = false.
Proof. repeat split. Qed.

(** ** Examples on the plugin registry *)

(** A second registration under a stored name throws and changes nothing;
    with [replace] it runs [setup] and stores the new plugin.  A [setup]
    that registers another plugin and then throws leaves that plugin
    registered. *)
Example register_twice :
  let first := sample_plugin "video" None [("video", 1%nat)] (Some 0%nat) in
  let second := sample_plugin "video" None [("video", 2%nat)] (Some 3%nat) in
  let third := sample_plugin "audio" None [] (Some 2%nat) in
  let register := PluginRegistry.register sample_behaviour in
  let '(_, st1, log1) := register first false PluginRegistry.empty_state [] in
  let '(r2, st2, log2) := register second false st1 log1 in
  let '(r3, st3, log3) := register second true st1 log1 in
  let '(r4, st4, log4) := register third false st1 log1 in
  log1 = ["first"]
  /\ r2 = Thrown (PluginRegistry.already_registered "video")
  /\ PluginRegistry.getRenderer "video" st2 = Own 1%nat /\ log2 = ["first"]
  /\ r3 = Normal tt
  /\ PluginRegistry.getRenderer "video" st3 = Own 2%nat /\ log3 = ["first"; "second"]
  /\ r4 = Thrown "setup failed"
  /\ PluginRegistry.getNames st4 = ["video"; "helper"].
Proof. repeat split. Qed.

(** ** ContentCache: round trip, recency and eviction *)

Section CacheOrder.
Context {T : Type}.
Implicit Types (c : ContentCache.t T) (m : JsMap.t (ContentCache.Entry T)).

Lemma jsmap_get_set_same {V} (m : JsMap.t V) k v :
  JsMap.get k (JsMap.set k v m) = Some v.
Proof.
  induction m as [|[k' v'] m IH]; simpl.
  - by rewrite String.eqb_refl.
  - destruct (String.eqb k k') eqn:E; simpl; rewrite ?E, ?String.eqb_refl; auto.
Qed.

Lemma jsmap_get_None_keys {V} (m : JsMap.t V) k :
  JsMap.get k m = None <-> k ∉ JsMap.keys m.
Proof.
  induction m as [|[k' v'] m IH]; cbn [JsMap.get JsMap.keys map fst].
  - split; [intros _; apply not_elem_of_nil | done].
  - destruct (String.eqb k k') eqn:E.
    + apply String.eqb_eq in E as ->. split; [done|]. intros Hn. destruct Hn. left.
    + apply String.eqb_neq in E. rewrite not_elem_of_cons. unfold JsMap.keys in IH.
      rewrite IH. split; [by intros Hn | by intros [_ Hn]].
Qed.

Lemma jsmap_keys_set_cases {V} (m : JsMap.t V) k v :
  JsMap.keys (JsMap.set k v m)
  = if bool_decide (k ∈ JsMap.keys m) then JsMap.keys m else JsMap.keys m ++ [k].
Proof.
  unfold JsMap.keys.
  induction m as [|[k' v'] m IH]; cbn [JsMap.set map fst].
  - rewrite bool_decide_eq_false_2; [done | apply not_elem_of_nil].
  - destruct (String.eqb k k') eqn:E.
    + apply String.eqb_eq in E as ->. cbn [map fst].
      rewrite bool_decide_eq_true_2; [done | left].
    + apply String.eqb_neq in E. cbn [map fst]. rewrite IH.
      destruct (bool_decide (k ∈ map fst m)) eqn:B.
      * apply bool_decide_eq_true in B.
        rewrite bool_decide_eq_true_2; [done | by right].
      * apply bool_decide_eq_false in B.
        rewrite bool_decide_eq_false_2; [done|].
        rewrite not_elem_of_cons. done.
Qed.

Lemma filter_all {A} (P : A -> Prop) `{forall x, Decision (P x)} (l : list A) :
  Forall P l -> filter P l = l.
Proof.
  induction 1 as [|x l Hx Hl IH]; [done|].
  rewrite filter_cons_True by done. by rewrite IH.
Qed.

Lemma jsmap_keys_delete_filter {V} (m : JsMap.t V) k :
  NoDup (JsMap.keys m) ->
  JsMap.keys (JsMap.delete k m) = filter (fun k' => k' <> k) (JsMap.keys m).
Proof.
  unfold JsMap.keys.
  induction m as [|[k' v'] m IH]; cbn [JsMap.delete map fst]; [done|].
  intros Hnd. apply NoDup_cons in Hnd as [Hnotin Hnd].
  destruct (String.eqb k k') eqn:E.
  - apply String.eqb_eq in E as ->.
    rewrite filter_cons_False by (intros Hne; by apply Hne).
    symmetry. apply filter_all, Forall_forall. intros x Hx ->. done.
  - apply String.eqb_neq in E.
    rewrite filter_cons_True by done. cbn [map fst]. by rewrite IH.
Qed.

Lemma jsmap_set_nodup {V} (m : JsMap.t V) k v :
  NoDup (JsMap.keys m) -> NoDup (JsMap.keys (JsMap.set k v m)).
Proof.
  intros Hnd. rewrite jsmap_keys_set_cases. case_bool_decide as Hin; [done|].
  apply NoDup_app. split; [done|]. split; [|apply NoDup_singleton].
  intros x Hx ->%list_elem_of_singleton. done.
Qed.

Lemma jsmap_delete_nodup {V} (m : JsMap.t V) k :
  NoDup (JsMap.keys m) -> NoDup (JsMap.keys (JsMap.delete k m)).
Proof. intros Hnd. rewrite jsmap_keys_delete_filter by done. by apply NoDup_filter. Qed.

Lemma jsmap_keys_refresh {V} (m : JsMap.t V) k v :
  NoDup (JsMap.keys m) ->
  JsMap.keys (JsMap.set k v (JsMap.delete k m))
  = filter (fun k' => k' <> k) (JsMap.keys m) ++ [k].
Proof.
  intros Hnd. rewrite jsmap_keys_set_cases, jsmap_keys_delete_filter by done.
  rewrite bool_decide_eq_false_2; [done|].
  rewrite list_elem_of_filter. by intros [Hne _].
Qed.

Lemma jsmap_has_keys {V} (m : JsMap.t V) k :
  JsMap.has k m = bool_decide (k ∈ JsMap.keys m).
Proof.
  unfold JsMap.has. destruct (JsMap.get k m) eqn:E.
  - symmetry. apply bool_decide_eq_true. destruct (decide (k ∈ JsMap.keys m)); [done|].
    apply jsmap_get_None_keys in n. congruence.
  - symmetry. apply bool_decide_eq_false. by apply jsmap_get_None_keys.
Qed.

Lemma cache_step_maxAge c (op : CacheOp T) :
  ContentCache.maxAge (cache_step c op) = ContentCache.maxAge c.
Proof.
  destruct op as [key now|key v now]; simpl; [|done].
  unfold ContentCache.get. destruct (JsMap.get key _); [|done].
  by destruct (_ >? _).
Qed.

Lemma cache_step_maxSize c (op : CacheOp T) :
  ContentCache.maxSize (cache_step c op) = ContentCache.maxSize c.
Proof.
  destruct op as [key now|key v now]; simpl; [|done].
  unfold ContentCache.get. destruct (JsMap.get key _); [|done].
  by destruct (_ >? _).
Qed.

Lemma cache_get_nodup c key now :
  NoDup (JsMap.keys (ContentCache.cache c)) ->
  NoDup (JsMap.keys (ContentCache.cache (ContentCache.get key now c).2)).
Proof.
  intros Hnd. unfold ContentCache.get. destruct (JsMap.get key _); [|done].
  destruct (_ >? _); simpl; auto using jsmap_set_nodup, jsmap_delete_nodup.
Qed.

Lemma cache_set_nodup c key v now :
  NoDup (JsMap.keys (ContentCache.cache c)) ->
  NoDup (JsMap.keys (ContentCache.cache (ContentCache.set key v now c))).
Proof.
  intros Hnd. unfold ContentCache.set. simpl. apply jsmap_set_nodup.
  destruct (_ >=? _); [|done]. destruct (ContentCache.truthy_key _); [|done].
  by apply jsmap_delete_nodup.
Qed.

Lemma cache_run_shape (ops : list (CacheOp T)) c :
  NoDup (JsMap.keys (ContentCache.cache c)) ->
  NoDup (JsMap.keys (ContentCache.cache (cache_run ops c)))
  /\ ContentCache.maxAge (cache_run ops c) = ContentCache.maxAge c
  /\ ContentCache.maxSize (cache_run ops c) = ContentCache.maxSize c.
Proof.
  revert c. induction ops as [|op ops IH]; intros c Hnd; [done|].
  simpl. destruct (IH (cache_step c op)) as (Hn & Ha & Hs).
  - destruct op as [key now|key v now]; unfold cache_step;
      [by apply cache_get_nodup | by apply cache_set_nodup].
  - split; [done|]. by rewrite Ha, Hs, cache_step_maxAge, cache_step_maxSize.
Qed.

Lemma cache_reachable (ops : list (CacheOp T)) maxSize maxAge :
  let c := cache_run ops (ContentCache.create maxSize maxAge) in
  NoDup (JsMap.keys (ContentCache.cache c))
  /\ ContentCache.maxAge c = maxAge /\ ContentCache.maxSize c = maxSize.
Proof. apply (cache_run_shape ops (ContentCache.create maxSize maxAge)). constructor. Qed.

(** X3. A value stored with [set] is returned by a [get] of the same key
    as long as no more than [maxAge] milliseconds have passed; a later
    [get] returns undefined and removes the entry. *)
Theorem cache_set_get_round_trip (ops : list (CacheOp T)) maxSize maxAge key v now now' :
  let c := ContentCache.set key v now
             (cache_run ops (ContentCache.create maxSize maxAge)) in
  let r := ContentCache.get key now' c in
  (now' - now <= maxAge -> r.1 = Some v /\ ContentCache.has key r.2 = true)
  /\ (now' - now > maxAge ->
      r.1 = None /\ ContentCache.has key r.2 = false
      /\ ContentCache.size r.2 = ContentCache.size c - 1).
Proof.
  destruct (cache_reachable ops maxSize maxAge) as (Hnd & Ha & Hs).
  set (c0 := cache_run ops (ContentCache.create maxSize maxAge)) in *.
  intros c r.
  assert (Hnd' : NoDup (JsMap.keys (ContentCache.cache c)))
    by by apply cache_set_nodup.
  assert (Hget : JsMap.get key (ContentCache.cache c)
                 = Some {| ContentCache.value := v; ContentCache.timestamp := now |})
    by apply jsmap_get_set_same.
  assert (Hage : ContentCache.maxAge c = maxAge) by done.
  pose proof (jsmap_delete_present _ _ _ Hget) as Hdel.
  clearbody c. split; intros Hlt.
  - subst r. rewrite (cache_get_fresh c key now' _ Hget) by (simpl; lia).
    split; [done|]. unfold ContentCache.has. simpl.
    unfold JsMap.has. by rewrite jsmap_get_set_same.
  - subst r. rewrite (cache_get_expired c key now' _ Hget) by (simpl; lia).
    split; [done|]. unfold ContentCache.has, ContentCache.size. simpl. split.
    + rewrite jsmap_has_keys, jsmap_keys_delete_filter by done.
      apply bool_decide_eq_false. rewrite list_elem_of_filter. by intros [Hne _].
    + unfold JsMap.size. lia.
Qed.

(** X4. A hit moves the key to the most recently used end of the cache
    and keeps every entry; a miss (absent or expired key) leaves no entry
    for the key and changes nothing else. *)
Theorem cache_get_refreshes_recency (ops : list (CacheOp T)) maxSize maxAge key now :
  let c := cache_run ops (ContentCache.create maxSize maxAge) in
  let r := ContentCache.get key now c in
  let others := filter (fun k => k <> key) (JsMap.keys (ContentCache.cache c)) in
  (forall v, r.1 = Some v ->
     JsMap.keys (ContentCache.cache r.2) = others ++ [key]
     /\ ContentCache.size r.2 = ContentCache.size c)
  /\ (r.1 = None -> JsMap.keys (ContentCache.cache r.2) = others).
Proof.
  destruct (cache_reachable ops maxSize maxAge) as (Hnd & _ & _).
  set (c := cache_run ops (ContentCache.create maxSize maxAge)) in *.
  intros r others. subst r others. unfold ContentCache.get.
  destruct (JsMap.get key (ContentCache.cache c)) as [e|] eqn:Hget.
  - destruct (_ >? _); simpl.
    + split; [done|]. intros _. by apply jsmap_keys_delete_filter.
    + split; [|done]. intros v _. split; [by apply jsmap_keys_refresh|].
      unfold ContentCache.size, JsMap.size. simpl.
      pose proof (jsmap_delete_present _ _ _ Hget) as Hdel.
      assert (Hk : length (JsMap.set key e (JsMap.delete key (ContentCache.cache c)))
                   = S (length (JsMap.delete key (ContentCache.cache c)))).
      { rewrite jsmap_set_last; [rewrite length_app; simpl; lia|].
        apply jsmap_get_None_keys. rewrite jsmap_keys_delete_filter by done.
        rewrite list_elem_of_filter. by intros [Hne _]. }
      lia.
  - simpl. split; [done|]. intros _. symmetry. apply filter_all, Forall_forall.
    intros x Hx ->. by apply jsmap_get_None_keys in Hget.
Qed.

(** X5. [set] on a cache with room appends a new key, or overwrites an
    existing one in place; on a full cache it first evicts the least
    recently used key, also when the key being set is already stored. *)
Theorem cache_set_evicts_oldest (ops : list (CacheOp T)) maxSize maxAge key v now :
  let c := cache_run ops (ContentCache.create maxSize maxAge) in
  let keys c := JsMap.keys (ContentCache.cache c) in
  let stored l := if bool_decide (key ∈ l) then l else l ++ [key] in
  (ContentCache.size c < maxSize ->
     keys (ContentCache.set key v now c) = stored (keys c))
  /\ (forall oldest rest,
        maxSize <= ContentCache.size c -> keys c = oldest :: rest -> oldest <> "" ->
        keys (ContentCache.set key v now c) = stored rest).
Proof.
  destruct (cache_reachable ops maxSize maxAge) as (Hnd & _ & Hs).
  set (c := cache_run ops (ContentCache.create maxSize maxAge)) in *.
  intros keys stored. subst keys stored. cbv beta. unfold ContentCache.set. simpl.
  rewrite Hs. split.
  - intros Hlt. replace (JsMap.size (ContentCache.cache c) >=? maxSize) with false
      by (unfold ContentCache.size in *; symmetry; rewrite Z.geb_leb; apply Z.leb_gt; lia).
    apply jsmap_keys_set_cases.
  - intros oldest rest Hfull Hkeys Hne.
    replace (JsMap.size (ContentCache.cache c) >=? maxSize) with true
      by (unfold ContentCache.size in *; symmetry; rewrite Z.geb_leb; apply Z.leb_le; lia).
    rewrite Hkeys. change (head (oldest :: rest)) with (Some oldest).
    rewrite truthy_nonempty_key by done. cbn [default from_option].
    rewrite jsmap_keys_set_cases, jsmap_keys_delete_filter by done.
    rewrite Hkeys in Hnd |- *. apply NoDup_cons in Hnd as [Hnotin Hnd].
    rewrite filter_cons_False by (intros Hx; by apply Hx).
    rewrite filter_all; [done|]. apply Forall_forall. intros x Hx ->. done.
Qed.
End CacheOrder.

(** ** Plugin registry: sequences of calls *)

Section RegistryRunFacts.
Context {Renderer Style NodeRef World : Type} `{EqDecision NodeRef}.
Local Abbreviation Plugin := (PluginRegistry.HtmlPlugin Renderer Style NodeRef World).
Local Abbreviation State := (PluginRegistry.PluginRegistryState Renderer Style NodeRef World).
Local Abbreviation Op := (RegistryOp Renderer Style NodeRef World).
Implicit Types (st : State) (w : World) (plugin : Plugin).

Lemma jsmap_get_set_other {V} (m : JsMap.t V) k k' v :
  k' <> k -> JsMap.get k' (JsMap.set k v m) = JsMap.get k' m.
Proof.
  intros Hne. induction m as [|[k0 v0] m IH]; simpl.
  - by apply String.eqb_neq in Hne as ->.
  - destruct (String.eqb k k0) eqn:E; simpl.
    + apply String.eqb_eq in E as <-. by apply String.eqb_neq in Hne as ->.
    + by rewrite IH.
Qed.

Lemma jsmap_get_delete_other {V} (m : JsMap.t V) k k' :
  k' <> k -> JsMap.get k' (JsMap.delete k m) = JsMap.get k' m.
Proof.
  intros Hne. induction m as [|[k0 v0] m IH]; simpl; [done|].
  destruct (String.eqb k k0) eqn:E; simpl.
  - apply String.eqb_eq in E as <-. by apply String.eqb_neq in Hne as ->.
  - by rewrite IH.
Qed.

Lemma jsmap_delete_set_new {V} (m : JsMap.t V) k v :
  JsMap.get k m = None -> JsMap.delete k (JsMap.set k v m) = m.
Proof.
  induction m as [|[k0 v0] m IH]; simpl.
  - by rewrite String.eqb_refl.
  - destruct (String.eqb k k0) eqn:E; [done|]. intros Hget. simpl.
    by rewrite E, IH.
Qed.

Lemma rebuildState_plugins st :
  PluginRegistry.plugins (PluginRegistry.rebuildState st) = PluginRegistry.plugins st.
Proof. done. Qed.

Lemma call_invariant behaviour cb st w :
  orderly behaviour -> registry_invariant st ->
  registry_invariant (left_by (PluginRegistry.call behaviour cb st w)).
Proof.
  intros Hb Hinv. unfold PluginRegistry.call. destruct cb as [f|]; [by apply Hb|done].
Qed.

Lemma stored_invariant plugin st :
  registry_invariant st ->
  registry_invariant
    (PluginRegistry.rebuildState
       (PluginRegistry.with_plugins st
          (JsMap.set (PluginRegistry.name plugin) plugin (PluginRegistry.plugins st)))).
Proof.
  intros (Hnd & Hnamed & Hre). split; [|split].
  - unfold PluginRegistry.getNames. cbn. by apply jsmap_set_nodup.
  - intros n p. unfold PluginRegistry.get. cbn.
    destruct (decide (n = PluginRegistry.name plugin)) as [->|Hne].
    + rewrite jsmap_get_set_same. by intros [= <-].
    + rewrite jsmap_get_set_other by done. apply Hnamed.
  - done.
Qed.

Lemma removed_invariant n st :
  registry_invariant st ->
  registry_invariant
    (PluginRegistry.rebuildState
       (PluginRegistry.with_plugins st (JsMap.delete n (PluginRegistry.plugins st)))).
Proof.
  intros (Hnd & Hnamed & Hre). split; [|split].
  - unfold PluginRegistry.getNames. cbn. by apply jsmap_delete_nodup.
  - intros n' p'. unfold PluginRegistry.get. cbn.
    destruct (decide (n' = n)) as [->|Hne].
    + intros Hin. exfalso.
      assert (Hk : n ∈ JsMap.keys (JsMap.delete n (PluginRegistry.plugins st))).
      { destruct (decide (n ∈ JsMap.keys (JsMap.delete n (PluginRegistry.plugins st))))
          as [|Hout]; [done|]. apply jsmap_get_None_keys in Hout. congruence. }
      rewrite jsmap_keys_delete_filter in Hk by done.
      apply list_elem_of_filter in Hk as [Hk _]. done.
    + rewrite jsmap_get_delete_other by done. apply Hnamed.
  - done.
Qed.

Lemma register_invariant behaviour plugin replace st w :
  orderly behaviour -> registry_invariant st ->
  registry_invariant (PluginRegistry.register behaviour plugin replace st w).1.2.
Proof.
  intros Hb Hinv. unfold PluginRegistry.register.
  destruct (_ && _); [done|].
  pose proof (call_invariant behaviour (PluginRegistry.setup plugin) st w Hb Hinv) as Hc.
  destruct (PluginRegistry.call _ _ _ _) as [st1 w1|msg st1 w1]; [|done].
  cbn [fst snd]. by apply stored_invariant.
Qed.

Lemma unregister_invariant behaviour n st w :
  orderly behaviour -> registry_invariant st ->
  registry_invariant (PluginRegistry.unregister behaviour n st w).1.2.
Proof.
  intros Hb Hinv. unfold PluginRegistry.unregister.
  destruct (JsMap.get n _) as [p|] eqn:Hget; [|done].
  pose proof (call_invariant behaviour (PluginRegistry.cleanup p) st w Hb Hinv) as Hc.
  destruct (PluginRegistry.call _ _ _ _) as [st1 w1|msg st1 w1]; [|done].
  cbn [fst snd]. by apply removed_invariant.
Qed.

Lemma registry_run_invariant_from behaviour (ops : list Op) st w :
  orderly behaviour -> registry_invariant st ->
  registry_invariant (fold_left (registry_step behaviour) ops (st, w)).1.
Proof.
  intros Hb. revert st w. induction ops as [|op ops IH]; intros st w Hinv; [done|].
  cbn [fold_left]. destruct (registry_step behaviour (st, w) op) as [st1 w1] eqn:E.
  apply IH. destruct op; injection E as <- <-; cbn [fst snd];
    auto using register_invariant, unregister_invariant.
Qed.

Lemma empty_invariant :
  registry_invariant
    (PluginRegistry.empty_state (Renderer := Renderer) (Style := Style)
       (NodeRef := NodeRef) (World := World)).
Proof. split; [constructor|]. split; [by intros n p|done]. Qed.

Lemma quiet_orderly : orderly (quiet (Renderer := Renderer) (Style := Style)
                                 (NodeRef := NodeRef) (World := World)).
Proof. by intros f st w Hinv. Qed.

(** X6. Whatever sequence of register and unregister calls a registry has
    seen, failed calls included, and whatever the callbacks did meanwhile
    as long as they left the registry in order: plugin names are unique,
    every plugin is stored under its own name, and the merged renderer
    and transform tables are those of the stored plugins taken in
    ascending priority number. *)
Theorem registry_run_consistent
    (behaviour : PluginRegistry.Behaviour Renderer Style NodeRef World)
    (ops : list Op) w :
  orderly behaviour ->
  let st := (registry_run behaviour ops w).1 in
  NoDup (PluginRegistry.getNames st)
  /\ (forall n p, PluginRegistry.get n st = Some p -> PluginRegistry.name p = n)
  /\ (forall n, PluginRegistry.has n st = true <-> n ∈ PluginRegistry.getNames st)
  /\ tables_merged st.
Proof.
  intros Hb.
  destruct (registry_run_invariant_from behaviour ops _ w Hb empty_invariant)
    as (Hnd & Hnamed & Hre).
  intros st. subst st. split; [done|]. split; [done|]. split.
  - intros n. unfold PluginRegistry.has, PluginRegistry.getNames.
    rewrite jsmap_has_keys. apply bool_decide_eq_true.
  - unfold registry_run. rewrite <- Hre. apply rebuildState_merges.
Qed.

(** X7. Registering a plugin under a name that is not taken and then
    unregistering that name gives back the registry as it was, when
    [setup] and [cleanup] return normally and leave the registry as they
    find it.  (The registry is one a rebuild has left, as after every
    successful register or unregister.) *)
Theorem register_unregister_round_trip
    (behaviour : PluginRegistry.Behaviour Renderer Style NodeRef World)
    plugin st w w1 w2 :
  let st1 := (PluginRegistry.register behaviour plugin false st w).1.2 in
  PluginRegistry.rebuildState st = st ->
  PluginRegistry.has (PluginRegistry.name plugin) st = false ->
  PluginRegistry.call behaviour (PluginRegistry.setup plugin) st w
    = PluginRegistry.Returns st w1 ->
  PluginRegistry.call behaviour (PluginRegistry.cleanup plugin) st1 w1
    = PluginRegistry.Returns st1 w2 ->
  PluginRegistry.register behaviour plugin false st w = (Normal tt, st1, w1)
  /\ PluginRegistry.unregister behaviour (PluginRegistry.name plugin) st1 w1
     = (Normal true, st, w2).
Proof.
  intros st1 Hre Hhas Hsetup. subst st1. unfold PluginRegistry.register.
  unfold PluginRegistry.has in Hhas. rewrite Hhas, Hsetup. cbn [andb fst snd].
  intros Hclean. split; [done|]. unfold PluginRegistry.unregister.
  rewrite rebuildState_plugins. cbn [PluginRegistry.with_plugins PluginRegistry.plugins].
  rewrite jsmap_get_set_same, Hclean. rewrite rebuildState_plugins.
  cbn [PluginRegistry.with_plugins PluginRegistry.plugins].
  rewrite jsmap_delete_set_new.
  - do 2 f_equal. rewrite <- Hre at 2. done.
  - unfold JsMap.has in Hhas. by destruct (JsMap.get _ _).
Qed.

(** X9. A successful [register] stores the plugin under its name in the
    registry as [setup] left it (the registry before the call when the
    plugin has no [setup]) and leaves every other entry alone; a new name
    goes to the end of the list of names, a replaced plugin keeps the
    position of the one it replaces. *)
Theorem register_stores_in_place
    (behaviour : PluginRegistry.Behaviour Renderer Style NodeRef World)
    plugin replace st w st' w' :
  PluginRegistry.register behaviour plugin replace st w = (Normal tt, st', w') ->
  let n := PluginRegistry.name plugin in
  exists st1,
    match PluginRegistry.setup plugin with
    | Some f => behaviour f st w = PluginRegistry.Returns st1 w'
    | None => st1 = st
    end
    /\ PluginRegistry.get n st' = Some plugin
    /\ (forall m, m <> n -> PluginRegistry.get m st' = PluginRegistry.get m st1)
    /\ PluginRegistry.getNames st'
       = if PluginRegistry.has n st1 then PluginRegistry.getNames st1
         else PluginRegistry.getNames st1 ++ [n].
Proof.
  unfold PluginRegistry.register, PluginRegistry.call. destruct (_ && _); [done|].
  assert (Hstored : forall st1 : State,
    let st' := PluginRegistry.rebuildState
                 (PluginRegistry.with_plugins st1
                    (JsMap.set (PluginRegistry.name plugin) plugin
                       (PluginRegistry.plugins st1))) in
    PluginRegistry.get (PluginRegistry.name plugin) st' = Some plugin
    /\ (forall m, m <> PluginRegistry.name plugin ->
          PluginRegistry.get m st' = PluginRegistry.get m st1)
    /\ PluginRegistry.getNames st'
       = if PluginRegistry.has (PluginRegistry.name plugin) st1
         then PluginRegistry.getNames st1
         else PluginRegistry.getNames st1 ++ [PluginRegistry.name plugin]).
  { intros st1 st2. subst st2.
    unfold PluginRegistry.get, PluginRegistry.getNames, PluginRegistry.has.
    rewrite rebuildState_plugins.
    cbn [PluginRegistry.with_plugins PluginRegistry.plugins].
    split; [apply jsmap_get_set_same|]. split.
    - intros m Hne. by apply jsmap_get_set_other.
    - rewrite jsmap_keys_set_cases, jsmap_has_keys. done. }
  destruct (PluginRegistry.setup plugin) as [f|].
  - destruct (behaviour f st w) as [st1 w1|msg st1 w1]; [|done].
    intros [= <- <-]. exists st1. split; [done|]. apply Hstored.
  - intros [= <- <-]. exists st. split; [done|]. apply Hstored.
Qed.

(** X10. [unregister] of a name that is not registered returns false and
    changes nothing.  A successful [unregister] has run the plugin's
    [cleanup], if any, on the registry as it was, and removes the name
    from the registry as [cleanup] left it, and no other name.  When the
    [cleanup] throws, [unregister] removes nothing: the registry is as
    the [cleanup] left it. *)
Theorem unregister_removes_one
    (behaviour : PluginRegistry.Behaviour Renderer Style NodeRef World) n st w :
  let r := PluginRegistry.unregister behaviour n st w in
  (PluginRegistry.has n st = false -> r = (Normal false, st, w))
  /\ (r.1.1 = Normal true ->
        exists p st1,
          PluginRegistry.get n st = Some p
          /\ match PluginRegistry.cleanup p with
             | Some f => behaviour f st w = PluginRegistry.Returns st1 r.2
             | None => st1 = st /\ r.2 = w
             end
          /\ (forall m, m <> n -> PluginRegistry.get m r.1.2 = PluginRegistry.get m st1)
          /\ (NoDup (PluginRegistry.getNames st1) ->
                PluginRegistry.has n r.1.2 = false
                /\ PluginRegistry.getNames r.1.2
                   = filter (fun m => m <> n) (PluginRegistry.getNames st1)))
  /\ (forall msg, r.1.1 = Thrown msg ->
        exists p f, PluginRegistry.get n st = Some p
          /\ PluginRegistry.cleanup p = Some f
          /\ behaviour f st w = PluginRegistry.Throws msg r.1.2 r.2).
Proof.
  intros r. subst r.
  unfold PluginRegistry.unregister, PluginRegistry.has, JsMap.has, PluginRegistry.get.
  destruct (JsMap.get n (PluginRegistry.plugins st)) as [p|] eqn:Hget;
    [|cbn [fst snd]; done].
  split; [done|].
  assert (Hremoved : forall st1 : State,
    let st' := PluginRegistry.rebuildState
                 (PluginRegistry.with_plugins st1
                    (JsMap.delete n (PluginRegistry.plugins st1))) in
    (forall m, m <> n -> JsMap.get m (PluginRegistry.plugins st')
                         = JsMap.get m (PluginRegistry.plugins st1))
    /\ (NoDup (PluginRegistry.getNames st1) ->
          match JsMap.get n (PluginRegistry.plugins st') with
          | Some _ => true
          | None => false
          end = false
          /\ PluginRegistry.getNames st'
             = filter (fun m => m <> n) (PluginRegistry.getNames st1))).
  { intros st1 st2. subst st2. unfold PluginRegistry.getNames.
    rewrite rebuildState_plugins.
    cbn [PluginRegistry.with_plugins PluginRegistry.plugins]. split.
    - intros m Hne. by apply jsmap_get_delete_other.
    - intros Hnd. split; [|by apply jsmap_keys_delete_filter].
      fold (JsMap.has n (JsMap.delete n (PluginRegistry.plugins st1))).
      rewrite jsmap_has_keys, jsmap_keys_delete_filter by done.
      apply bool_decide_eq_false. rewrite list_elem_of_filter. by intros [Hne _]. }
  unfold PluginRegistry.call. destruct (PluginRegistry.cleanup p) as [f|] eqn:Hcleanup.
  - destruct (behaviour f st w) as [st1 w1|msg st1 w1] eqn:Hf; cbn [fst snd].
    + split; [|done]. intros _. exists p, st1. rewrite Hcleanup.
      split; [done|]. split; [done|]. apply Hremoved.
    + split; [done|]. intros msg' [= <-]. by exists p, f.
  - cbn [fst snd]. split; [|done]. intros _. exists p, st. rewrite Hcleanup.
    split; [done|]. split; [done|]. apply Hremoved.
Qed.

Lemma merged_table_lookup {A} (field : Plugin -> option (gmap string A))
    (l : list Plugin) (acc : gmap string A) tag :
  fold_left (fun acc p => PluginRegistry.assign acc (field p)) l acc !! tag
  = match last_of (fun p => field p ≫= (.!! tag)) l with
    | Some r => Some r
    | None => acc !! tag
    end.
Proof.
  revert acc. induction l as [|p l IH]; intros acc; [done|].
  cbn [fold_left last_of]. rewrite IH.
  destruct (last_of _ l); [done|]. apply assign_lookup.
Qed.

(** X11. After a rebuild, which ends every successful register and
    unregister, the plugins are taken in ascending priority number, and
    [applyStyleModifier] applies the modifier of the last plugin, in that
    order, that supplies one for the tag.  When no plugin does, it
    returns the style as it is, unless the tag is the name of a member of
    [Object.prototype]: then that member is what it calls. *)
Theorem applyStyleModifier_last_supplier st tag (style : Style) :
  let rebuilt := PluginRegistry.rebuildState st in
  let sorted := PluginRegistry.sortedPlugins rebuilt in
  sorted ≡ₚ JsMap.values (PluginRegistry.plugins st)
  /\ prio_sorted sorted
  /\ PluginRegistry.applyStyleModifier tag style rebuilt
     = match last_of (modifier_of tag) sorted with
       | Some modifier => PluginRegistry.Styled (modifier style)
       | None => if decide (tag ∈ OBJECT_PROTOTYPE)
                 then PluginRegistry.MemberCall tag style
                 else PluginRegistry.Styled style
       end
  /\ (forall behaviour plugin replace w st' w',
        PluginRegistry.register behaviour plugin replace st w = (Normal tt, st', w') ->
        PluginRegistry.rebuildState st' = st')
  /\ (forall behaviour n w st' w',
        PluginRegistry.unregister behaviour n st w = (Normal true, st', w') ->
        PluginRegistry.rebuildState st' = st').
Proof.
  intros rebuilt sorted. subst rebuilt sorted.
  split; [apply sort_by_prio_perm|]. split; [apply sort_by_prio_sorted|]. split; [|split].
  - unfold PluginRegistry.applyStyleModifier.
    cbn [PluginRegistry.rebuildState PluginRegistry.modifiers].
    rewrite get_property_lookup, merged_table_lookup, lookup_empty.
    assert (Hsame : forall l : list Plugin,
              last_of (fun p => PluginRegistry.styleModifiers p ≫= (.!! tag)) l
              = last_of (modifier_of tag) l).
    { induction l as [|p l IH]; [done|]. cbn [last_of]. rewrite IH.
      destruct (last_of _ l); [done|]. unfold modifier_of.
      by destruct (PluginRegistry.styleModifiers p). }
    rewrite Hsame.
    change (PluginRegistry.sortedPlugins (PluginRegistry.rebuildState st))
      with (PluginRegistry.sortedPlugins st).
    destruct (last_of _ _); [done|]. unfold unowned.
    by destruct (decide (tag ∈ OBJECT_PROTOTYPE)).
  - intros behaviour plugin replace w st' w'. unfold PluginRegistry.register.
    destruct (_ && _); [done|].
    destruct (PluginRegistry.call _ _ _ _); [|done]. by intros [= <- <-].
  - intros behaviour n w st' w'. unfold PluginRegistry.unregister.
    destruct (JsMap.get _ _); [|done].
    destruct (PluginRegistry.call _ _ _ _); [|done]. by intros [= <- <-].
Qed.
End RegistryRunFacts.

(** The sample closures keep the registry in order. *)
Lemma sample_behaviour_orderly : orderly sample_behaviour.
Proof.
  intros f st w Hinv. destruct f as [|[|[|[|f]]]]; try exact Hinv.
  cbn [sample_behaviour left_by].
  apply register_invariant; [apply quiet_orderly|exact Hinv].
Qed.

Lemma registry_run_consistent_witness :
  let audio := sample_plugin "audio" (Some 10) [("audio", 1%nat)] (Some 2%nat) in
  let video := sample_plugin "video" None [("video", 2%nat)] (Some 0%nat) in
  let st := (registry_run sample_behaviour
               [OpRegister audio false; OpRegister video false] []).1 in
  NoDup (PluginRegistry.getNames st)
  /\ (forall n p, PluginRegistry.get n st = Some p -> PluginRegistry.name p = n)
  /\ (forall n, PluginRegistry.has n st = true <-> n ∈ PluginRegistry.getNames st)
  /\ tables_merged st.
Proof.
  intros audio video.
  apply (registry_run_consistent sample_behaviour
           [OpRegister audio false; OpRegister video false] []).
  exact sample_behaviour_orderly.
Defined.

Lemma register_unregister_round_trip_witness :
  let audio := sample_plugin "audio" (Some 10) [("audio", 1%nat)] None in
  let video := sample_plugin "video" None [("video", 2%nat)] (Some 0%nat) in
  let st := (registry_run sample_behaviour [OpRegister audio false] []).1 in
  let st1 := (PluginRegistry.register sample_behaviour video false st []).1.2 in
  PluginRegistry.register sample_behaviour video false st [] = (Normal tt, st1, ["first"])
  /\ PluginRegistry.unregister sample_behaviour "video" st1 ["first"]
     = (Normal true, st, ["first"]).
Proof.
  intros audio video st st1.
  apply (register_unregister_round_trip sample_behaviour video st [] ["first"] ["first"]);
    reflexivity.
Defined.

Lemma register_stores_in_place_witness :
  let first := sample_plugin "video" (Some 10) [("video", 1%nat)] None in
  let second := sample_plugin "video" None [("video", 2%nat)] None in
  let audio := sample_plugin "audio" None [] None in
  let st := (registry_run sample_behaviour
               [OpRegister first false; OpRegister audio false] []).1 in
  let st' := (PluginRegistry.register sample_behaviour second true st []).1.2 in
  exists st1,
    st1 = st
    /\ PluginRegistry.get "video" st' = Some second
    /\ (forall m, m <> "video" -> PluginRegistry.get m st' = PluginRegistry.get m st1)
    /\ PluginRegistry.getNames st'
       = if PluginRegistry.has "video" st1 then PluginRegistry.getNames st1
         else PluginRegistry.getNames st1 ++ ["video"].
Proof.
  intros first second audio st st'.
  apply (register_stores_in_place sample_behaviour second true st [] st' []).
  reflexivity.
Defined.

(** ** Style translator: the declarations of a style attribute *)

Section Declarations.
Context `{JsNumber}.
Local Arguments parseValue : simpl never.

Lemma split_not_nil c s : split c s <> [].
Proof.
  destruct s as [|c' s]; simpl; [done|].
  destruct (Ascii.eqb c' c); [done|]. by destruct (split c s).
Qed.

Lemma split_app c a b :
  split c (a +:+ String c b) = split c a ++ split c b.
Proof.
  induction a as [|c' a IH].
  - rewrite app_empty_l. simpl. by rewrite Ascii.eqb_refl.
  - rewrite app_cons. simpl. destruct (Ascii.eqb c' c); [by rewrite IH|].
    rewrite IH. pose proof (split_not_nil c a). by destruct (split c a).
Qed.

Lemma parseDeclaration_from style d :
  parseDeclaration style d
  = match parseDeclaration ∅ d with
    | Normal s => Normal (s ∪ style)
    | Thrown msg => Thrown msg
    end.
Proof.
  unfold parseDeclaration.
  destruct (indexOf ":" d); [|by rewrite (left_id_L ∅ (∪))].
  destruct (_ || _); [by rewrite (left_id_L ∅ (∪))|].
  destruct (CSS_TO_RN_MAP _) as [rn|member|]; [| |by rewrite (left_id_L ∅ (∪))].
  - destruct (parseValue _ _) as [[v|]|msg]; [|by rewrite (left_id_L ∅ (∪))|done].
    by rewrite insert_empty, insert_union_singleton_l.
  - destruct (parseValue _ _) as [[v|]|msg]; [|by rewrite (left_id_L ∅ (∪))|done].
    by rewrite insert_empty, insert_union_singleton_l.
Qed.

Lemma parseDeclarations_from l style :
  parseDeclarations l style
  = match parseDeclarations l ∅ with
    | Normal s => Normal (s ∪ style)
    | Thrown msg => Thrown msg
    end.
Proof.
  revert style. induction l as [|d l IH]; intros style; cbn [parseDeclarations].
  - by rewrite (left_id_L ∅ (∪)).
  - rewrite (parseDeclaration_from style d).
    destruct (parseDeclaration ∅ d) as [s|msg]; [|done].
    rewrite IH, (IH s). destruct (parseDeclarations l ∅); [|done].
    by rewrite (assoc_L (∪)).
Qed.

Lemma parseDeclarations_app l1 l2 style :
  parseDeclarations (l1 ++ l2) style
  = match parseDeclarations l1 style with
    | Normal s => parseDeclarations l2 s
    | Thrown msg => Thrown msg
    end.
Proof.
  revert style. induction l1 as [|d l1 IH]; intros style; [done|].
  cbn [app parseDeclarations]. destruct (parseDeclaration style d); [apply IH|done].
Qed.

Lemma blank_lacks c s :
  is_whitespace c = false -> isWhitespaceOnly s = true -> indexOf c s = None.
Proof.
  intros Hc Hs. destruct (indexOf c s) eqn:E; [|done].
  by rewrite (indexOf_not_blank c s n Hc E) in Hs.
Qed.

(** The early return of [parseInlineStyle] is what the loop computes. *)
Lemma parseInlineStyle_loop css :
  parseInlineStyle (Some css)
  = parseDeclarations (filter (fun d => nonempty d = true) (split ";" css)) ∅.
Proof.
  unfold parseInlineStyle. destruct css as [|c css]; [done|].
  cbn [nonempty negb orb]. rewrite trim_empty.
  destruct (isWhitespaceOnly (String c css)) eqn:Hblank; [|done].
  rewrite split_lacks by (by apply blank_lacks).
  rewrite filter_cons_True by done. rewrite filter_nil. cbn [parseDeclarations].
  unfold parseDeclaration. by rewrite (blank_lacks ":" _ eq_refl Hblank).
Qed.

Lemma parseInlineStyle_app a b :
  parseInlineStyle (Some (a +:+ ";" +:+ b))
  = followed_by (parseInlineStyle (Some a)) (parseInlineStyle (Some b)).
Proof.
  rewrite !parseInlineStyle_loop. change (";" +:+ b) with (String ";" b).
  rewrite split_app, filter_app, parseDeclarations_app. unfold followed_by.
  destruct (parseDeclarations (filter _ (split ";" a)) ∅) as [sa|msg]; [|done].
  apply parseDeclarations_from.
Qed.

Lemma keyword_undefined value property :
  In value CSS_WIDE_KEYWORDS -> parseValue value property = Normal None.
Proof. unfold parseValue. intros [<-|[<-|[<-|[]]]]; reflexivity. Qed.

Lemma parseInlineStyle_skipped d : skipped d -> parseInlineStyle (Some d) = Normal ∅.
Proof.
  intros [Hsemi Hd]. rewrite parseInlineStyle_loop, split_lacks by done.
  destruct d as [|c d]; [done|]. rewrite filter_cons_True by done.
  rewrite filter_nil. cbn [parseDeclarations].
  assert (Hskip : parseDeclaration ∅ (String c d) = Normal ∅); [|by rewrite Hskip].
  unfold parseDeclaration.
  destruct Hd as [->|(property & value & (_ & i & -> & Hp & Hv) & Hcase)]; [done|].
  rewrite Hp, Hv. destruct Hcase as [->|[->|[[Hnone Hout]|Hkw]]]; [done| | |].
  - by rewrite orb_true_r.
  - destruct (_ || _); [done|]. unfold CSS_TO_RN_MAP.
    rewrite Hnone, property_of_None. unfold unowned.
    by destruct (decide (property ∈ OBJECT_PROTOTYPE)).
  - destruct (_ || _); [done|].
    destruct (CSS_TO_RN_MAP property); [| |done]; by rewrite (keyword_undefined _ _ Hkw).
Qed.

(** The only members of [Object.prototype] whose names are in lower case. *)
Lemma lowercase_member (text member : string) :
  CSS_TO_RN_MAP (toLowerCase text) = Inherited member ->
  member = "constructor" \/ member = "__proto__".
Proof.
  pose proof (toLowerCase_idempotent text) as Hlow. revert Hlow.
  generalize (toLowerCase text). intros key Hlow.
  unfold CSS_TO_RN_MAP, property_of. destruct (table_lookup _ _); [done|].
  rewrite is_member_elem. case_bool_decide as Hin; [|done]. intros [= <-].
  unfold OBJECT_PROTOTYPE in Hin. rewrite !elem_of_cons in Hin.
  destruct Hin as [->|[->|[->|[->|[->|[->|[->|[->|[->|[->|[->|[->|Hin]]]]]]]]]]]];
    try (by auto); try discriminate Hlow.
  by apply elem_of_nil in Hin.
Qed.

(** The keys a style object can have: the React Native names of the
    table, and the texts of what the lookup finds on [Object.prototype]. *)
Local Abbreviation known k :=
  ((exists property, CSS_TO_RN_MAP property = Own k)
   \/ k = "function Object() { [native code] }" \/ k = "[object Object]").

Lemma parseDeclaration_known style style' d :
  (forall k, is_Some (style !! k) -> known k) ->
  parseDeclaration style d = Normal style' ->
  forall k, is_Some (style' !! k) -> known k.
Proof.
  intros Hstyle. unfold parseDeclaration.
  destruct (indexOf ":" d) as [i|]; [|by intros [= <-]].
  destruct (_ || _); [by intros [= <-]|].
  destruct (CSS_TO_RN_MAP _) as [rn|member|] eqn:Hrn; [| |by intros [= <-]].
  - destruct (parseValue _ _) as [[v|]|msg]; [|by intros [= <-]|done].
    intros [= <-] k. cbn [property_key].
    destruct (decide (k = rn)) as [->|Hne]; [left; by eauto|].
    rewrite lookup_insert_ne by done. apply Hstyle.
  - destruct (parseValue _ _) as [[v|]|msg]; [|by intros [= <-]|done].
    intros [= <-] k. cbn [property_key].
    destruct (decide (k = member_text member)) as [->|Hne].
    + intros _. right. by destruct (lowercase_member _ _ Hrn) as [->| ->]; [left|right].
    + rewrite lookup_insert_ne by done. apply Hstyle.
Qed.

(** X12. Every property of the object [parseInlineStyle] returns is the
    React Native name of a CSS property of the translation table, or the
    text of [Object.prototype.constructor] or of [Object.prototype]
    itself: a declaration of the property [constructor] or [__proto__]
    with a numeric value is stored under that text, as the lookup in the
    table finds these two on [Object.prototype].  Any other unknown
    property never gets through. *)
Theorem parseInlineStyle_keys_known (cssString : option string)
    (style : gmap string StyleValue) (k : string) :
  parseInlineStyle cssString = Normal style ->
  is_Some (style !! k) ->
  (exists property, CSS_TO_RN_MAP property = Own k)
  \/ k = "function Object() { [native code] }" \/ k = "[object Object]".
Proof.
  destruct cssString as [css|];
    [|intros [= <-] [v Hv]; by rewrite lookup_empty in Hv].
  rewrite parseInlineStyle_loop. revert style k.
  generalize (filter (fun d => nonempty d = true) (split ";" css)).
  intros l. assert (Hempty : forall k, is_Some ((∅ : gmap string StyleValue) !! k) ->
                       known k)
    by (intros k; rewrite lookup_empty; by intros [? ?]).
  revert Hempty. generalize (∅ : gmap string StyleValue).
  induction l as [|d l IH]; intros style0 Hstyle style k.
  - intros [= <-]. apply Hstyle.
  - cbn [parseDeclarations].
    destruct (parseDeclaration style0 d) as [style1|msg] eqn:Hd; [|done].
    apply IH. by apply (parseDeclaration_known style0 style1 d).
Qed.

(** X13. The style of two attribute texts joined by a semicolon: when the
    translation of the first throws, so does that of the whole, and
    otherwise when the translation of the second throws; when neither
    does, it is the style of the first overridden by the style of the
    second, so per property the later declaration wins.  A trailing
    semicolon changes nothing. *)
Theorem parseInlineStyle_concatenation (a b k : string) :
  let joined := parseInlineStyle (Some (a +:+ ";" +:+ b)) in
  joined = match parseInlineStyle (Some a), parseInlineStyle (Some b) with
           | Thrown msg, _ => Thrown msg
           | Normal _, Thrown msg => Thrown msg
           | Normal first, Normal second => Normal (second ∪ first)
           end
  /\ (forall first second,
        parseInlineStyle (Some a) = Normal first ->
        parseInlineStyle (Some b) = Normal second ->
        exists style, joined = Normal style
          /\ style !! k = match second !! k with
                          | Some v => Some v
                          | None => first !! k
                          end)
  /\ parseInlineStyle (Some (a +:+ ";")) = parseInlineStyle (Some a).
Proof.
  intros joined. subst joined. split; [apply parseInlineStyle_app|]. split.
  - intros first second Ha Hb. rewrite parseInlineStyle_app, Ha, Hb.
    eexists. split; [done|]. rewrite lookup_union.
    destruct (second !! k), (first !! k); done.
  - rewrite <- (app_empty_r (a +:+ ";")), app_assoc_str, parseInlineStyle_app.
    change (parseInlineStyle (Some "")) with (Normal (∅ : gmap string StyleValue)).
    unfold followed_by. destruct (parseInlineStyle (Some a)); [|done].
    by rewrite (left_id_L ∅ (∪)).
Qed.

(** X14. A piece of a style attribute without a colon, with an empty
    property or value, with a property that the table lookup does not
    find, or with the value inherit, initial or unset contributes
    nothing: a value set by an earlier declaration stays, and whether the
    translation of the rest throws is not changed. *)
Theorem skipped_declaration_changes_nothing (d a : string) :
  skipped d ->
  parseInlineStyle (Some d) = Normal ∅
  /\ parseInlineStyle (Some (a +:+ ";" +:+ d)) = parseInlineStyle (Some a)
  /\ parseInlineStyle (Some (d +:+ ";" +:+ a)) = parseInlineStyle (Some a).
Proof.
  intros Hd. pose proof (parseInlineStyle_skipped d Hd) as Hempty.
  split; [done|]. rewrite !parseInlineStyle_app, Hempty. unfold followed_by.
  destruct (parseInlineStyle (Some a)); [|done].
  by rewrite (left_id_L ∅ (∪)), (right_id_L ∅ (∪)).
Qed.

Lemma mergeStyles_from l (acc : gmap string StyleValue) :
  fold_left (fun acc s => s ∪ acc) l acc = fold_left (fun acc s => s ∪ acc) l ∅ ∪ acc.
Proof.
  revert acc. induction l as [|s l IH]; intros acc; simpl.
  - by rewrite (left_id_L ∅ (∪)).
  - rewrite IH, (IH (s ∪ ∅)). by rewrite (right_id_L ∅ (∪)), (assoc_L (∪)).
Qed.

(** X15. [mergeStyles] skips undefined arguments, and merging can be done
    in groups: the merge of two argument lists one after the other is the
    merge of the second over the merge of the first.  The result is empty
    exactly when every argument is undefined or empty. *)
Theorem mergeStyles_in_groups (l1 l2 : list (option (gmap string StyleValue))) :
  mergeStyles (l1 ++ l2) = mergeStyles l2 ∪ mergeStyles l1
  /\ mergeStyles (l1 ++ l2) = mergeStyles [Some (mergeStyles l1); Some (mergeStyles l2)]
  /\ mergeStyles (None :: l1) = mergeStyles l1
  /\ mergeStyles (l1 ++ [None]) = mergeStyles l1
  /\ isEmptyStyle (Some (mergeStyles l1)) = forallb isEmptyStyle l1.
Proof.
  assert (Happ : forall a b : list (option (gmap string StyleValue)),
            mergeStyles (a ++ b) = mergeStyles b ∪ mergeStyles a).
  { intros a b. unfold mergeStyles. rewrite omap_app, fold_left_app.
    apply mergeStyles_from. }
  split; [apply Happ|]. split; [|split; [done|split]].
  - rewrite Happ. unfold mergeStyles at 3. cbn.
    by rewrite !(right_id_L ∅ (∪)).
  - rewrite Happ. unfold mergeStyles at 1. cbn. by rewrite (left_id_L ∅ (∪)).
  - induction l1 as [|s l IH]; [done|].
    change (s :: l) with ([s] ++ l). rewrite Happ. cbn [forallb app].
    rewrite <- IH. destruct s as [s|]; cbn [isEmptyStyle].
    + unfold mergeStyles at 2. cbn. rewrite (right_id_L ∅ (∪)).
      destruct (decide (s = ∅)) as [->|Hs].
      * rewrite (right_id_L ∅ (∪)). by rewrite (bool_decide_eq_true_2 (∅ = ∅)).
      * rewrite (bool_decide_eq_false_2 (s = ∅)) by done.
        apply bool_decide_eq_false. intros Hu. apply Hs, map_empty. intros k.
        assert (Hk : (mergeStyles l ∪ s) !! k = None) by (rewrite Hu; apply lookup_empty).
        by apply lookup_union_None in Hk as [_ ?].
    + unfold mergeStyles at 2. cbn. by rewrite (right_id_L ∅ (∪)).
Qed.
End Declarations.

Lemma mapTextDecoration_loop_words decorations mapped :
  mapTextDecoration_loop decorations mapped
  = if existsb (String.eqb "none") decorations then None
    else Some (mapped ++ filter (fun w => supported_decoration w = true) decorations).
Proof.
  revert mapped. induction decorations as [|dec rest IH]; intros mapped.
  - simpl. by rewrite app_nil_r.
  - cbn [mapTextDecoration_loop existsb].
    destruct (String.eqb dec "underline") eqn:E1.
    { apply String.eqb_eq in E1 as ->. rewrite IH. cbn [String.eqb orb].
      change ("none" =? "underline")%string with false. cbn [orb].
      destruct (existsb _ rest); [done|].
      rewrite filter_cons_True by done. by rewrite <- app_assoc. }
    destruct (String.eqb dec "line-through") eqn:E2.
    { apply String.eqb_eq in E2 as ->. rewrite IH.
      change ("none" =? "line-through")%string with false. cbn [orb].
      destruct (existsb _ rest); [done|].
      rewrite filter_cons_True by done. by rewrite <- app_assoc. }
    assert (Hskip : filter (fun w => supported_decoration w = true) (dec :: rest)
                    = filter (fun w => supported_decoration w = true) rest).
    { apply filter_cons_False. unfold supported_decoration. by rewrite E1, E2. }
    rewrite Hskip. rewrite (String.eqb_sym "none" dec).
    destruct (String.eqb dec "overline") eqn:E3.
    { apply String.eqb_eq in E3 as ->. apply IH. }
    destruct (String.eqb dec "none"); [done|]. apply IH.
Qed.

(** X16. [mapTextDecoration] answers none as soon as one of the words of
    the value is none; otherwise it keeps the words underline and
    line-through, in their order, and drops every other word; it never
    returns the empty string. *)
Theorem mapTextDecoration_keeps_supported_words (value : string) :
  let words := split " " value in
  mapTextDecoration value
  = (if existsb (String.eqb "none") words then "none"
     else match join " " (filter (fun w => supported_decoration w = true) words) with
          | EmptyString => "none"
          | joined => joined
          end)
  /\ mapTextDecoration value <> "".
Proof.
  intros words. subst words. unfold mapTextDecoration.
  rewrite mapTextDecoration_loop_words. cbn [app].
  destruct (existsb _ _); [done|]. by destruct (join " " _).
Qed.

Lemma parseInlineStyle_keys_known_witness :
  (exists property, CSS_TO_RN_MAP property = Own "color")
  \/ "color" = "function Object() { [native code] }" \/ "color" = "[object Object]".
Proof.
  apply (parseInlineStyle_keys_known (H := exact_numbers)
           (Some "color: red; float: left") {[ "color" := VStr "red" ]} "color").
  - reflexivity.
  - exists (VStr "red"). reflexivity.
Defined.

Lemma skipped_declaration_changes_nothing_witness :
  let H := exact_numbers in
  parseInlineStyle (Some "constructor: inherit") = Normal ∅
  /\ parseInlineStyle (Some ("color: red" +:+ ";" +:+ "constructor: inherit"))
     = parseInlineStyle (Some "color: red")
  /\ parseInlineStyle (Some ("constructor: inherit" +:+ ";" +:+ "color: red"))
     = parseInlineStyle (Some "color: red").
Proof.
  intros H.
  apply (skipped_declaration_changes_nothing "constructor: inherit" "color: red").
  split; [reflexivity|]. right. exists "constructor", "inherit".
  split; [|right; right; right; left; reflexivity].
  split; [reflexivity|]. exists 11%nat. repeat split; reflexivity.
Defined.

(** ** Walking and searching the tree *)

Section Queries.
Context `{JsNumber}.
Implicit Types (n : HtmlNode) (l : list HtmlNode) (p : option ElementNode).

Lemma visits_objects p n : map fst (visits p n) = objects n.
Proof.
  revert p. induction n as [e IH| |] using HtmlNode_nested_ind; intros p; [|done..].
  cbn [visits objects map fst]. f_equal.
  induction IH as [|c cs Hc _ IHcs]; [done|].
  cbn [flat_map]. by rewrite map_app, Hc, IHcs.
Qed.

Lemma all_visits_objects p l : map fst (all_visits p l) = all_objects l.
Proof.
  induction l as [|n l IH]; [done|].
  unfold all_visits, all_objects in *. cbn [flat_map].
  by rewrite map_app, visits_objects, IH.
Qed.

Section Unskipped.
Context {S : Type} (visitor : Visitor S).
Hypothesis never_false : forall n p s, (visitor n p s).2 = false.

Lemma walk_node_visits n : forall p s,
  walk_node visitor p n s
  = fold_left (fun s v => (visitor v.1 v.2 s).1) (visits p n) s.
Proof.
  induction n as [e IH| |] using HtmlNode_nested_ind; intros p s;
    cbn [walk_node visits fold_left fst snd];
    pose proof (never_false (NodeElement e) p s) as He || idtac.
  - destruct (visitor (NodeElement e) p s) as [s1 skip]. cbn in He. subst skip.
    cbn [fst]. generalize s1. clear s.
    induction IH as [|c cs Hc _ IHcs]; intros s; [done|].
    cbn [fold_left flat_map]. by rewrite fold_left_app, Hc, IHcs.
  - pose proof (never_false (NodeText t) p s) as Ht.
    destruct (visitor (NodeText t) p s) as [s1 skip]. cbn in Ht. by subst skip.
  - pose proof (never_false (NodeComment c) p s) as Hc.
    destruct (visitor (NodeComment c) p s) as [s1 skip]. cbn in Hc. by subst skip.
Qed.

Lemma walk_visits l p s :
  walk visitor l p s = fold_left (fun s v => (visitor v.1 v.2 s).1) (all_visits p l) s.
Proof.
  revert s. induction l as [|n l IH]; intros s; [done|].
  unfold walk, all_visits in *. cbn [fold_left flat_map].
  by rewrite fold_left_app, walk_node_visits, IH.
Qed.
End Unskipped.

Lemma visits_held n : forall p,
  match p with Some e => In n (children e) | None => True end ->
  Forall (fun v => match v.2 with
                   | Some e => In v.1 (children e)
                   | None => p = None /\ v.1 = n
                   end) (visits p n).
Proof.
  induction n as [e IH| |] using HtmlNode_nested_ind; intros p Hp;
    cbn [visits]; (constructor; [by destruct p|]); [|constructor..].
  apply Forall_flat_map, Forall_forall. intros c Hc.
  rewrite Forall_forall in IH. apply list_elem_of_In in Hc as Hin.
  specialize (IH c Hc (Some e) Hin).
  eapply Forall_impl; [exact IH|]. intros [x [e'|]]; cbn; [done|].
  intros [[=] _].
Qed.

(** X17. [walkAst] with a visitor that never returns false calls it once
    for every node of the forest, in document order (an element before
    its children, siblings from left to right), and passes the element
    that holds the node as parent, and nothing for a root. *)
Theorem walkAst_visits_document_order {S} (visitor : Visitor S) l (s : S) :
  (forall n p s, (visitor n p s).2 = false) ->
  walkAst l visitor s
  = fold_left (fun s v => (visitor v.1 v.2 s).1) (all_visits None l) s
  /\ map fst (all_visits None l) = all_objects l
  /\ Forall (fun v => match v.2 with
                      | Some e => In v.1 (children e)
                      | None => In v.1 l
                      end) (all_visits None l).
Proof.
  intros Hnever. split; [by apply walk_visits|]. split; [apply all_visits_objects|].
  apply Forall_flat_map, Forall_forall. intros n Hn.
  eapply Forall_impl; [by apply visits_held|]. intros [x [e|]]; cbn; [done|].
  intros [_ ->]. by apply list_elem_of_In.
Qed.

Lemma collect_filter (predicate : HtmlNode -> bool)
    (vs : list (HtmlNode * option ElementNode)) (result : list HtmlNode) :
  fold_left (fun s v => if predicate v.1 then s ++ [v.1] else s) vs result
  = result ++ filter (fun n => predicate n = true) (map fst vs).
Proof.
  revert result. induction vs as [|[n p] vs IH]; intros result.
  - by rewrite app_nil_r.
  - cbn [fold_left map fst]. rewrite IH. destruct (predicate n) eqn:E.
    + rewrite filter_cons_True by done. by rewrite <- app_assoc.
    + rewrite filter_cons_False by (by rewrite E). done.
Qed.

Lemma findNodes_filter l predicate :
  findNodes l predicate = filter (fun n => predicate n = true) (all_objects l).
Proof.
  unfold findNodes, walkAst. rewrite walk_visits by done. cbn [fst].
  change (fold_left _ (all_visits None l) [])
    with (fold_left (fun s v => if predicate v.1 then s ++ [v.1] else s)
            (all_visits None l) []).
  by rewrite collect_filter, all_visits_objects.
Qed.

Lemma count_length {A} (vs : list A) (count : nat) :
  fold_left (fun s _ => S s) vs count = (count + length vs)%nat.
Proof.
  revert count. induction vs as [|v vs IH]; intros count; cbn; [lia|].
  rewrite IH. lia.
Qed.

(** X18. [findNodes] returns the nodes that satisfy the predicate, from
    every level of the forest, in document order; [findByTag] those
    elements whose tag name is the lower-cased argument; [countNodes]
    counts every node of every level. *)
Theorem findNodes_in_document_order l (predicate : HtmlNode -> bool) (tag : string) :
  findNodes l predicate = filter (fun n => predicate n = true) (all_objects l)
  /\ findByTag l tag
     = filter (fun n => has_tag (toLowerCase tag) n = true) (all_objects l)
  /\ countNodes l = length (all_objects l)
  /\ (length (findNodes l predicate) <= countNodes l)%nat.
Proof.
  assert (Hcount : countNodes l = length (all_objects l)).
  { unfold countNodes, walkAst. rewrite walk_visits by done.
    change (fold_left _ (all_visits None l) 0%nat)
      with (fold_left (fun s (_ : HtmlNode * option ElementNode) => S s)
              (all_visits None l) 0%nat).
    by rewrite count_length, <- (all_visits_objects None), length_map. }
  split; [apply findNodes_filter|]. split; [apply findNodes_filter|].
  split; [done|]. rewrite Hcount, findNodes_filter. apply length_filter.
Qed.

Local Abbreviation id_visitor id :=
  (fun (node : HtmlNode) (_ : option ElementNode) (result : option ElementNode) =>
     match node with
     | NodeElement e =>
         if bool_decide (attributes e !! "id" = Some id) then (Some e, true)
         else (result, false)
     | _ => (result, false)
     end).

Lemma or_else_node_assoc {A} (a b c : option A) :
  or_else_node a (or_else_node b c) = or_else_node (or_else_node a b) c.
Proof. by destruct a. Qed.

Lemma fold_or_else {A} (f : HtmlNode -> option A -> option A) l :
  Forall (fun c => forall s, f c s = or_else_node (f c None) s) l ->
  forall s, fold_left (fun acc c => f c acc) l s
            = or_else_node (fold_left (fun acc c => f c acc) l None) s.
Proof.
  induction 1 as [|c cs Hc _ IH]; intros s; [done|].
  cbn [fold_left]. rewrite IH, (IH (f c None)), Hc. apply or_else_node_assoc.
Qed.

Lemma findId_from id n : forall p s,
  walk_node (id_visitor id) p n s
  = or_else_node (walk_node (id_visitor id) p n None) s.
Proof.
  induction n as [e IH| |] using HtmlNode_nested_ind; intros p s; [|done..].
  cbn [walk_node]. case_bool_decide; [done|].
  apply (fold_or_else (fun c acc => walk_node (id_visitor id) (Some e) c acc)).
  eapply Forall_impl; [exact IH|]. intros c Hc. apply Hc.
Qed.

Lemma findId_list_from id l p s :
  walk (id_visitor id) l p s = or_else_node (walk (id_visitor id) l p None) s.
Proof.
  apply (fold_or_else (fun c acc => walk_node (id_visitor id) p c acc)).
  apply Forall_forall. intros c _. apply findId_from.
Qed.

Lemma findId_cons id n l p :
  walk (id_visitor id) (n :: l) p None
  = or_else_node (walk (id_visitor id) l p None) (walk_node (id_visitor id) p n None).
Proof. unfold walk at 1. cbn [fold_left]. apply findId_list_from. Qed.

Lemma findId_list id l p :
  (forall e, walk (id_visitor id) l p None = Some e ->
     exists c, In c l /\ walk_node (id_visitor id) p c None = Some e)
  /\ (walk (id_visitor id) l p None = None ->
      forall c, In c l -> walk_node (id_visitor id) p c None = None).
Proof.
  induction l as [|n l [IHs IHn]]; [by split|]. rewrite findId_cons.
  destruct (walk (id_visitor id) l p None) as [e'|] eqn:Hl; cbn [or_else_node].
  - split; [|done]. intros e [= <-]. destruct (IHs e' eq_refl) as (c & Hc & Hw).
    exists c. split; [by right|done].
  - split.
    + intros e He. exists n. split; [by left|done].
    + intros Hn c [<-|Hc]; [done|]. by apply IHn.
Qed.

Lemma findId_sound id n : forall p e,
  walk_node (id_visitor id) p n None = Some e ->
  In (NodeElement e) (objects n) /\ attributes e !! "id" = Some id.
Proof.
  induction n as [e0 IH| |] using HtmlNode_nested_ind; intros p e; [|done..].
  cbn [walk_node objects]. case_bool_decide as Hid.
  - intros [= <-]. split; [by left|done].
  - intros Hw. apply (findId_list id (children e0) (Some e0)) in Hw
      as (c & Hc & Hw).
    rewrite Forall_forall in IH. apply list_elem_of_In in Hc as Hc'.
    destruct (IH c Hc' _ _ Hw) as [Hin Hattr]. split; [|done].
    right. apply in_flat_map. by exists c.
Qed.

Lemma findId_complete id n : forall p,
  walk_node (id_visitor id) p n None = None ->
  Forall (fun x => has_id id x = false) (objects n).
Proof.
  induction n as [e0 IH| |] using HtmlNode_nested_ind; intros p;
    [|by repeat constructor..].
  cbn [walk_node objects]. case_bool_decide as Hid; [done|].
  intros Hw. constructor; [by apply bool_decide_eq_false|].
  apply Forall_flat_map, Forall_forall. intros c Hc.
  rewrite Forall_forall in IH. apply (IH c Hc (Some e0)).
  apply (findId_list id (children e0) (Some e0)); [done|].
  by apply list_elem_of_In.
Qed.

(** X19. [findById] returns an element of the forest whose id attribute
    is the one asked for, and undefined exactly when no element of the
    forest has that id.  The walk does not stop at a match: it only skips
    the children of the match, so that of several trees with a match the
    last one supplies the result. *)
Theorem findById_last_match l (id : string) :
  (forall e, findById l id = Some e ->
     In (NodeElement e) (all_objects l) /\ attributes e !! "id" = Some id)
  /\ (findById l id = None <-> Forall (fun x => has_id id x = false) (all_objects l))
  /\ (forall a b, findById (a ++ b) id = or_else_node (findById b id) (findById a id)).
Proof.
  assert (Hsound : forall e, findById l id = Some e ->
            In (NodeElement e) (all_objects l) /\ attributes e !! "id" = Some id).
  { intros e He. apply (findId_list id l None) in He as (c & Hc & Hw).
    destruct (findId_sound _ _ _ _ Hw) as [Hin Hattr]. split; [|done].
    apply in_flat_map. by exists c. }
  split; [done|]. split; [split|].
  - intros Hnone. apply Forall_flat_map, Forall_forall. intros c Hc.
    apply (findId_complete id c None).
    apply (findId_list id l None); [done|]. by apply list_elem_of_In.
  - intros Hall. destruct (findById l id) as [e|] eqn:He; [|done].
    destruct (Hsound e eq_refl) as [Hin Hattr].
    rewrite Forall_forall in Hall. apply list_elem_of_In, Hall in Hin.
    cbn in Hin. by rewrite bool_decide_eq_true_2 in Hin.
  - intros a b. unfold findById, walkAst, walk. rewrite fold_left_app.
    apply (findId_list_from id b None).
Qed.

Lemma join_empty_cons (piece : string) (pieces : list string) :
  join "" (piece :: pieces) = piece +:+ join "" pieces.
Proof.
  destruct pieces as [|q pieces]; cbn [join];
    [by rewrite app_empty_r|by rewrite app_empty_l].
Qed.

Lemma join_empty_app (l1 l2 : list string) :
  join "" (l1 ++ l2) = join "" l1 +:+ join "" l2.
Proof.
  induction l1 as [|piece l1 IH]; [by rewrite app_empty_l|].
  rewrite <- app_comm_cons, !join_empty_cons, IH. by rewrite app_assoc_str.
Qed.

(** X20. The text content of a node is the concatenation of the contents
    of the text nodes below it, at any depth, in document order; comments
    contribute nothing. *)
Theorem getTextContent_concatenates_texts n :
  getTextContent n = join "" (texts (objects n)).
Proof.
  induction n as [e IH| |] using HtmlNode_nested_ind; [|done..].
  cbn [getTextContent objects].
  change (texts (NodeElement e :: flat_map objects (children e)))
    with (texts (flat_map objects (children e))).
  induction IH as [|c cs Hc _ IHcs]; [done|].
  cbn [map flat_map]. rewrite join_empty_cons. unfold texts in *.
  by rewrite omap_app, join_empty_app, Hc, IHcs.
Qed.
End Queries.

Lemma walkAst_visits_document_order_witness :
  let H := exact_numbers in
  let l := returned (parseHtml (answering dom_div_p_text) "<div><p>Text</p></div>"
                       no_options initial_state) in
  let visitor : Visitor (list (string * option string)) :=
    fun n p s => (s ++ [(getTextContent n, option_map tagName p)], false) in
  walkAst l visitor []
  = fold_left (fun s v => (visitor v.1 v.2 s).1) (all_visits None l) []
  /\ map fst (all_visits None l) = all_objects l
  /\ Forall (fun v => match v.2 with
                      | Some e => In v.1 (children e)
                      | None => In v.1 l
                      end) (all_visits None l).
Proof.
  intros H l visitor. apply (walkAst_visits_document_order visitor l []). reflexivity.
Defined.

(** ** What every parsed tree satisfies *)

Section Created.
Context `{JsNumber}.
Variable options : ParserOptions.
Variable I : ParserState -> Prop.
Variable Q : HtmlNode -> Prop.
Hypothesis I_bump : forall st, I st -> I (bump st).
Hypothesis Q_text : forall st data p,
  I st ->
  let content := if enabled (normalizeWhitespace options)
                 then normalizeText data false else data in
  isWhitespaceOnly content && enabled (normalizeWhitespace options) = false ->
  Q (created_text st content p).
Hypothesis Q_element : forall st name attribs kids p,
  I st ->
  String.eqb (toLowerCase name) "script" || String.eqb (toLowerCase name) "style" = false ->
  Q (created_element st name attribs kids p).

Local Abbreviation created_by d :=
  (forall p st, I st ->
     I (convertNode d p options st).2
     /\ forall n, (convertNode d p options st).1 = Some n -> Forall Q (objects n)).

Lemma all_objects_app (l1 l2 : list HtmlNode) :
  all_objects (l1 ++ l2) = all_objects l1 ++ all_objects l2.
Proof. apply flat_map_app. Qed.

Lemma convert_each_created p kids : forall st,
  Forall (fun d => created_by d) kids -> I st ->
  I (convert_each (fun child => convertNode child p options) kids st).2
  /\ Forall Q (all_objects
                 (convert_each (fun child => convertNode child p options) kids st).1).
Proof.
  intros st Hkids. revert st. induction Hkids as [|d kids Hd _ IH]; intros st Hst.
  - split; [done|constructor].
  - cbn [convert_each]. destruct (Hd p st Hst) as [Hst1 Hn].
    destruct (convertNode d p options st) as [converted st1]. cbn [fst snd] in *.
    destruct (IH st1 Hst1) as [Hst2 Hothers].
    destruct (convert_each _ kids st1) as [others st2]. cbn [fst snd] in *.
    split; [done|]. destruct converted as [c|]; [|done].
    change (all_objects (c :: others)) with (objects c ++ all_objects others).
    apply Forall_app. split; [by apply Hn|done].
Qed.

Lemma convertNode_created d : created_by d.
Proof.
  induction d as [data|type name attribs kids IH|data|kids]
    using DomNode_nested_ind; intros p st Hst; [| |by split..].
  - cbn [convertNode].
    destruct (isWhitespaceOnly _ && _) eqn:Hblank; [by split|].
    cbn. split; [by apply I_bump|]. intros n [= <-].
    constructor; [|constructor]. by apply (Q_text st data p).
  - cbn [convertNode].
    destruct (String.eqb _ "script" || String.eqb _ "style") eqn:Htag; [by split|].
    cbn [generateKey alloc fst snd keyCounter nextRef].
    pose proof (convert_each_created (Some (nextRef st)) kids (bump st) IH
                  (I_bump st Hst)) as [Hst3 Hkids].
    unfold bump in Hst3, Hkids.
    destruct (convert_each _ kids _) as [converted st3]. cbn [fst snd] in *.
    split; [done|]. intros n [= <-]. cbn [objects]. constructor; [|done].
    by apply (Q_element st name attribs converted p).
Qed.

Lemma handler_callback_created cs : forall ns es st,
  I st -> Forall Q (all_objects ns) ->
  let r := fold_left (handler_callback options) cs (ns, es, st) in
  I r.2 /\ Forall Q (all_objects r.1.1).
Proof.
  induction cs as [|call cs IH]; intros ns es st Hst Hns; [done|].
  cbn [fold_left]. destruct call as [msg|dom]; cbn [handler_callback]; [by apply IH|].
  pose proof (convert_each_created None dom st) as [Hst1 Hdom]; [|done|].
  { apply Forall_forall. intros d _. apply convertNode_created. }
  destruct (convert_each _ dom st) as [converted st1]. cbn [fst snd] in *.
  apply IH; [done|]. rewrite all_objects_app. by apply Forall_app.
Qed.
End Created.

Section Kept.
Context `{JsNumber}.
Variable Q : HtmlNode -> Prop.
Hypothesis Q_children : forall e cs,
  Q (NodeElement e) -> Q (NodeElement (with_children e cs)).
Hypothesis Q_merge : forall prev t,
  Q (NodeText prev) -> Q (NodeText t) ->
  Q (NodeText (with_content prev (content prev +:+ content t))).
Hypothesis Q_trimStart : forall t,
  Q (NodeText t) -> nonempty (trimStart (content t)) = true ->
  Q (NodeText (with_content t (trimStart (content t)))).
Hypothesis Q_trimEnd : forall t,
  Q (NodeText t) -> nonempty (trimEnd (content t)) = true ->
  Q (NodeText (with_content t (trimEnd (content t)))).

Local Abbreviation kept_by x :=
  (Forall Q (objects x) -> Forall Q (objects (postProcess_children x))).

Lemma all_objects_snoc (l : list HtmlNode) x :
  all_objects (l ++ [x]) = all_objects l ++ objects x.
Proof. unfold all_objects. rewrite flat_map_app. cbn. by rewrite app_nil_r. Qed.

Lemma postProcess_step_keeps result x :
  kept_by x -> Forall Q (all_objects result) -> Forall Q (objects x) ->
  Forall Q (all_objects (postProcess_step postProcess_children result x)).
Proof.
  intros Hx Hres Hobj. unfold postProcess_step.
  assert (Hpush : Forall Q (all_objects (result ++ [postProcess_children x]))).
  { rewrite all_objects_snoc. apply Forall_app. split; [done|by apply Hx]. }
  destruct x as [e|t|c]; try exact Hpush.
  destruct (last result) as [[e'|prev|c']|] eqn:Hlast; try exact Hpush.
  apply last_Some in Hlast as [rl ->]. rewrite removelast_last.
  rewrite all_objects_snoc in Hres |- *. apply Forall_app in Hres as [Hrl Hprev].
  apply Forall_app. split; [done|]. constructor; [|constructor].
  apply Q_merge; [by inversion Hprev|by inversion Hobj].
Qed.

Lemma trim_first_keeps result :
  Forall Q (all_objects result) -> Forall Q (all_objects (trim_first result)).
Proof.
  intros Hres. destruct result as [|[e|first|c] rest]; try done.
  unfold trim_first. change (all_objects (NodeText first :: rest))
    with (NodeText first :: all_objects rest) in Hres.
  inversion Hres as [|? ? Hfirst Hrest]. subst.
  destruct (nonempty _) eqn:Hne; [|done].
  constructor; [by apply Q_trimStart|done].
Qed.

Lemma trim_last_keeps result :
  Forall Q (all_objects result) -> Forall Q (all_objects (trim_last result)).
Proof.
  intros Hres. unfold trim_last.
  destruct (last result) as [[e|final|c]|] eqn:Hlast; try done.
  apply last_Some in Hlast as [rl ->]. rewrite removelast_last.
  rewrite all_objects_snoc in Hres. apply Forall_app in Hres as [Hrl Hfinal].
  destruct (nonempty _) eqn:Hne; [|done].
  rewrite all_objects_snoc. apply Forall_app. split; [done|].
  constructor; [|constructor]. apply Q_trimEnd; [by inversion Hfinal|done].
Qed.

Lemma postProcess_with_keeps l :
  Forall (fun x => kept_by x) l -> Forall Q (all_objects l) ->
  Forall Q (all_objects (postProcess_with postProcess_children l)).
Proof.
  intros Hl Hobj. unfold postProcess_with. apply trim_last_keeps, trim_first_keeps.
  assert (Hnil : Forall Q (all_objects [])) by constructor.
  revert Hnil Hobj. generalize (@nil HtmlNode).
  induction Hl as [|x l Hx _ IH]; intros result Hres Hobj; [done|].
  change (all_objects (x :: l)) with (objects x ++ all_objects l) in Hobj.
  apply Forall_app in Hobj as [Hox Hol]. cbn [fold_left].
  apply IH; [|done]. by apply postProcess_step_keeps.
Qed.

Lemma postProcess_children_keeps n : kept_by n.
Proof.
  induction n as [e IH|t|c] using HtmlNode_nested_ind; [|done..].
  cbn [objects postProcess_children children with_children].
  intros Hobj. inversion Hobj as [|? ? He Hkids]. subst.
  constructor; [by apply Q_children|]. by apply postProcess_with_keeps.
Qed.

Lemma postProcess_keeps l :
  Forall Q (all_objects l) -> Forall Q (all_objects (postProcess l)).
Proof.
  apply postProcess_with_keeps, Forall_forall. intros x _.
  apply postProcess_children_keeps.
Qed.
End Kept.

Section ParsedNodes.
Context `{JsNumber}.
Variable htmlparser2 : string -> option bool -> ParserRun.
Variable I : ParserState -> Prop.
Variable Q : HtmlNode -> Prop.

(** A property of the nodes [convertNode] creates that [postProcess]
    keeps holds of every node [parseHtml] returns. *)
Lemma parseHtml_created html options st :
  let mergedOptions := merge_options DEFAULT_OPTIONS options in
  (forall st, I st -> I (bump st)) ->
  (forall st data p, I st ->
     let content := if enabled (normalizeWhitespace mergedOptions)
                    then normalizeText data false else data in
     isWhitespaceOnly content && enabled (normalizeWhitespace mergedOptions) = false ->
     Q (created_text st content p)) ->
  (forall st name attribs kids p, I st ->
     String.eqb (toLowerCase name) "script" || String.eqb (toLowerCase name) "style"
     = false ->
     Q (created_element st name attribs kids p)) ->
  (forall e cs, Q (NodeElement e) -> Q (NodeElement (with_children e cs))) ->
  (forall prev t, Q (NodeText prev) -> Q (NodeText t) ->
     Q (NodeText (with_content prev (content prev +:+ content t)))) ->
  (forall t, Q (NodeText t) -> nonempty (trimStart (content t)) = true ->
     Q (NodeText (with_content t (trimStart (content t))))) ->
  (forall t, Q (NodeText t) -> nonempty (trimEnd (content t)) = true ->
     Q (NodeText (with_content t (trimEnd (content t))))) ->
  I st ->
  exists result st',
    parseHtml htmlparser2 html options st = (Normal result, st')
    /\ I st' /\ Forall Q (all_objects (nodes result)).
Proof.
  intros mergedOptions Hbump Htext Helem Hkids Hmerge Hstart Hend Hst.
  unfold parseHtml. fold mergedOptions.
  set (run := htmlparser2 html _).
  pose proof (handler_callback_created mergedOptions I Q Hbump Htext Helem
                (calls run) [] [] st Hst) as Hall.
  destruct (fold_left _ _ _) as [[ns es] st']. cbn [fst snd] in Hall.
  destruct Hall as [Hst' Hns]; [constructor|].
  destruct (thrown run) as [e|]; eexists _, _; (split; [done|]); (split; [done|]);
    cbn [nodes]; [done|].
  destruct (enabled _); [|done]. by apply postProcess_keeps.
Qed.
End ParsedNodes.
Section ParsedTrees.
Context `{JsNumber}.
Variable htmlparser2 : string -> option bool -> ParserRun.

Lemma parseAttributes_lowercase attribs k :
  is_Some (parseAttributes attribs !! k) -> lowercase k.
Proof.
  unfold parseAttributes. revert k.
  cut (forall result : gmap string string,
         (forall k, is_Some (result !! k) -> lowercase k) ->
         forall k, is_Some (fold_left (fun result '(k, value) =>
                                         <[toLowerCase k := value]> result)
                              attribs result !! k) -> lowercase k).
  { intros Hcut. apply Hcut. intros k. rewrite lookup_empty. by intros [? ?]. }
  induction attribs as [|[k0 v0] attribs IH]; intros result Hres k; [apply Hres|].
  cbn [fold_left]. apply IH. intros k'.
  destruct (decide (k' = toLowerCase k0)) as [->|Hne].
  - intros _. apply toLowerCase_idempotent.
  - rewrite lookup_insert_ne by done. apply Hres.
Qed.

(** X21. Every element of a tree [parseHtml] returns has a lower-case tag
    name that is neither script nor style, lower-case attribute names and
    no resolved styles; and the tree has no comment node. *)
Theorem parseHtml_elements_as_parsed html options st :
  exists result st',
    parseHtml htmlparser2 html options st = (Normal result, st')
    /\ Forall as_parsed (all_objects (nodes result)).
Proof.
  destruct (parseHtml_created htmlparser2 (fun _ => True) as_parsed html options st)
    as (result & st' & Hparse & _ & Hall); try done.
  - intros st0 name attribs kids p _ Htag. cbn.
    apply orb_false_iff in Htag as [Hscript Hstyle].
    split; [apply toLowerCase_idempotent|]. split; [by apply String.eqb_neq|].
    split; [by apply String.eqb_neq|]. split; [|done].
    intros k. apply parseAttributes_lowercase.
  - by exists result, st'.
Qed.

Lemma split_whitespace_solid in_run s :
  Forall solid (split_whitespace_from in_run s).
Proof.
  revert in_run. induction s as [|c s IH]; intros in_run; cbn [split_whitespace_from].
  - by repeat constructor.
  - destruct (is_whitespace c) eqn:Hc.
    + destruct in_run; [apply IH|]. constructor; [done|apply IH].
    + specialize (IH false). destruct (split_whitespace_from false s) as [|piece rest].
      * constructor; [|done]. by apply solid_cons.
      * inversion IH as [|? ? Hpiece Hrest]. subst.
        constructor; [|done]. by apply solid_cons.
Qed.

Lemma classNames_of_clean attrs :
  (classNames_of attrs = None <-> attrs !! "class" = None \/ attrs !! "class" = Some "")
  /\ Forall (fun c => c <> "" /\ solid c) (default [] (classNames_of attrs)).
Proof.
  unfold classNames_of. destruct (attrs !! "class") as [cls|]; [|by split; [split; auto|]].
  destruct cls as [|c cls]; cbn [nonempty]; [by split; [split; auto|]|].
  split; [split; [done|by intros [|]]|]. cbn [default from_option].
  apply Forall_forall. intros x [Hx Hin]%list_elem_of_filter.
  split; [by apply nonempty_true|].
  pose proof (split_whitespace_solid false (String c cls)) as Hall.
  rewrite Forall_forall in Hall. by apply Hall.
Qed.

(** X22. In every tree [parseHtml] returns, an element has class names
    exactly when its class attribute is present and not empty; they are
    the words of that attribute: no class name is empty and none has
    white space in it. *)
Theorem parseHtml_class_names_clean html options st :
  exists result st',
    parseHtml htmlparser2 html options st = (Normal result, st')
    /\ Forall class_names_clean (all_objects (nodes result)).
Proof.
  destruct (parseHtml_created htmlparser2 (fun _ => True) class_names_clean
              html options st) as (result & st' & Hparse & _ & Hall); try done.
  - intros st0 name attribs kids p _ _. cbn. split; [done|].
    apply classNames_of_clean.
  - by exists result, st'.
Qed.

Lemma spaces_only_cons c s :
  spaces_only (String c s)
  <-> (is_whitespace c = false \/ c = " "%char) /\ spaces_only s.
Proof.
  unfold spaces_only. cbn [String.list_ascii_of_string forallb].
  rewrite andb_true_iff, orb_true_iff, negb_true_iff.
  split; (intros [Hc Hs]; split; [|done]);
    (destruct Hc as [Hc|Hc]; [by left|right]).
  - by apply Ascii.eqb_eq.
  - by apply Ascii.eqb_eq.
Qed.

Lemma spaces_only_app s t : spaces_only s -> spaces_only t -> spaces_only (s +:+ t).
Proof.
  intros Hs Ht. induction s as [|c s IH]; [done|].
  rewrite app_cons. apply spaces_only_cons in Hs as [Hc Hs].
  apply spaces_only_cons. auto.
Qed.

Lemma spaces_only_collapse in_run s : spaces_only (collapse_whitespace in_run s).
Proof.
  revert in_run. induction s as [|c s IH]; intros in_run; [done|].
  cbn [collapse_whitespace]. destruct (is_whitespace c) eqn:Hc.
  - destruct in_run; [apply IH|]. apply spaces_only_cons. split; [by right|apply IH].
  - apply spaces_only_cons. split; [by left|apply IH].
Qed.

Lemma spaces_only_trimStart s : spaces_only s -> spaces_only (trimStart s).
Proof.
  induction s as [|c s IH]; [done|]. intros Hs. cbn [trimStart].
  destruct (is_whitespace c); [|done]. apply spaces_only_cons in Hs as [_ Hs]. auto.
Qed.

Lemma spaces_only_trimEnd s : spaces_only s -> spaces_only (trimEnd s).
Proof.
  induction s as [|c s IH]; [done|]. intros [Hc Hs]%spaces_only_cons.
  cbn [trimEnd]. specialize (IH Hs). destruct (trimEnd s) as [|c' r].
  - destruct (is_whitespace c) eqn:E; [done|]. apply spaces_only_cons. by split; [left|].
  - by apply spaces_only_cons.
Qed.

Lemma not_blank_app s t :
  isWhitespaceOnly s = false -> isWhitespaceOnly (s +:+ t) = false.
Proof.
  induction s as [|c s IH]; [done|]. rewrite app_cons. cbn [isWhitespaceOnly].
  destruct (is_whitespace c); [apply IH|done].
Qed.

(** X23. With white-space normalization on, every text node of a tree
    [parseHtml] returns, at any depth, has something to show (it is not
    empty and not white space only), and its only white-space characters
    are plain spaces. *)
Theorem parseHtml_texts_normalized html options st :
  enabled (normalizeWhitespace (merge_options DEFAULT_OPTIONS options)) = true ->
  exists result st',
    parseHtml htmlparser2 html options st = (Normal result, st')
    /\ Forall text_normalized (all_objects (nodes result)).
Proof.
  intros Hon.
  destruct (parseHtml_created htmlparser2 (fun _ => True) text_normalized
              html options st) as (result & st' & Hparse & _ & Hall); try done.
  - intros st0 data p _. rewrite Hon. cbn zeta. rewrite andb_true_r. intros Hblank.
    split; [apply spaces_only_collapse|done].
  - intros prev t [Hs1 Hb1] [Hs2 Hb2]. split; [by apply spaces_only_app|].
    by apply not_blank_app.
  - intros t [Hs Hb] _. split; [by apply spaces_only_trimStart|].
    cbn. by rewrite whitespaceOnly_trimStart.
  - intros t [Hs Hb] _. split; [by apply spaces_only_trimEnd|].
    cbn. by rewrite whitespaceOnly_trimEnd.
  - by exists result, st'.
Qed.
End ParsedTrees.

Section Keys.
Context `{JsNumber}.
Variable htmlparser2 : string -> option bool -> ParserRun.

Lemma digit_char_value d :
  0 <= d < 10 -> Z.of_N (code (digit_char d)) - 48 = d.
Proof.
  intros Hd. unfold code, digit_char. rewrite N_ascii_embedding by lia. lia.
Qed.

Lemma Z_digits_value fuel : forall z acc,
  0 <= z < Z.of_nat fuel ->
  exists k, 0 <= k /\ forall a,
    decimal_value (Z_digits fuel z acc) a = decimal_value acc (a * 10 ^ k + z).
Proof.
  induction fuel as [|fuel IH]; intros z acc Hz; [lia|].
  cbn [Z_digits]. pose proof (Z.mod_pos_bound z 10 eq_refl) as Hmod.
  pose proof (Z.div_mod z 10) as Hdiv.
  destruct (z / 10 =? 0) eqn:Hsmall.
  - apply Z.eqb_eq in Hsmall. exists 1. split; [lia|]. intros a.
    cbn [decimal_value]. rewrite digit_char_value by lia. f_equal. lia.
  - apply Z.eqb_neq in Hsmall.
    assert (Hq : 0 <= z / 10 < Z.of_nat fuel).
    { pose proof (Z.div_pos z 10). pose proof (Z.div_lt z 10). lia. }
    destruct (IH (z / 10) (String (digit_char (z mod 10)) acc) Hq) as (k & Hk & Hval).
    exists (k + 1). split; [lia|]. intros a. rewrite Hval.
    cbn [decimal_value]. rewrite digit_char_value by lia. f_equal.
    rewrite Z.pow_add_r by lia. lia.
Qed.

Lemma nat_to_string_value n : decimal_value (nat_to_string n) 0 = Z.of_nat n.
Proof.
  unfold nat_to_string.
  destruct (Z_digits_value (S n) (Z.of_nat n) "") as (k & _ & Hval); [lia|].
  by rewrite Hval.
Qed.

Lemma nat_to_string_injective n m : nat_to_string n = nat_to_string m -> n = m.
Proof.
  intros Heq. apply Nat2Z.inj. by rewrite <- !nat_to_string_value, Heq.
Qed.

Lemma app_inv_prefix prefix s t : prefix +:+ s = prefix +:+ t -> s = t.
Proof.
  induction prefix as [|c prefix IH]; [by rewrite !app_empty_l|].
  rewrite !app_cons. intros [= Heq]. auto.
Qed.

Lemma handler_callback_refs options (first : Ref) cs : forall ns es st,
  refs ns = seq first (nextRef st - first) -> (first <= nextRef st)%nat ->
  let r := fold_left (handler_callback options) cs (ns, es, st) in
  refs r.1.1 = seq first (nextRef r.2 - first) /\ (first <= nextRef r.2)%nat.
Proof.
  induction cs as [|call cs IH]; intros ns es st Hrefs Hle; [done|].
  cbn [fold_left]. destruct call as [msg|dom]; cbn [handler_callback]; [by apply IH|].
  pose proof (convert_each_well None options dom st) as Hall.
  destruct (convert_each _ dom st) as [converted st1].
  destruct Hall as (_ & Hrefs' & Hle').
  { apply Forall_forall. intros d _. apply convertNode_well. }
  cbn [fst snd] in *. apply IH; [|lia].
  rewrite refs_app, Hrefs, Hrefs'. apply seq_glue; lia.
Qed.

Lemma parseHtml_refs html options st :
  exists result st',
    parseHtml htmlparser2 html options st = (Normal result, st')
    /\ NoDup (refs (nodes result))
    /\ Forall (fun r => (r < nextRef st')%nat) (refs (nodes result)).
Proof.
  unfold parseHtml.
  set (mergedOptions := merge_options DEFAULT_OPTIONS options).
  set (run := htmlparser2 html _).
  pose proof (handler_callback_refs mergedOptions (nextRef st) (calls run)
                [] [] st) as Hrefs.
  destruct (fold_left _ _ _) as [[ns es] st']. cbn [fst snd] in Hrefs.
  destruct Hrefs as [Hrefs Hle]; [by rewrite Nat.sub_diag|done|].
  assert (Hns : NoDup (refs ns) /\ Forall (fun r => (r < nextRef st')%nat) (refs ns)).
  { rewrite Hrefs. split; [apply NoDup_seq|].
    apply Forall_forall. intros r Hr%elem_of_seq. lia. }
  destruct Hns as [Hnd Hlt].
  assert (Hsub : refs (postProcess ns) `sublist_of` refs ns).
  { apply postProcess_with_refs, Forall_forall. intros x _.
    apply postProcess_children_refs. }
  destruct (thrown run) as [e|]; eexists _, _; (split; [done|]); cbn [nodes];
    [done|].
  destruct (enabled _); [|done]. split.
  - by apply (sublist_NoDup _ (refs ns)).
  - rewrite Forall_forall in Hlt |- *. intros r Hr. apply Hlt.
    by apply (elem_of_sublist _ _ _ Hr).
Qed.

Lemma NoDup_map_through {A B C} (f : A -> B) (g : A -> C) (l : list A) :
  (forall x y, x ∈ l -> y ∈ l -> f x = f y -> g x = g y) ->
  NoDup (map g l) -> NoDup (map f l).
Proof.
  induction l as [|x l IH]; intros Hfg Hnd; [constructor|].
  cbn [map] in *. apply NoDup_cons in Hnd as [Hx Hnd]. apply NoDup_cons. split.
  - intros (y & Hxy & Hy)%list_elem_of_fmap. apply Hx.
    apply list_elem_of_fmap. exists y. split; [|done].
    apply Hfg; [left|by right|done].
  - apply IH; [|done]. intros a b Ha Hb. apply Hfg; by right.
Qed.

(** X24. Every node of a tree [parseHtml] returns has its own key: no two
    nodes of the tree share one.  The keys are [html-node-i] for values
    [i] of the key counter above the value it had before the call and up
    to the value it has after it, so that they differ from the keys of
    earlier calls too as long as the counter is not reset. *)
Theorem parseHtml_keys_distinct html options st :
  exists result st',
    parseHtml htmlparser2 html options st = (Normal result, st')
    /\ NoDup (map node_key (all_objects (nodes result)))
    /\ Forall (key_numbered (keyCounter st) (keyCounter st'))
         (all_objects (nodes result)).
Proof.
  destruct (parseHtml_refs html options st) as (result & st' & Hparse & Hnd & Hlt).
  destruct (parseHtml_created htmlparser2
              (counter_follows_ref (keyCounter st) (nextRef st))
              (key_follows_ref (keyCounter st) (nextRef st)) html options st)
    as (result' & st'' & Hparse' & [Hle' Hcount'] & Hall).
  - intros st0 [Hle Hc]. split; cbn; lia.
  - intros st0 data p [Hle Hc] content _. split; cbn; [done|by rewrite Hc].
  - intros st0 name attribs kids p [Hle Hc] _. split; cbn; [done|by rewrite Hc].
  - by intros e cs [? ?].
  - by intros prev t [? ?] _.
  - by intros t [? ?] _.
  - by intros t [? ?] _.
  - split; [done|lia].
  - rewrite Hparse in Hparse'. injection Hparse' as <- <-.
    exists result, st'. split; [done|]. unfold refs in Hnd, Hlt.
    rewrite Forall_forall in Hall. split.
    + apply (NoDup_map_through node_key node_ref); [|done].
      intros x y Hx Hy Hkey.
      destruct (Hall x Hx) as [Hxle Hxkey]. destruct (Hall y Hy) as [Hyle Hykey].
      rewrite Hxkey, Hykey in Hkey.
      apply app_inv_prefix, nat_to_string_injective in Hkey. lia.
    + apply Forall_forall. intros x Hx. destruct (Hall x Hx) as [Hxle Hxkey].
      rewrite Forall_forall in Hlt.
      assert (Hxlt : (node_ref x < nextRef st')%nat).
      { apply Hlt, list_elem_of_fmap. by exists x. }
      eexists. split; [exact Hxkey|]. lia.
Qed.
End Keys.

Lemma parseHtml_texts_normalized_witness :
  let H := exact_numbers in
  exists result st',
    parseHtml (answering dom_spaced) "" no_options initial_state = (Normal result, st')
    /\ Forall text_normalized (all_objects (nodes result)).
Proof.
  intros H. apply (parseHtml_texts_normalized (answering dom_spaced)). reflexivity.
Defined.

(** The tree of the sample with white space: one paragraph with its two
    class names and one text, the two pieces of text merged. *)
Example parsed_spaced_sample :
  let H := exact_numbers in
  let tree := returned (parseHtml (answering dom_spaced) "" no_options initial_state) in
  map (fun n => match n with
                | NodeElement e => (tagName e, classNames e, map getTextContent (children e))
                | _ => ("", None, [])
                end) tree
  = [("p", Some ["lead"; "big"], ["a b  c"])]
  /\ map node_key (all_objects tree) = ["html-node-1"; "html-node-2"].
Proof. intros H tree. split; reflexivity. Qed.

(** ** [postProcess] and the text of the tree *)

Section VisibleText.
Context `{JsNumber}.
Implicit Types (l result : list HtmlNode).

Lemma visible_app s t : visible (s +:+ t) = visible s +:+ visible t.
Proof.
  induction s as [|c s IH]; [by rewrite !app_empty_l|].
  rewrite app_cons. cbn [visible]. destruct (is_whitespace c); [done|].
  by rewrite app_cons, IH.
Qed.

Lemma visible_trimStart s : visible (trimStart s) = visible s.
Proof.
  induction s as [|c s IH]; [done|]. cbn [trimStart visible].
  destruct (is_whitespace c) eqn:Hc; [done|]. cbn [visible]. by rewrite Hc.
Qed.

Lemma visible_trimEnd s : visible (trimEnd s) = visible s.
Proof.
  induction s as [|c s IH]; [done|]. cbn [trimEnd visible]. rewrite <- IH.
  destruct (trimEnd s) as [|c' r].
  - by destruct (is_whitespace c) eqn:Hc; cbn [visible]; rewrite ?Hc.
  - done.
Qed.

Lemma forest_text_app l1 l2 :
  forest_text (l1 ++ l2) = forest_text l1 +:+ forest_text l2.
Proof. unfold forest_text. by rewrite map_app, join_empty_app. Qed.

Lemma forest_text_cons n l : forest_text (n :: l) = getTextContent n +:+ forest_text l.
Proof. apply join_empty_cons. Qed.

Lemma forest_text_snoc l n : forest_text (l ++ [n]) = forest_text l +:+ getTextContent n.
Proof. rewrite forest_text_app. unfold forest_text at 2. done. Qed.

Local Abbreviation same_visible x :=
  (visible (getTextContent (postProcess_children x)) = visible (getTextContent x)).

Lemma postProcess_step_visible result x :
  same_visible x ->
  visible (forest_text (postProcess_step postProcess_children result x))
  = visible (forest_text result) +:+ visible (getTextContent x).
Proof.
  intros Hx. unfold postProcess_step.
  assert (Hpush : visible (forest_text (result ++ [postProcess_children x]))
                  = visible (forest_text result) +:+ visible (getTextContent x))
    by by rewrite forest_text_snoc, visible_app, Hx.
  destruct x as [e|t|c]; try exact Hpush.
  destruct (last result) as [[e'|prev|c']|] eqn:Hlast; try exact Hpush.
  apply last_Some in Hlast as [rl ->]. rewrite removelast_last.
  rewrite !forest_text_snoc. cbn [getTextContent with_content content].
  by rewrite !visible_app, app_assoc_str.
Qed.

Lemma trim_first_visible result :
  visible (forest_text (trim_first result)) = visible (forest_text result).
Proof.
  destruct result as [|[e|first|c] rest]; try done. unfold trim_first.
  rewrite (forest_text_cons (NodeText first)), visible_app. cbn [getTextContent].
  rewrite <- (visible_trimStart (content first)).
  destruct (trimStart (content first)) as [|ch s] eqn:Htrim; cbn [nonempty].
  - by rewrite app_empty_l.
  - by rewrite forest_text_cons, visible_app.
Qed.

Lemma trim_last_visible result :
  visible (forest_text (trim_last result)) = visible (forest_text result).
Proof.
  unfold trim_last. destruct (last result) as [[e|final|c]|] eqn:Hlast; try done.
  apply last_Some in Hlast as [rl ->]. rewrite removelast_last.
  rewrite forest_text_snoc, visible_app. cbn [getTextContent].
  rewrite <- (visible_trimEnd (content final)).
  destruct (trimEnd (content final)) as [|ch s] eqn:Htrim; cbn [nonempty].
  - by rewrite app_empty_r.
  - by rewrite forest_text_snoc, visible_app.
Qed.

Lemma postProcess_with_visible l :
  Forall (fun x => same_visible x) l ->
  visible (forest_text (postProcess_with postProcess_children l))
  = visible (forest_text l).
Proof.
  intros Hl. unfold postProcess_with. rewrite trim_last_visible, trim_first_visible.
  rewrite <- (app_empty_l (visible (forest_text l))).
  change "" with (visible (forest_text [])) at 1. generalize (@nil HtmlNode).
  induction Hl as [|x l Hx _ IH]; intros result; cbn [fold_left].
  - by rewrite app_empty_r.
  - by rewrite IH, postProcess_step_visible, forest_text_cons, visible_app, app_assoc_str.
Qed.

Lemma postProcess_children_visible n : same_visible n.
Proof.
  induction n as [e IH|t|c] using HtmlNode_nested_ind; [|done..].
  by apply postProcess_with_visible.
Qed.

(** X25. [postProcess] changes nothing of the text but white space: the
    characters other than white space of the text of a forest are the
    same, in the same order, before and after; merging text nodes and
    trimming them never loses or moves a visible character. *)
Theorem postProcess_keeps_visible_text l :
  visible (forest_text (postProcess l)) = visible (forest_text l).
Proof.
  apply postProcess_with_visible, Forall_forall. intros x _.
  apply postProcess_children_visible.
Qed.
End VisibleText.

(** ** Style resolver: whole trees *)

Section ResolvedTrees.
Context `{JsNumber}.
Variable config : StyleResolverConfig.

(** What a call made of a list of nodes: copies, or the throw of the
    resolver on one of the elements. *)
Local Abbreviation outcome_of r l :=
  (match r with
   | Normal ys =>
       Forall2 (styled_copy config) (all_objects ys) (all_objects l)
       /\ length ys = length l
   | Thrown msg =>
       exists e, e ∈ elements (all_objects l) /\ resolveStyle config e = Thrown msg
   end).

Local Abbreviation copied n :=
  (forall next, match (processNode config n next).1 with
                | Normal y => Forall2 (styled_copy config) (objects y) (objects n)
                | Thrown msg =>
                    exists e, e ∈ elements (objects n)
                              /\ resolveStyle config e = Thrown msg
                end).

Lemma elements_app (l1 l2 : list HtmlNode) :
  elements (l1 ++ l2) = elements l1 ++ elements l2.
Proof. apply omap_app. Qed.

Lemma map_alloc_copies l : forall next,
  Forall (fun n => copied n) l ->
  outcome_of (map_alloc (processNode config) l next).1 l.
Proof.
  intros next Hl. revert next. induction Hl as [|n l Hn _ IH]; intros next.
  - split; [constructor|done].
  - cbn [map_alloc]. specialize (Hn next).
    change (all_objects (n :: l)) with (objects n ++ all_objects l).
    destruct (processNode config n next) as [[y|msg] next1]; cbn [fst] in Hn.
    + specialize (IH next1).
      destruct (map_alloc _ l next1) as [[ys|msg] next2]; cbn [fst] in *.
      * destruct IH as [Hall Hlen]. split; [|cbn [length]; by rewrite Hlen].
        change (all_objects (y :: ys)) with (objects y ++ all_objects ys).
        by apply Forall2_app.
      * destruct IH as (e & Hin & He). exists e. split; [|done].
        rewrite elements_app, elem_of_app. by right.
    + destruct Hn as (e & Hin & He). exists e. split; [|done].
      rewrite elements_app, elem_of_app. by left.
Qed.

Lemma processNode_copies n : copied n.
Proof.
  induction n as [e IH|t|c] using HtmlNode_nested_ind; intros next;
    [|by repeat constructor..].
  cbn [processNode].
  change (objects (NodeElement e)) with (NodeElement e :: all_objects (children e)).
  destruct (resolveStyle config e) as [resolved|msg] eqn:Hresolved.
  - pose proof (map_alloc_copies (children e) next IH) as Hkids.
    destruct (map_alloc _ (children e) next) as [[kids|msg] next1]; cbn [fst] in *.
    + destruct Hkids as [Hall Hlen]. cbn [objects children].
      constructor; [|done]. cbn. rewrite Hlen. by eauto 10.
    + destruct Hkids as (e' & Hin & He'). exists e'. split; [|done].
      cbn [elements omap]. by apply elem_of_cons; right.
  - cbn [fst]. exists e. split; [|done]. cbn [elements omap]. by apply elem_of_cons; left.
Qed.

(** X26. When [resolveTreeStyles] returns, it returns a forest of the
    same shape: node for node in document order, an element of the result
    is a copy of the element of the input, with the same key, tag,
    attributes, class names, parent reference and number of children, and
    with the style the resolver computes for that element in
    [parsedStyles]; text and comment nodes are passed on as they are.  So
    the text of the forest is unchanged.  It throws what the resolver
    throws on an element of the forest, and it returns exactly when the
    resolver returns on every element of the forest. *)
Theorem resolveTreeStyles_same_shape (l : list HtmlNode) (next : Ref) :
  let outcome := (resolveTreeStyles l config next).1 in
  match outcome with
  | Normal resolved =>
      length resolved = length l
      /\ Forall2 (styled_copy config) (all_objects resolved) (all_objects l)
      /\ map node_key (all_objects resolved) = map node_key (all_objects l)
      /\ texts (all_objects resolved) = texts (all_objects l)
  | Thrown msg =>
      exists e, e ∈ elements (all_objects l) /\ resolveStyle config e = Thrown msg
  end
  /\ ((exists resolved, outcome = Normal resolved)
      <-> forall e, e ∈ elements (all_objects l) ->
                    exists r, resolveStyle config e = Normal r).
Proof.
  intros outcome. subst outcome. unfold resolveTreeStyles.
  pose proof (map_alloc_copies l next) as Hl.
  destruct (map_alloc (processNode config) l next) as [[resolved|msg] next'];
    cbn [fst] in *.
  - destruct Hl as [Hall Hlen].
    { apply Forall_forall. intros n _. apply processNode_copies. }
    split.
    + split; [done|]. split; [done|].
      induction Hall as [|y x ys xs Hyx _ [IHk IHt]]; [done|].
      assert (Hkey : node_key y = node_key x).
      { destruct y as [e'|t'|c'], x as [e|t|c]; try done; cbn in Hyx;
          [by destruct Hyx as (? & _)|by subst..]. }
      assert (Htext : texts [y] = texts [x]).
      { destruct y as [e'|t'|c'], x as [e|t|c]; try done; cbn in Hyx; by subst. }
      split; [cbn [map]; by rewrite Hkey, IHk|].
      change (texts ([y] ++ ys) = texts ([x] ++ xs)). unfold texts in *.
      by rewrite !omap_app, Htext, IHt.
    + split; [|by eauto]. intros _ e He.
      induction Hall as [|y x ys xs Hyx _ IH]; [by apply elem_of_nil in He|].
      change (x :: xs) with ([x] ++ xs) in He. rewrite elements_app in He.
      apply elem_of_app in He as [He|He]; [|by apply IH].
      destruct y as [e'|t'|c'], x as [e0|t|c]; try done; cbn in Hyx, He;
        try (by apply elem_of_nil in He).
      apply list_elem_of_singleton in He as ->.
      destruct Hyx as (_ & _ & _ & _ & _ & _ & r & Hr & _). by exists r.
  - destruct Hl as (e & Hin & He).
    { apply Forall_forall. intros n _. apply processNode_copies. }
    split; [by exists e|]. split; [by intros [? ?]|].
    intros Hall. destruct (Hall e Hin) as [r Hr]. congruence.
Qed.
End ResolvedTrees.

Section ResolverHelperFacts.
Context `{JsNumber}.

Lemma add_names_elem (names : list string) (seen : gset string) cn :
  cn ∈ fold_left (fun acc cn => acc ∪ {[cn]}) names seen <-> cn ∈ seen \/ In cn names.
Proof.
  revert seen. induction names as [|name names IH]; intros seen; cbn [fold_left In].
  - split; [by left|by intros [?|[]]].
  - rewrite IH, elem_of_union, elem_of_singleton.
    split; [intros [[?| ->]|?]|intros [?|[ ->|?]]]; auto.
Qed.

Lemma traverse_elem n : forall (seen : gset string) cn,
  cn ∈ traverse n seen
  <-> cn ∈ seen
      \/ exists e, In (NodeElement e) (objects n) /\ In cn (default [] (classNames e)).
Proof.
  induction n as [e IH|t|c] using HtmlNode_nested_ind; intros seen cn;
    [|split; [by left|intros [?|(e & [[=]|[]] & _)]; done]..].
  cbn [traverse objects].
  set (seen1 := match classNames e with
                | Some names => fold_left (fun acc cn => acc ∪ {[cn]}) names seen
                | None => seen
                end).
  assert (Hseen1 : cn ∈ seen1 <-> cn ∈ seen \/ In cn (default [] (classNames e))).
  { subst seen1. destruct (classNames e) as [names|]; [apply add_names_elem|].
    split; [by left|by intros [?|[]]]. }
  assert (Hkids : forall l (acc : gset string),
            Forall (fun c => forall (seen : gset string) cn,
                      cn ∈ traverse c seen
                      <-> cn ∈ seen
                          \/ exists e, In (NodeElement e) (objects c)
                                       /\ In cn (default [] (classNames e))) l ->
            cn ∈ fold_left (fun acc child => traverse child acc) l acc
            <-> cn ∈ acc
                \/ exists e', In (NodeElement e') (flat_map objects l)
                              /\ In cn (default [] (classNames e'))).
  { clear. intros l acc Hl. revert acc.
    induction Hl as [|c cs Hc _ IHcs]; intros acc; cbn [fold_left flat_map].
    - split; [by left|by intros [?|(? & [] & _)]].
    - rewrite IHcs, Hc. split.
      + intros [[?|(e' & Hin & Hcn)]|(e' & Hin & Hcn)]; [by left|right..];
          exists e'; (split; [|done]); apply in_app_iff; auto.
      + intros [?|(e' & Hin & Hcn)]; [by left; left|].
        apply in_app_iff in Hin as [Hin|Hin]; [left; right|right]; by exists e'. }
  rewrite (Hkids (children e) seen1 IH), Hseen1. split.
  - intros [[?|Hcn]|(e' & Hin & Hcn)]; [by left|right..].
    + exists e. split; [by left|done].
    + exists e'. split; [by right|done].
  - intros [?|(e' & [[= <-]|Hin] & Hcn)]; [by left; left|by left; right|].
    right. by exists e'.
Qed.

(** X27. [extractClassNames] returns the class names of the elements of
    the forest, of every level: a name is in the set exactly when some
    element has it among its class names. *)
Theorem extractClassNames_collects (l : list HtmlNode) (cn : string) :
  cn ∈ extractClassNames l
  <-> exists e, In (NodeElement e) (all_objects l) /\ In cn (default [] (classNames e)).
Proof.
  unfold extractClassNames, all_objects.
  assert (Hfrom : forall acc : gset string,
            cn ∈ fold_left (fun acc node => traverse node acc) l acc
            <-> cn ∈ acc
                \/ exists e, In (NodeElement e) (flat_map objects l)
                             /\ In cn (default [] (classNames e))).
  { induction l as [|n l IH]; intros acc; cbn [fold_left flat_map].
    - split; [by left|by intros [?|(? & [] & _)]].
    - rewrite IH, traverse_elem. split.
      + intros [[?|(e' & Hin & Hcn)]|(e' & Hin & Hcn)]; [by left|right..];
          exists e'; (split; [|done]); apply in_app_iff; auto.
      + intros [?|(e' & Hin & Hcn)]; [by left; left|].
        apply in_app_iff in Hin as [Hin|Hin]; [left; right|right]; by exists e'. }
  rewrite Hfrom. split; [intros [Hin|?]; [|done]|by right].
  by apply not_elem_of_empty in Hin.
Qed.

Lemma scale_step_lookup (scaled : gmap string StyleValue) prop scale k :
  match scaled !! prop with
  | Some (VNum n) => <[prop := VNum (num_mul n scale)]> scaled
  | _ => scaled
  end !! k
  = if decide (k = prop) then scaled_value scale <$> scaled !! k else scaled !! k.
Proof.
  destruct (decide (k = prop)) as [->|Hne].
  - destruct (scaled !! prop) as [[n|s|m|o]|] eqn:E; rewrite ?lookup_insert_eq, ?E; done.
  - destruct (scaled !! prop) as [[n|s|m|o]|]; rewrite ?lookup_insert_ne; done.
Qed.

(** X28. [scaleTextStyles] multiplies the properties fontSize, lineHeight
    and letterSpacing by the scale when they hold a number, and leaves
    every other property, and every value that is not a number, as it is;
    it adds and removes no property. *)
Theorem scaleTextStyles_scales_numbers (style : gmap string StyleValue) scale k :
  scaleTextStyles style scale !! k
  = (if bool_decide (k ∈ ["fontSize"; "lineHeight"; "letterSpacing"])
     then scaled_value scale <$> style !! k
     else style !! k)
  /\ dom (scaleTextStyles style scale) = dom style.
Proof.
  assert (Hlookup : forall k,
            scaleTextStyles style scale !! k
            = if bool_decide (k ∈ ["fontSize"; "lineHeight"; "letterSpacing"])
              then scaled_value scale <$> style !! k
              else style !! k).
  { intros k'. unfold scaleTextStyles. cbn [fold_left].
    rewrite !scale_step_lookup.
    destruct (decide (k' = "letterSpacing")) as [->|H3].
    { rewrite bool_decide_eq_true_2 by (rewrite !elem_of_cons; auto).
      by rewrite !decide_False. }
    destruct (decide (k' = "lineHeight")) as [->|H2].
    { rewrite bool_decide_eq_true_2 by (rewrite !elem_of_cons; auto).
      by rewrite !decide_False. }
    destruct (decide (k' = "fontSize")) as [->|H1].
    { by rewrite bool_decide_eq_true_2 by (rewrite !elem_of_cons; auto). }
    rewrite bool_decide_eq_false_2; [done|].
    rewrite !elem_of_cons, elem_of_nil. by intros [|[|[|]]]. }
  split; [apply Hlookup|]. apply set_eq. intros k'.
  rewrite !elem_of_dom, Hlookup. case_bool_decide; [|done].
  by rewrite fmap_is_Some.
Qed.
End ResolverHelperFacts.

(** ** Chunks for the virtualized list *)

Section Chunks.
Context `{JsNumber}.
Variables chunkSize baseHeight : Z.

Lemma total_height_snoc l n :
  total_height baseHeight (l ++ [n])
  = total_height baseHeight l + estimateNodeHeight n baseHeight.
Proof.
  unfold total_height. induction l as [|x l IH]; cbn [app fold_right]; [lia|].
  rewrite IH. lia.
Qed.

Lemma chunk_names_snoc count :
  chunk_names (S count) = chunk_names count ++ ["chunk-" +:+ nat_to_string count].
Proof. unfold chunk_names. by rewrite seq_S, map_app. Qed.

Lemma chunk_step_invariant done s node :
  chunk_invariant chunkSize baseHeight done s ->
  chunk_invariant chunkSize baseHeight (done ++ [node])
    (chunk_step chunkSize baseHeight s node).
Proof.
  intros (Hcat & Hfull & Hlen & Hheight & Hindex & Hkeys).
  unfold chunk_step. cbn [currentChunk chunks currentHeight chunkIndex].
  assert (Hlen1 : Z.of_nat (length (currentChunk s ++ [node]))
                  = Z.of_nat (length (currentChunk s)) + 1)
    by (rewrite length_app; cbn [length]; lia).
  unfold full_size in *.
  destruct (Z.of_nat (length (currentChunk s ++ [node])) >=? chunkSize) eqn:Hge.
  - rewrite Z.geb_leb in Hge. apply Z.leb_le in Hge.
    unfold chunk_invariant, push_chunk.
    cbn [currentChunk chunks currentHeight chunkIndex].
    rewrite map_app, concat_app, length_app. cbn [map concat length chunk_nodes].
    rewrite !app_nil_r, <- Hcat, <- app_assoc.
    split; [done|]. split.
    { apply Forall_app. split; [done|]. constructor; [|done].
      split; cbn [chunk_nodes estimatedHeight]; [unfold full_size; lia|].
      by rewrite total_height_snoc, Hheight. }
    split; [unfold full_size; lia|]. split; [done|]. split; [lia|].
    rewrite map_app, Nat.add_1_r, chunk_names_snoc, Hkeys, Hindex. done.
  - rewrite Z.geb_leb in Hge. apply Z.leb_gt in Hge.
    unfold chunk_invariant. cbn [currentChunk chunks currentHeight chunkIndex].
    rewrite <- Hcat, <- app_assoc. split; [done|]. split; [done|].
    split; [unfold full_size; lia|]. split; [|done].
    by rewrite total_height_snoc, Hheight.
Qed.

Lemma chunk_loop_invariant l : forall done s,
  chunk_invariant chunkSize baseHeight done s ->
  chunk_invariant chunkSize baseHeight (done ++ l)
    (fold_left (chunk_step chunkSize baseHeight) l s).
Proof.
  induction l as [|n l IH]; intros done s Hinv; cbn [fold_left].
  - by rewrite app_nil_r.
  - replace (done ++ n :: l) with ((done ++ [n]) ++ l) by by rewrite <- app_assoc.
    apply IH. by apply chunk_step_invariant.
Qed.

(** X30. [chunkNodes] cuts the list of nodes into consecutive chunks: the
    chunks one after the other give back the list, no chunk is empty,
    every chunk but the last holds [chunkSize] nodes (one node when
    [chunkSize] is below one) and the last one no more, the estimated
    height of a chunk is the sum of the estimated heights of its nodes,
    and the keys are chunk-0, chunk-1, ... in order. *)
Theorem chunkNodes_partition (l : list HtmlNode) :
  let cs := chunkNodes l chunkSize baseHeight in
  concat (map chunk_nodes cs) = l
  /\ Forall (fun c => 1 <= Z.of_nat (length (chunk_nodes c)) <= full_size chunkSize) cs
  /\ Forall (fun c => Z.of_nat (length (chunk_nodes c)) = full_size chunkSize)
       (removelast cs)
  /\ Forall (fun c => estimatedHeight c = total_height baseHeight (chunk_nodes c)) cs
  /\ map chunk_key cs = chunk_names (length cs).
Proof.
  intros cs. subst cs. unfold chunkNodes.
  pose proof (chunk_loop_invariant l []
                {| chunks := []; currentChunk := []; currentHeight := 0;
                   chunkIndex := 0 |}) as Hinv.
  cbn [app] in Hinv.
  destruct Hinv as (Hcat & Hfull & Hlen & Hheight & Hindex & Hkeys).
  { unfold chunk_invariant, full_size. cbn. repeat split; try done; lia. }
  set (s := fold_left _ l _) in *. clearbody s.
  assert (Hfull1 : Forall (fun c => 1 <= Z.of_nat (length (chunk_nodes c))
                                    <= full_size chunkSize) (chunks s)).
  { eapply Forall_impl; [exact Hfull|]. intros c [Hc _]. unfold full_size in *. lia. }
  assert (Hfull2 : Forall (fun c => estimatedHeight c
                                    = total_height baseHeight (chunk_nodes c))
                     (chunks s)).
  { eapply Forall_impl; [exact Hfull|]. by intros c [_ Hc]. }
  assert (Hfull3 : Forall (fun c => Z.of_nat (length (chunk_nodes c))
                                    = full_size chunkSize) (chunks s)).
  { eapply Forall_impl; [exact Hfull|]. by intros c [Hc _]. }
  destruct (0 <? length (currentChunk s))%nat eqn:Hrest.
  - apply Nat.ltb_lt in Hrest. unfold push_chunk.
    rewrite map_app, concat_app, removelast_last, length_app. cbn [map concat length].
    rewrite app_nil_r. split; [done|]. split.
    { apply Forall_app. split; [done|]. constructor; [|done].
      cbn [chunk_nodes]. lia. }
    split; [done|]. split.
    { apply Forall_app. split; [done|]. by constructor. }
    rewrite map_app, Nat.add_1_r, chunk_names_snoc, Hkeys, Hindex. done.
  - apply Nat.ltb_ge in Hrest.
    assert (Hnil : currentChunk s = []) by (destruct (currentChunk s); [done|cbn in Hrest; lia]).
    rewrite Hnil, app_nil_r in Hcat. split; [done|]. split; [done|].
    split; [|done]. clear -Hfull3.
    induction Hfull3 as [|c cs Hc Hcs IH]; [constructor|].
    destruct cs as [|c' cs]; [constructor|]. cbn [removelast] in *. by constructor.
Qed.
End Chunks.

(** ** [postProcess] is idempotent *)

Section Idempotence.
Context `{JsNumber}.
Implicit Types (l result : list HtmlNode).

Lemma trimStart_idempotent s : trimStart (trimStart s) = trimStart s.
Proof.
  induction s as [|c s IH]; [done|]. cbn [trimStart].
  destruct (is_whitespace c) eqn:Hc; [done|]. cbn [trimStart]. by rewrite Hc.
Qed.

Lemma trimEnd_idempotent s : trimEnd (trimEnd s) = trimEnd s.
Proof.
  induction s as [|c s IH]; [done|]. cbn [trimEnd].
  destruct (trimEnd s) as [|c' r] eqn:Hs.
  - destruct (is_whitespace c) eqn:Hc; [done|]. cbn [trimEnd]. by rewrite Hc.
  - cbn [trimEnd] in IH |- *. by rewrite IH.
Qed.

Lemma length_trimStart s : (String.length (trimStart s) <= String.length s)%nat.
Proof.
  induction s as [|c s IH]; [done|]. cbn [trimStart].
  destruct (is_whitespace c); cbn [String.length]; lia.
Qed.

Lemma trimStart_fixed_head c s :
  trimStart (String c s) = String c s -> is_whitespace c = false.
Proof.
  cbn [trimStart]. destruct (is_whitespace c); [|done]. intros Heq.
  pose proof (length_trimStart s) as Hlen. rewrite Heq in Hlen.
  cbn [String.length] in Hlen. lia.
Qed.

Lemma trimStart_trimEnd s :
  trimStart s = s -> trimStart (trimEnd s) = trimEnd s.
Proof.
  destruct s as [|c s]; [done|]. intros Hc%trimStart_fixed_head.
  cbn [trimEnd]. destruct (trimEnd s); rewrite ?Hc; cbn [trimStart]; by rewrite Hc.
Qed.

Lemma adjacent_in_the_middle l (a b : TextNode) rest :
  has_adjacent_texts (l ++ NodeText a :: NodeText b :: rest) = true.
Proof.
  induction l as [|y l IH]; [done|].
  cbn [app]. destruct y as [e|t|c]; cbn [has_adjacent_texts]; try exact IH.
  destruct (l ++ NodeText a :: NodeText b :: rest) as [|[e'|t'|c'] ?]; try done.
Qed.

(** On a list without two texts side by side whose nodes are settled,
    the loop of [postProcess] rebuilds the list. *)
Lemma settled_loop l : forall result,
  has_adjacent_texts (result ++ l) = false -> Forall settled l ->
  fold_left (postProcess_step postProcess_children) l result = result ++ l.
Proof.
  induction l as [|n l IH]; intros result Hadj Hl; [by rewrite app_nil_r|].
  inversion Hl as [|? ? Hn Hl']. subst. cbn [fold_left].
  assert (Hstep : postProcess_step postProcess_children result n = result ++ [n]).
  { unfold postProcess_step.
    destruct n as [e|t|c]; [by rewrite Hn| |done].
    destruct (last result) as [[e'|prev|c']|] eqn:Hlast; try done.
    apply last_Some in Hlast as [rl ->]. rewrite <- app_assoc in Hadj.
    cbn [app] in Hadj. by rewrite adjacent_in_the_middle in Hadj. }
  rewrite Hstep, IH; [by rewrite <- app_assoc|by rewrite <- app_assoc|done].
Qed.

Lemma trim_first_settled l : starts_trimmed l = true -> trim_first l = l.
Proof.
  destruct l as [|[e|t|c] rest]; try done. cbn [starts_trimmed trim_first].
  intros [Hne Htrim%String.eqb_eq]%andb_true_iff. rewrite Htrim, Hne.
  by destruct t.
Qed.

Lemma trim_last_settled l : ends_trimmed l = true -> trim_last l = l.
Proof.
  unfold ends_trimmed, trim_last.
  destruct (last l) as [[e|t|c]|] eqn:Hlast; try done.
  intros [Hne Htrim%String.eqb_eq]%andb_true_iff. rewrite Htrim, Hne.
  apply last_Some in Hlast as [rl ->]. rewrite removelast_last. by destruct t.
Qed.

Local Abbreviation settles x := (settled (postProcess_children x)).

Lemma postProcess_step_settled result x :
  settles x -> Forall settled result ->
  Forall settled (postProcess_step postProcess_children result x).
Proof.
  intros Hx Hres. unfold postProcess_step.
  assert (Hpush : Forall settled (result ++ [postProcess_children x]))
    by (apply Forall_app; split; [done|by constructor]).
  destruct x as [e|t|c]; try exact Hpush.
  destruct (last result) as [[e'|prev|c']|] eqn:Hlast; try exact Hpush.
  apply last_Some in Hlast as [rl ->]. rewrite removelast_last.
  apply Forall_app in Hres as [Hrl _]. apply Forall_app. split; [done|].
  by constructor.
Qed.

Lemma postProcess_loop_settled l : forall result,
  Forall (fun x => settles x) l -> Forall settled result ->
  Forall settled (fold_left (postProcess_step postProcess_children) l result).
Proof.
  induction l as [|x l IH]; intros result Hl Hres; [done|].
  inversion Hl as [|? ? Hx Hl']. subst. cbn [fold_left].
  apply IH; [done|]. by apply postProcess_step_settled.
Qed.

Lemma trim_first_keeps_settled result :
  Forall settled result -> Forall settled (trim_first result).
Proof.
  intros Hres. destruct result as [|[e|first|c] rest]; try done.
  unfold trim_first. inversion Hres as [|? ? _ Hrest]. subst.
  destruct (nonempty _); [by constructor|done].
Qed.

Lemma trim_last_keeps_settled result :
  Forall settled result -> Forall settled (trim_last result).
Proof.
  intros Hres. unfold trim_last.
  destruct (last result) as [[e|final|c]|] eqn:Hlast; try done.
  apply last_Some in Hlast as [rl ->]. rewrite removelast_last.
  apply Forall_app in Hres as [Hrl _].
  destruct (nonempty _); [|done]. apply Forall_app. split; [done|by constructor].
Qed.

Lemma trim_first_starts result :
  has_adjacent_texts result = false -> starts_trimmed (trim_first result) = true.
Proof.
  intros Hadj. destruct result as [|[e|first|c] rest]; try done.
  unfold trim_first. destruct (nonempty (trimStart (content first))) eqn:Hne.
  - cbn [starts_trimmed with_content content]. rewrite Hne, trimStart_idempotent.
    by rewrite String.eqb_refl.
  - by destruct rest as [|[e'|t'|c'] rest'].
Qed.

Lemma trim_last_ends result :
  has_adjacent_texts result = false -> starts_trimmed result = true ->
  starts_trimmed (trim_last result) = true /\ ends_trimmed (trim_last result) = true.
Proof.
  intros Hadj Hstart. unfold trim_last, ends_trimmed.
  destruct (last result) as [[e|final|c]|] eqn:Hlast;
    try (rewrite Hlast; by split).
  apply last_Some in Hlast as [rl ->]. rewrite removelast_last.
  rewrite has_adjacent_snoc in Hadj. apply orb_false_iff in Hadj as [_ Hends].
  rewrite andb_true_r in Hends.
  destruct (nonempty (trimEnd (content final))) eqn:Hne.
  - rewrite last_snoc. cbn [with_content content].
    rewrite Hne, trimEnd_idempotent, String.eqb_refl. split; [|done].
    destruct rl as [|a rl]; [|done]. cbn [app starts_trimmed with_content content] in *.
    apply andb_true_iff in Hstart as [_ Htrim%String.eqb_eq].
    by rewrite Hne, trimStart_trimEnd, String.eqb_refl.
  - split.
    + destruct rl as [|a rl]; done.
    + unfold ends_with_text in Hends. by destruct (last rl) as [[]|].
Qed.

Lemma postProcess_with_idempotent l :
  Forall (fun x => settles x) l ->
  postProcess_with postProcess_children (postProcess_with postProcess_children l)
  = postProcess_with postProcess_children l.
Proof.
  intros Hl. unfold postProcess_with at 1.
  set (loop := fold_left (postProcess_step postProcess_children) l []).
  assert (Hloop : loop_invariant loop).
  { apply postProcess_loop_invariant; [|done].
    apply Forall_forall. intros x _. apply postProcess_children_clean. }
  destruct (trim_first_clean _ Hloop) as [Hfirst Hhead].
  destruct (trim_last_clean _ Hfirst Hhead) as ([Hadj _] & _).
  assert (Hsettled : Forall settled (postProcess_with postProcess_children l)).
  { apply trim_last_keeps_settled, trim_first_keeps_settled.
    by apply postProcess_loop_settled. }
  destruct (trim_last_ends (trim_first loop)) as [Hstart Hend];
    [by destruct Hfirst|apply trim_first_starts; by destruct Hloop|].
  fold (postProcess_with postProcess_children l) in Hadj, Hstart, Hend.
  rewrite (settled_loop _ []) by done. cbn [app].
  by rewrite trim_first_settled, trim_last_settled.
Qed.

Lemma postProcess_children_idempotent n : settles n.
Proof.
  induction n as [e IH|t|c] using HtmlNode_nested_ind; [|done..].
  unfold settled. cbn [postProcess_children with_children children].
  by rewrite postProcess_with_idempotent.
Qed.

(** X29. [postProcess] is idempotent: applied to its own result it
    changes nothing, at any level of the tree; and its result neither
    begins nor ends with a text that has white space on the outer side. *)
Theorem postProcess_idempotent l :
  postProcess (postProcess l) = postProcess l
  /\ starts_trimmed (postProcess l) = true
  /\ ends_trimmed (postProcess l) = true.
Proof.
  split.
  - apply postProcess_with_idempotent, Forall_forall. intros x _.
    apply postProcess_children_idempotent.
  - unfold postProcess, postProcess_with.
    set (loop := fold_left (postProcess_step postProcess_children) l []).
    assert (Hloop : loop_invariant loop).
    { apply postProcess_loop_invariant; [|done].
      apply Forall_forall. intros x _. apply postProcess_children_clean. }
    destruct (trim_first_clean _ Hloop) as [Hfirst _].
    apply trim_last_ends; [by destruct Hfirst|].
    apply trim_first_starts. by destruct Hloop.
Qed.
End Idempotence.
